(** * Books service: chunked documents, page reads and the read-ahead cache

    A shallow embedding of [src/resources/books/books.service.ts]
    (class [BooksService]): [createBook], [getPageByBookId], [getBookById],
    the result loop of [getAll] and [deleteBookById], over an explicit
    model of the two TypeORM repositories and of the cache manager.

    Asynchronous calls are sequenced in program order ([await]); every
    call to a repository or to the cache may be rejected, which is the
    only way the TypeScript code can leave a method other than by
    [return].  *)

From Stdlib Require Import ZArith QArith Qround Ascii String List Lia.
From stdpp Require Import base option list gmap strings pretty.

Local Open Scope Z_scope.

(** ** Entities and DTOs

    The entity classes ([Book], [BooksChunk], [User]) are declared in
    files that are not part of the sources at hand; the records below
    carry the columns the service reads or writes.  *)

Module User.
Record t : Type := mk
  { apiKey : string;
    chunkSize : Z;
    languageCode : string;
    firstName : string;
    secondName : string;
    username : string }.
End User.

Module Book.
(** [user] is the many-to-one relation of the row, loaded by
    [relations: ['user']]; no method of the service writes users. *)
Record t : Type := mk
  { id : string;
    title : string;
    author : option string;
    totalIndex : Z;
    lastIndex : Z;
    user : User.t }.

Definition with_lastIndex (page : Z) (b : t) : t :=
  mk (id b) (title b) (author b) (totalIndex b) page (user b).
End Book.

Module BooksChunk.
(** A row of the chunk table: [CreateBooksChunkDto], with the foreign
    key [book: { id }]. *)
Record row : Type := mkRow
  { bookId : string;
    rowIndex : Z;
    rowText : string }.

(** The entity as [findOne] returns it with
    [relations: ['book', 'book.user']]. *)
Record t : Type := mk
  { text : string;
    index : Z;
    book : Book.t }.
End BooksChunk.

Record CreateBookDto : Type := mkCreateBookDto
  { dto_title : string;
    dto_author : option string;
    bookText : string;
    dto_user : User.t }.

Record GetChunkDto : Type := mkGetChunkDto
  { text : string;
    title : string;
    bookId : string;
    currentPage : Z;
    totalPage : Z;
    userLanguageCode : string }.

Record GetBookDto : Type := mkGetBookDto
  { gb_id : string;
    gb_index : option Z;
    gb_title : string;
    gb_author : option string;
    begginLink : string;
    continousLink : string;
    gb_currentPage : Z;
    gb_totalPage : Z;
    fileName : option string;
    percent : string;
    begginText : option string;
    continousText : option string }.

(** ** JavaScript numbers, as far as [percent] needs them

    [book.lastIndex] and [book.totalIndex] are integer columns.  A
    JavaScript number is either finite, one of the two infinities, or
    NaN; a finite value is kept as the exact rational (the quotients
    formed here are far below 2^53, where the nearest double rounds to
    the same integer). *)

Inductive JsNumber : Type :=
  | Num (q : Q)
  | PosInfinity
  | NegInfinity
  | NaN.

(** [a / b] for integer operands: a zero divisor gives NaN for [0 / 0]
    and an infinity of the sign of the dividend otherwise. *)
Definition js_div (a b : Z) : JsNumber :=
  if bool_decide (b = 0) then
    if bool_decide (a = 0) then NaN
    else if bool_decide (0 < a) then PosInfinity else NegInfinity
  else Num (Qdiv (inject_Z a) (inject_Z b)).

(** [Math.round]: the nearest integer, ties towards +Infinity; NaN and
    the infinities are returned unchanged. *)
Definition Math_round (x : JsNumber) : JsNumber :=
  match x with
  | Num q => Num (inject_Z (Qfloor (Qplus q (1 # 2))))
  | other => other
  end.


(** Number-to-string conversion of a template literal, for the values
    [Math.round] returns. *)
Definition js_toString (x : JsNumber) : string :=
  match x with
  | Num q => pretty (Qfloor q)
  | PosInfinity => "Infinity"
  | NegInfinity => "-Infinity"
  | NaN => "NaN"
  end.

(** The expression of [getAll] and [getBookById]:
    [Math.round((100 * book.lastIndex) / book.totalIndex)]. *)
Definition percentNumber (b : Book.t) : JsNumber :=
  Math_round (js_div (100 * Book.lastIndex b) (Book.totalIndex b)).

Definition percentText (b : Book.t) : string :=
  js_toString (percentNumber b) +:+ " %".

(** ** The splitter *)

Record Chunk : Type := mkChunk
  { chunk : string;
    chunkIndex : Z }.

Record SplitResult : Type := mkSplitResult
  { chunks : list Chunk;
    totalIndex : Z }.

(** Modelled from the spec: the chunk count of [splitEveryN] (section
    4.1) for a text of [len] characters cut every [n] characters,
    [ceil(len / n)], and one (empty) chunk for the empty text. *)
Definition chunkCountOf (len n : nat) : nat :=
  if (len =? 0)%nat then 1%nat else ((len + n - 1) / n)%nat.

(** Modelled from the spec: chunk [k] of [splitEveryN] (section 4.1),
    the [n] characters from offset [k * n], or what is left of the text,
    with index [k]. *)
Definition chunkAt (txt : string) (n k : nat) : Chunk :=
  mkChunk (String.substring (k * n) n txt) (Z.of_nat k).

(** The calls the service makes on its collaborators: the cache manager
    and the two repositories. *)
Inductive Op : Type :=
  | CacheGet (key : string)
  | CacheSet (key : string) (ttl : option Z)
  | ChunkFindOne (id : string) (page : Z) (apiKey : string)
  | ChunkInsert (rows : list BooksChunk.row)
  | ChunkDelete (id : string)
  | BookInsert (title : string)
  | BookFindOne (id : string) (apiKey : string)
  | BookUpdate (id : string) (lastIndex : Z)
  | BookDelete (id : string).

(** What a rejected promise carries: the usage error of the splitter, or
    the failure of a call on a collaborator. *)
Inductive Error : Type :=
  | InvalidArgument
  | Rejected (op : Op).

(** Modelled from the spec: [splitEveryN] of [@core/utils] is imported by
    the service but its file is not among the sources.  Following
    section 4.1: the text is cut into consecutive non-overlapping
    substrings of exactly [chunkSize] characters, the last one holding
    the remainder; indices start at 0 and increase by one; there are
    [ceil(len / chunkSize)] chunks, and exactly one chunk holding the
    empty string for the empty text; [chunkSize <= 0] is a usage error.
    Section 4.1 describes the chunks only.  What the [totalIndex]
    component that [createBook] destructures holds is not in the spec:
    it is taken here to be the chunk count, an assumption, under which
    the stored [totalIndex] is the index of the last page.  What the
    service does with that component is stated below for an arbitrary
    result of the splitter ([ingest]). *)
Definition splitEveryN (txt : string) (chunkSize : Z) : Error + SplitResult :=
  if bool_decide (chunkSize ≤ 0) then inl InvalidArgument
  else
    let n := Z.to_nat chunkSize in
    let count := chunkCountOf (String.length txt) n in
    inr (mkSplitResult (map (chunkAt txt n) (seq 0 count)) (Z.of_nat count)).

(** Concatenation of the chunk texts in list order. *)
Definition joinChunks (cs : list Chunk) : string :=
  foldr (λ c acc, chunk c +:+ acc) EmptyString cs.

(** ** The world: both tables, the cache, and the behaviour of the
    environment *)

Record CacheEntry : Type := mkCacheEntry
  { value : BooksChunk.t;
    ttl : option Z }.

(** [books] is keyed by the primary key; [chunkRows] keeps the rows in
    insertion order; [idCounter] counts the identifiers the store has
    assigned; [faults] tells which calls the environment rejects;
    [log] lists the calls issued so far, oldest first. *)
Record World : Type := mkWorld
  { books : gmap string Book.t;
    chunkRows : list BooksChunk.row;
    cache : gmap string CacheEntry;
    idCounter : nat;
    faults : Op → bool;
    log : list Op }.

Definition set_books (f : gmap string Book.t → gmap string Book.t) (w : World) : World :=
  mkWorld (f (books w)) (chunkRows w) (cache w) (idCounter w) (faults w) (log w).
Definition set_chunkRows (f : list BooksChunk.row → list BooksChunk.row) (w : World) : World :=
  mkWorld (books w) (f (chunkRows w)) (cache w) (idCounter w) (faults w) (log w).
Definition set_cache (f : gmap string CacheEntry → gmap string CacheEntry) (w : World) : World :=
  mkWorld (books w) (chunkRows w) (f (cache w)) (idCounter w) (faults w) (log w).
Definition set_idCounter (n : nat) (w : World) : World :=
  mkWorld (books w) (chunkRows w) (cache w) n (faults w) (log w).
Definition set_faults (f : Op → bool) (w : World) : World :=
  mkWorld (books w) (chunkRows w) (cache w) (idCounter w) f (log w).
Definition record (op : Op) (w : World) : World :=
  mkWorld (books w) (chunkRows w) (cache w) (idCounter w) (faults w) (log w ++ [op]).

(** ** Promises: state passing with rejection

    A rejected call keeps the effects made before it: nothing is rolled
    back. *)

Inductive Outcome (A : Type) : Type :=
  | Ok (a : A)
  | Throw (e : Error).
Arguments Ok {A} a.
Arguments Throw {A} e.

Definition IO (A : Type) : Type := World → Outcome A * World.

#[global] Instance IO_ret : MRet IO := λ A a w, (Ok a, w).
#[global] Instance IO_bind : MBind IO := λ A B f m w,
  match m w with
  | (Ok a, w') => f a w'
  | (Throw e, w') => (Throw e, w')
  end.

Definition throw {A : Type} (e : Error) : IO A := λ w, (Throw e, w).

Definition liftResult {A : Type} (r : Error + A) : IO A :=
  match r with inl e => throw e | inr a => mret a end.

(** [try { body } catch (error) { handler }]. *)
Definition try_catch {A : Type} (body : IO A) (handler : Error → IO A) : IO A := λ w,
  match body w with
  | (Ok a, w') => (Ok a, w')
  | (Throw e, w') => handler e w'
  end.

(** An awaited call on a collaborator: it is logged, then either
    rejected by the environment or run. *)
Definition await {A : Type} (op : Op) (run : World → A * World) : IO A := λ w,
  let w1 := record op w in
  if faults w op then (Throw (Rejected op), w1)
  else let '(a, w2) := run w1 in (Ok a, w2).

(** A call whose promise is dropped (no [await], no [.catch]): its
    effects happen (they are taken to happen at the call), its result
    and its rejection are not seen by the caller. *)
Definition no_await {A : Type} (m : IO A) : IO () := λ w, (Ok (), (m w).2).

(** [ensures m w Q]: run from [w], the call [m] ends with an outcome and
    in a world that satisfy [Q]. *)
Definition ensures {A : Type} (m : IO A) (w : World) (Q : Outcome A → World → Prop) : Prop :=
  Q (m w).1 (m w).2.

(** No character of [s] is an underscore. *)
Fixpoint underscoreFree (s : string) : bool :=
  match s with
  | EmptyString => true
  | String c rest => negb (bool_decide (c = "_"%char)) && underscoreFree rest
  end.

(** The key of a cached page: the template literal
    [`page_${id}_${page}`].  Page numbers are integers (the callers parse
    them with [ParseIntPipe]); they are kept as mathematical integers,
    which [page + 1] and the decimal rendering follow below 2^53. *)
Definition pageKey (id : string) (page : Z) : string :=
  "page_" +:+ id +:+ "_" +:+ pretty page.

(** [title.replace(/.txt/g, '')]: every match of the pattern, found left
    to right, is removed; the dot matches any character but a line
    terminator.  Titles are strings of bytes here and the terminators
    are LF and CR: for a title in which a character outside ASCII, or
    U+2028 or U+2029, comes right before [txt], JavaScript removes or
    keeps a whole character where this removes one byte. *)
Definition isLineTerminator (c : ascii) : bool :=
  bool_decide (c = "010"%char) || bool_decide (c = "013"%char).

Fixpoint removeDotTxt (s : string) : string :=
  match s with
  | String c (String "t" (String "x" (String "t" rest)) as tl) =>
      if isLineTerminator c then String c (removeDotTxt tl)
      else removeDotTxt rest
  | String c tl => String c (removeDotTxt tl)
  | EmptyString => EmptyString
  end.

Section BooksService.

(** The identifiers the store assigns on insert ([raw[0]?.id]), in
    the order it assigns them. *)
Variable genId : nat → string.

(** The column default of [Book.lastIndex], which [createBook] leaves
    to the store. *)
Variable defaultLastIndex : Z.

(** [configService.get('common').appUrl]. *)
Variable appUrl : string.

(** *** The cache manager *)

Definition cacheManager_get (key : string) : IO (option BooksChunk.t) :=
  await (CacheGet key) (λ w, (value <$> cache w !! key, w)).

(** [set(key, value, ttl?)]: overwrites the entry of [key]. *)
Definition cacheManager_set (key : string) (v : BooksChunk.t) (t : option Z) : IO () :=
  await (CacheSet key t) (λ w, ((), set_cache (insert key (mkCacheEntry v t)) w)).

(** *** The repositories *)

(** [bookRepository.insert({ author, title, totalIndex, user })],
    returning the identifier the store assigned. *)
Definition bookRepository_insert
    (author : option string) (title : string) (totalIndex : Z) (user : User.t) : IO string :=
  await (BookInsert title) (λ w,
    let id := genId (idCounter w) in
    let row := Book.mk id title author totalIndex defaultLastIndex user in
    (id, set_idCounter (S (idCounter w)) (set_books (insert id row) w))).

(** [bookChunkRepository.insert(rows)]: one bulk insert. *)
Definition bookChunkRepository_insert (rows : list BooksChunk.row) : IO () :=
  await (ChunkInsert rows) (λ w, ((), set_chunkRows (λ old, old ++ rows) w)).

(** The join of a chunk row with its book (and the book's user). *)
Definition loadChunk (w : World) (r : BooksChunk.row) : option BooksChunk.t :=
  b ← books w !! BooksChunk.bookId r;
  Some (BooksChunk.mk (BooksChunk.rowText r) (BooksChunk.rowIndex r) b).

(** [where: { book: { id, user: { apiKey } }, index: page }]. *)
Definition chunkWhere (id : string) (page : Z) (apiKey : string) (c : BooksChunk.t) : bool :=
  bool_decide (Book.id (BooksChunk.book c) = id)
  && bool_decide (User.apiKey (Book.user (BooksChunk.book c)) = apiKey)
  && bool_decide (BooksChunk.index c = page).

Definition selectChunk (w : World) (id : string) (page : Z) (apiKey : string)
    : option BooksChunk.t :=
  List.find (chunkWhere id page apiKey) (omap (loadChunk w) (chunkRows w)).

Definition bookChunkRepository_findOne (id : string) (page : Z) (apiKey : string)
    : IO (option BooksChunk.t) :=
  await (ChunkFindOne id page apiKey) (λ w, (selectChunk w id page apiKey, w)).

(** [where: { id, user: { apiKey } }]. *)
Definition selectBook (w : World) (id apiKey : string) : option Book.t :=
  b ← books w !! id;
  if bool_decide (User.apiKey (Book.user b) = apiKey) then Some b else None.

Definition bookRepository_findOne (id apiKey : string) : IO (option Book.t) :=
  await (BookFindOne id apiKey) (λ w, (selectBook w id apiKey, w)).

(** [bookRepository.update(id, { lastIndex: page })]; a missing row
    is not an error. *)
Definition bookRepository_update (id : string) (page : Z) : IO () :=
  await (BookUpdate id page) (λ w, ((), set_books (alter (Book.with_lastIndex page) id) w)).

(** [bookChunkRepository.delete({ book: { id } })]. *)
Definition bookChunkRepository_delete (id : string) : IO () :=
  await (ChunkDelete id) (λ w,
    ((), set_chunkRows (List.filter (λ r, negb (bool_decide (BooksChunk.bookId r = id)))) w)).

(** [bookRepository.delete({ id })]. *)
Definition bookRepository_delete (id : string) : IO () :=
  await (BookDelete id) (λ w, ((), set_books (delete id) w)).

(** *** The service *)

(** The rows [createBook] builds from the chunks:
    [chunks.map(({ chunk: text, index }) => ({ book: { id }, index, text }))]. *)
Definition chunksToInsert (insertedBookId : string) (cs : list Chunk)
    : list BooksChunk.row :=
  map (λ c, BooksChunk.mkRow insertedBookId (chunkIndex c) (chunk c)) cs.

Definition createBook (payload : CreateBookDto) : IO string :=
  split ← liftResult (splitEveryN (bookText payload) (User.chunkSize (dto_user payload)));
  insertedBookId ← bookRepository_insert
    (dto_author payload) (dto_title payload) (totalIndex split - 1) (dto_user payload);
  _ ← bookChunkRepository_insert (chunksToInsert insertedBookId (chunks split));
  mret insertedBookId.

(** [createBook] from the destructured result [{ chunks, totalIndex }]
    of the splitter on (lines 51-70): what it does with a result of the
    splitter, whatever that result is. *)
Definition ingest (split : SplitResult) (payload : CreateBookDto) : IO string :=
  insertedBookId ← bookRepository_insert
    (dto_author payload) (dto_title payload) (totalIndex split - 1) (dto_user payload);
  _ ← bookChunkRepository_insert (chunksToInsert insertedBookId (chunks split));
  mret insertedBookId.

(** The book row [createBook] inserts for a split whose [totalIndex] is
    [count], and the world once that row is in the store. *)
Definition insertedBook (id : string) (payload : CreateBookDto) (count : Z) : Book.t :=
  Book.mk id (dto_title payload) (dto_author payload) (count - 1) defaultLastIndex
    (dto_user payload).

Definition afterBookInsert (payload : CreateBookDto) (count : Z) (w : World) : World :=
  let w1 := record (BookInsert (dto_title payload)) w in
  let id := genId (idCounter w1) in
  set_idCounter (S (idCounter w1)) (set_books (insert id (insertedBook id payload count)) w1).

Definition getChunk (id : string) (page : Z) (apiKey : string) : IO (option BooksChunk.t) :=
  bookChunkRepository_findOne id page apiKey.

Definition pageView (page : Z) (c : BooksChunk.t) : GetChunkDto :=
  mkGetChunkDto
    (BooksChunk.text c)
    (Book.title (BooksChunk.book c))
    (Book.id (BooksChunk.book c))
    page
    (Book.totalIndex (BooksChunk.book c))
    (User.languageCode (Book.user (BooksChunk.book c))).

Definition getPageByBookId (id : string) (page : Z) (apiKey : string) (saveCurrentPage : bool)
    : IO (option GetChunkDto) :=
  let cacheKey := pageKey id page in
  cached ← cacheManager_get cacheKey;
  found ← match cached with
          | Some c => mret (Some c)
          | None =>
              fetched ← bookChunkRepository_findOne id page apiKey;
              _ ← match fetched with
                  | Some c => no_await (cacheManager_set cacheKey c (Some 3600))
                  | None => mret ()
                  end;
              mret fetched
          end;
  match found with
  | None => mret None
  | Some c =>
      _ ← (if negb (bool_decide (page = Book.lastIndex (BooksChunk.book c))) && saveCurrentPage
           then bookRepository_update id page
           else mret ());
      let nextPageCacheKey := pageKey id (page + 1) in
      nextCached ← cacheManager_get nextPageCacheKey;
      _ ← match nextCached with
          | Some _ => mret ()
          | None =>
              nextPage ← getChunk id (page + 1) apiKey;
              match nextPage with
              | Some n => no_await (cacheManager_set nextPageCacheKey n None)
              | None => mret ()
              end
          end;
      mret (Some (pageView page c))
  end.

Definition bookLink (b : Book.t) (page : string) (apiKey : string) : string :=
  appUrl +:+ "/r/" +:+ Book.id b +:+ "/" +:+ page +:+ "?k=" +:+ apiKey.

Definition getBookById (id apiKey : string) : IO (option GetBookDto) :=
  found ← bookRepository_findOne id apiKey;
  match found with
  | Some b =>
      mret (Some (mkGetBookDto
        (Book.id b)
        None
        (removeDotTxt (Book.title b))
        (Book.author b)
        (bookLink b "1" apiKey)
        (bookLink b (pretty (Book.lastIndex b)) apiKey)
        (Book.lastIndex b)
        (Book.totalIndex b)
        (Some (Book.title b))
        (percentText b)
        None
        None))
  | None => mret None
  end.

(** The loop of [getAll] over the books [findAndCount] returned:
    [index] is the position in that list, [skip] the offset of the
    listing page; [begginText] and [continousText] are the two
    localized labels looked up before the loop. *)
Definition getAllItem (apiKey : string) (skip : Z) (begginT continousT : string)
    (index : nat) (b : Book.t) : GetBookDto :=
  mkGetBookDto
    (Book.id b)
    (Some (Z.of_nat index + skip + 1))
    (removeDotTxt (Book.title b))
    (Book.author b)
    (bookLink b "1" apiKey)
    (bookLink b (pretty (Book.lastIndex b)) apiKey)
    (Book.lastIndex b)
    (Book.totalIndex b)
    None
    (percentText b)
    (Some begginT)
    (Some continousT).

Definition getAllResult (apiKey : string) (skip : Z) (begginT continousT : string)
    (found : list Book.t) : list GetBookDto :=
  imap (getAllItem apiKey skip begginT continousT) found.

Definition deleteBookById (id apiKey : string) : IO (option Book.t * bool) :=
  found ← bookRepository_findOne id apiKey;
  match found with
  | None => mret (None, false)
  | Some b =>
      try_catch
        (_ ← bookChunkRepository_delete id;
         _ ← bookRepository_delete (Book.id b);
         mret (Some b, true))
        (λ error, mret (Some b, false))
  end.

(** *** Histories

    The states the service can be in: from the empty store and the
    empty cache, any sequence of calls of its methods, interleaved
    with the environment starting or ceasing to reject calls and
    with cache entries expiring. *)

Definition emptyWorld : World := mkWorld ∅ [] ∅ 0 (λ _, false) [].

Inductive step : World → World → Prop :=
  | step_createBook payload w :
      step w (createBook payload w).2
  | step_getPageByBookId id page apiKey saveCurrentPage w :
      step w (getPageByBookId id page apiKey saveCurrentPage w).2
  | step_getBookById id apiKey w :
      step w (getBookById id apiKey w).2
  | step_deleteBookById id apiKey w :
      step w (deleteBookById id apiKey w).2
  | step_faults f w :
      step w (set_faults f w)
  | step_expire key w :
      step w (set_cache (delete key) w).

Definition reachable (w : World) : Prop := rtc step emptyWorld w.

(** The chunk rows of a document, in insertion order. *)
Definition rowsOf (w : World) (id : string) : list BooksChunk.row :=
  List.filter (λ r, bool_decide (BooksChunk.bookId r = id)) (chunkRows w).

(** The calls a method issues from a world: what it appends to the log. *)
Definition issued {A : Type} (m : IO A) (w : World) : list Op :=
  drop (length (log w)) (log (m w).2).

(** The chunk a page read works with: the cached snapshot when the key
    is in the cache, what the store returns for the caller otherwise. *)
Definition resolved (w : World) (id : string) (page : Z) (apiKey : string)
    : option BooksChunk.t :=
  match cache w !! pageKey id page with
  | Some e => Some (value e)
  | None => selectChunk w id page apiKey
  end.

(** Whether a page read that works with chunk [c] writes the reader's
    progress: [page !== chunk.book.lastIndex && saveCurrentPage]. *)
Definition updatesProgress (page : Z) (save : bool) (c : BooksChunk.t) : bool :=
  negb (bool_decide (page = Book.lastIndex (BooksChunk.book c))) && save.

(** The outcome of a page read whose two first reads are not rejected,
    in terms of the chunk it works with: the read is rejected by a
    rejected progress update, by a rejected cache read of the next page
    or by a rejected fetch of the next page, in this order, and returns
    the page view otherwise. *)
Definition pageOutcome (w : World) (id : string) (page : Z) (apiKey : string) (save : bool)
    (c : BooksChunk.t) : Outcome (option GetChunkDto) :=
  if updatesProgress page save c && faults w (BookUpdate id page)
  then Throw (Rejected (BookUpdate id page))
  else if faults w (CacheGet (pageKey id (page + 1)))
  then Throw (Rejected (CacheGet (pageKey id (page + 1))))
  else match cache w !! pageKey id (page + 1) with
       | Some _ => Ok (Some (pageView page c))
       | None =>
           if faults w (ChunkFindOne id (page + 1) apiKey)
           then Throw (Rejected (ChunkFindOne id (page + 1) apiKey))
           else Ok (Some (pageView page c))
       end.

(** The calls a page read that works with chunk [c] issues, in order,
    when its two first reads are not rejected. *)
Definition pageCalls (w : World) (id : string) (page : Z) (apiKey : string) (save : bool)
    (c : BooksChunk.t) : list Op :=
  [CacheGet (pageKey id page)]
  ++ match cache w !! pageKey id page with
     | Some _ => []
     | None => [ChunkFindOne id page apiKey; CacheSet (pageKey id page) (Some 3600)]
     end
  ++ (if updatesProgress page save c then [BookUpdate id page] else [])
  ++ (if updatesProgress page save c && faults w (BookUpdate id page) then []
      else
        CacheGet (pageKey id (page + 1))
        :: (if faults w (CacheGet (pageKey id (page + 1))) then []
            else match cache w !! pageKey id (page + 1) with
                 | Some _ => []
                 | None =>
                     ChunkFindOne id (page + 1) apiKey
                     :: (if faults w (ChunkFindOne id (page + 1) apiKey) then []
                         else match selectChunk w id (page + 1) apiKey with
                              | Some _ => [CacheSet (pageKey id (page + 1)) None]
                              | None => []
                              end)
                 end)).

Definition isBookUpdate (op : Op) : bool :=
  match op with BookUpdate _ _ => true | _ => false end.

Definition isCacheSet (op : Op) : bool :=
  match op with CacheSet _ _ => true | _ => false end.

(** What a cached or freshly loaded chunk satisfies in a world: its
    index lies within the page range recorded in its book, the
    identifier of its book was assigned by the store, and the book row
    of that identifier, while it exists, records the same range. *)
Definition chunkOk (w : World) (c : BooksChunk.t) : Prop :=
  0 ≤ BooksChunk.index c ≤ Book.totalIndex (BooksChunk.book c)
  ∧ (∃ n, (n < idCounter w)%nat ∧ Book.id (BooksChunk.book c) = genId n)
  ∧ (∀ b, books w !! Book.id (BooksChunk.book c) = Some b →
          Book.totalIndex b = Book.totalIndex (BooksChunk.book c)).

Record consistent (w : World) : Prop := mkConsistent
  { books_keyed : ∀ id b, books w !! id = Some b →
      Book.id b = id ∧ ∃ n, (n < idCounter w)%nat ∧ id = genId n;
    chunks_owned : ∀ r, r ∈ chunkRows w →
      ∃ b, books w !! BooksChunk.bookId r = Some b
           ∧ 0 ≤ BooksChunk.rowIndex r ≤ Book.totalIndex b;
    chunks_complete : ∀ id b, books w !! id = Some b →
      rowsOf w id = [] ∨
      map BooksChunk.rowIndex (rowsOf w id)
        = map Z.of_nat (seq 0 (Z.to_nat (Book.totalIndex b + 1)));
    cache_keyed : ∀ key e, cache w !! key = Some e →
      key = pageKey (Book.id (BooksChunk.book (value e))) (BooksChunk.index (value e))
      ∧ chunkOk w (value e) }.

End BooksService.

(** ** A concrete instance

    Identifiers [b0], [b1], ...; [lastIndex] defaults to 0; one reader
    who cuts every three characters, and a second user. *)

Definition sampleGenId (n : nat) : string := "b" +:+ pretty n.

Definition alice : User.t := User.mk "KEY-A" 3 "en" "Alice" "A" "alice".
Definition mallory : User.t := User.mk "KEY-M" 3 "en" "Mallory" "M" "mallory".

Definition samplePayload : CreateBookDto :=
  mkCreateBookDto "abc.txt" (Some "noname") "ABCDEFGHIJ" alice.

Definition shortPayload : CreateBookDto :=
  mkCreateBookDto "short.txt" None "AB" alice.

Definition sampleCreate : IO string := createBook sampleGenId 0 samplePayload.

Definition sampleAppUrl : string := "https://books.example".

(** The world after [alice] has uploaded the sample text. *)
Definition uploaded : World := (sampleCreate emptyWorld).2.

(** The book row and the first two chunks of the upload, as [findOne]
    loads them. *)
Definition sampleBook : Book.t := Book.mk "b0" "abc.txt" (Some "noname") 3 0 alice.
Definition samplePage0 : BooksChunk.t := BooksChunk.mk "ABC" 0 sampleBook.
Definition samplePage1 : BooksChunk.t := BooksChunk.mk "DEF" 1 sampleBook.

(** The world after [alice] has then read page 0, which caches pages 0
    and 1. *)
Definition cachedByOwner : World := (getPageByBookId "b0" 0 "KEY-A" true uploaded).2.

(** The world after [alice] has then deleted the document. *)
Definition afterDelete : World := (deleteBookById "b0" "KEY-A" cachedByOwner).2.

(** Two results a splitter could give for the sample text and for the
    short text: the chunks of section 4.1, with a [totalIndex] of one
    more than the chunk count for the first and of the chunk count for
    the second. *)
Definition sampleSplit : SplitResult :=
  mkSplitResult [mkChunk "ABC" 0; mkChunk "DEF" 1; mkChunk "GHI" 2; mkChunk "J" 3] 5.


(** An environment that rejects exactly the calls [bad] holds of. *)
Definition rejecting (bad : Op → bool) (w : World) : World := set_faults bad w.

Definition isChunkInsert (op : Op) : bool :=
  match op with ChunkInsert _ => true | _ => false end.

Definition isNextFetch (op : Op) : bool :=
  match op with
  | ChunkFindOne id page _ => bool_decide (id = "b0") && bool_decide (page = 1)
  | _ => false
  end.

(** ** What a page read leaves behind

    The store and the cache after a page read that works with chunk
    [c], when its two first reads are not rejected. *)

(** The book table: the row of [id] has its [lastIndex] set when the
    update is issued and not rejected. *)
Definition pageBooks (w : World) (id : string) (page : Z) (save : bool) (c : BooksChunk.t)
    : gmap string Book.t :=
  if updatesProgress page save c && negb (faults w (BookUpdate id page))
  then alter (Book.with_lastIndex page) id (books w)
  else books w.

(** The cache after the first part of the read: the entry of the page is
    written on a miss, unless the write is rejected. *)
Definition pageCacheFirst (w : World) (id : string) (page : Z) (c : BooksChunk.t)
    : gmap string CacheEntry :=
  match cache w !! pageKey id page with
  | Some _ => cache w
  | None =>
      if faults w (CacheSet (pageKey id page) (Some 3600)) then cache w
      else <[pageKey id page := mkCacheEntry c (Some 3600)]> (cache w)
  end.

(** The cache at the end: the entry of the next page is written when the
    read gets as far as finding that page in the store, unless the write
    is rejected. *)
Definition pageCache (w : World) (id : string) (page : Z) (apiKey : string) (save : bool)
    (c : BooksChunk.t) : gmap string CacheEntry :=
  let first := pageCacheFirst w id page c in
  if updatesProgress page save c && faults w (BookUpdate id page) then first
  else if faults w (CacheGet (pageKey id (page + 1))) then first
  else match cache w !! pageKey id (page + 1) with
       | Some _ => first
       | None =>
           if faults w (ChunkFindOne id (page + 1) apiKey) then first
           else match selectChunk (set_books (λ _, pageBooks w id page save c) w)
                        id (page + 1) apiKey with
                | Some n =>
                    if faults w (CacheSet (pageKey id (page + 1)) None) then first
                    else <[pageKey id (page + 1) := mkCacheEntry n None]> first
                | None => first
                end
       end.

(** ** The life of a document *)

(** Two rows of the same document: everything but [lastIndex] agrees. *)
Definition sameDocument (b b' : Book.t) : Prop :=
  Book.id b' = Book.id b
  ∧ Book.title b' = Book.title b
  ∧ Book.author b' = Book.author b
  ∧ Book.totalIndex b' = Book.totalIndex b
  ∧ Book.user b' = Book.user b.

Section Evolution.

Variable genId : nat → string.

(** How the store may differ between two moments: identifiers are only
    ever assigned in order, and a document of the later moment is
    either a document of the earlier one -- the same but for
    [lastIndex], with its chunk rows as they were or all gone -- or a
    document created in between. *)
Definition evolves (w w' : World) : Prop :=
  (idCounter w ≤ idCounter w')%nat
  ∧ ∀ id b', books w' !! id = Some b' →
      (∃ b, books w !! id = Some b ∧ sameDocument b b'
            ∧ (rowsOf w' id = rowsOf w id ∨ rowsOf w' id = []))
      ∨ (∃ n, (idCounter w ≤ n)%nat ∧ id = genId n).

End Evolution.

(** ** The rest of the application: queries and the controller

    [getAllChunksByBookId] and [getBooksCountByTelegramId] of the
    service, [getByApiKey] of [UsersService], and the two controller
    methods [getBookPage] and [uploadFile] built on them.  Their store
    calls are not among the calls above, so they run in a site: the
    world of the service, the user table, and an environment and a log
    for these queries. *)

Inductive Query : Type :=
  | ChunkFind (id apiKey : string)
  | BookCount (telegramId : Z)
  | UserFindOne (apiKey : string).

(** The exceptions the controller throws. *)
Inductive HttpException : Type :=
  | UnauthorizedException (message : string)
  | BadRequestException (message : string)
  | InternalServerErrorException (message : string).

(** How a request can fail: by an exception of the controller, by a
    rejected call of the service, or by a rejected query. *)
Inductive Failure : Type :=
  | Http (e : HttpException)
  | ServiceError (e : Error)
  | QueryRejected (q : Query).

Record Site : Type := mkSite
  { world : World;
    users : list User.t;
    queryFaults : Query → bool;
    queryLog : list Query }.

Definition set_world (w : World) (s : Site) : Site :=
  mkSite w (users s) (queryFaults s) (queryLog s).
Definition logged (q : Query) (s : Site) : Site :=
  mkSite (world s) (users s) (queryFaults s) (queryLog s ++ [q]).

Inductive Answer (A : Type) : Type :=
  | Done (a : A)
  | Failed (f : Failure).
Arguments Done {A} a.
Arguments Failed {A} f.

Definition App (A : Type) : Type := Site → Answer A * Site.

#[global] Instance App_ret : MRet App := λ A a s, (Done a, s).
#[global] Instance App_bind : MBind App := λ A B f m s,
  match m s with
  | (Done a, s') => f a s'
  | (Failed e, s') => (Failed e, s')
  end.

(** [throw new ...Exception(message)]. *)
Definition raise {A : Type} (e : HttpException) : App A := λ s, (Failed (Http e), s).

(** A method of the service, awaited by the controller. *)
Definition liftIO {A : Type} (m : IO A) : App A := λ s,
  match m (world s) with
  | (Ok a, w') => (Done a, set_world w' s)
  | (Throw e, w') => (Failed (ServiceError e), set_world w' s)
  end.

(** An awaited read of a repository: logged, then rejected or answered. *)
Definition query {A : Type} (q : Query) (select : Site → A) : App A := λ s,
  let s1 := logged q s in
  if queryFaults s q then (Failed (QueryRejected q), s1) else (Done (select s1), s1).

(** [try { body } catch (error) { handler }] in a controller method. *)
Definition app_try_catch {A : Type} (body : App A) (handler : Failure → App A) : App A := λ s,
  match body s with
  | (Done a, s') => (Done a, s')
  | (Failed e, s') => handler e s'
  end.

(** [!apiKey] for a query parameter: missing, or the empty string. *)
Definition missingKey (apiKey : option string) : bool :=
  match apiKey with
  | None => true
  | Some k => bool_decide (k = EmptyString)
  end.

(** The message ['query param "k" is required! use ?k=<key>']. *)
Definition keyRequired : string :=
  "query param " +:+ String "034" ("k" +:+ String "034" " is required! use ?k=<key>").

(** [Express.Multer.File], as far as [uploadFile] reads it;
    [buffer] is the text [file.buffer.toString()] gives. *)
Record UploadedFile : Type := mkUploadedFile
  { mimetype : string;
    originalname : string;
    buffer : string }.

(** What [getBookPage] hands to the page template: the chunk with the
    three links, or the not-found view. *)
Inductive PageResponse : Type :=
  | PageFound (view : GetChunkDto) (main back next : string)
  | PageNotFound (main title text : string).

Section Application.

Variable genId : nat → string.
Variable defaultLastIndex : Z.
Variable appUrl : string.

(** Two columns of the user row that the record [User.t] does not
    carry. *)
Variable telegramId : User.t → Z.
Variable booksLimit : User.t → Z.

(** [where: { book: { id, user: { apiKey } } }]. *)
Definition chunkOfBook (id apiKey : string) (c : BooksChunk.t) : bool :=
  bool_decide (Book.id (BooksChunk.book c) = id)
  && bool_decide (User.apiKey (Book.user (BooksChunk.book c)) = apiKey).

Definition selectChunks (w : World) (id apiKey : string) : list BooksChunk.t :=
  List.filter (chunkOfBook id apiKey) (omap (loadChunk w) (chunkRows w)).

Definition getAllChunksByBookId (id apiKey : string) : App (list BooksChunk.t) :=
  query (ChunkFind id apiKey) (λ s, selectChunks (world s) id apiKey).

(** [count({ where: { user: { telegramId } } })]. *)
Definition countBooks (w : World) (tid : Z) : nat :=
  size (filter (λ kb : string * Book.t, telegramId (Book.user kb.2) = tid) (books w)).

Definition getBooksCountByTelegramId (tid : Z) : App nat :=
  query (BookCount tid) (λ s, countBooks (world s) tid).

(** [UsersService.getByApiKey]: [findOne({ where: { apiKey } })]. *)
Definition getByApiKey (apiKey : string) : App (option User.t) :=
  query (UserFindOne apiKey)
    (λ s, List.find (λ u, bool_decide (User.apiKey u = apiKey)) (users s)).

Definition pageLink (id : string) (page : Z) (apiKeyParam : string) : string :=
  appUrl +:+ "/r/" +:+ id +:+ "/" +:+ pretty page +:+ apiKeyParam.

(** [BooksController.getBookPage]; [bookIdParam] is the route parameter
    [bookId]: parsed by [ParseIntPipe], it reaches the service as its
    decimal rendering. *)
Definition getBookPage (bookIdParam page : Z) (apiKey : option string) : App PageResponse :=
  if missingKey apiKey then raise (UnauthorizedException keyRequired)
  else
    let key := default EmptyString apiKey in
    let apiKeyParam := "?k=" +:+ key in
    found ← liftIO (getPageByBookId (pretty bookIdParam) page key true);
    match found with
    | Some view =>
        mret (PageFound view
                (appUrl +:+ apiKeyParam)
                (pageLink (bookId view) (if bool_decide (page = 1) then page else page - 1)
                   apiKeyParam)
                (pageLink (bookId view) (page + 1) apiKeyParam))
    | None =>
        mret (PageNotFound (appUrl +:+ apiKeyParam)
                "Не найдено" "Страница или книга не найдены!")
    end.

(** [BooksController.uploadFile]; [author] is the query parameter before
    [DefaultValuePipe('noname')]. *)
Definition uploadFile (apiKey : option string) (author : option string) (file : UploadedFile)
    : App string :=
  if missingKey apiKey then raise (UnauthorizedException keyRequired)
  else
    let key := default EmptyString apiKey in
    let author := default "noname" author in
    if bool_decide (mimetype file = "text/plain") then
      user ← getByApiKey key;
      match user with
      | None => raise (UnauthorizedException "we do not recognize you!")
      | Some user =>
          booksCount ← getBooksCountByTelegramId (telegramId user);
          if bool_decide (booksLimit user ≤ Z.of_nat booksCount)
          then raise (BadRequestException "books limit!")
          else
            app_try_catch
              (id ← liftIO (createBook genId defaultLastIndex
                              (mkCreateBookDto (originalname file) (Some author)
                                 (buffer file) user));
               mret (appUrl +:+ "/r/" +:+ id +:+ "/1?k=" +:+ key))
              (λ error, raise (InternalServerErrorException "error in creating book!"))
      end
    else
      raise (BadRequestException
               ("you need mimetype: text/plain. your file's mimetype is " +:+ mimetype file)).

End Application.

Create HintDb controller discriminated.
#[global] Hint Unfold getBookPage uploadFile : controller.
Create HintDb counting discriminated.
#[global] Hint Unfold countBooks : counting.

(** ** The concrete instance, continued

    [alice] has read page 1 of her upload; or she has deleted it, and
    uploaded a short text afterwards.  A site over the upload, with the
    two users, where [alice] may keep two books; a second text file.  The
    same upload in a store that assigns decimal identifiers, as the route
    of [getBookPage] expects them. *)

Definition readPage1 : World := (getPageByBookId "b0" 1 "KEY-A" true uploaded).2.

Definition deletedByOwner : World := (deleteBookById "b0" "KEY-A" uploaded).2.

Definition uploadedAgain : World := (createBook sampleGenId 0 shortPayload deletedByOwner).2.

Definition sampleTelegramId (u : User.t) : Z :=
  if bool_decide (User.apiKey u = "KEY-A") then 1 else 2.

Definition sampleBooksLimit (u : User.t) : Z := 2.

Definition sampleSite : Site := mkSite uploaded [alice; mallory] (λ _, false) [].

Definition sampleFile : UploadedFile := mkUploadedFile "text/plain" "def.txt" "KLMNOPQ".

Definition decimalGenId (n : nat) : string := pretty n.

Definition decimalSite : Site :=
  mkSite (createBook decimalGenId 0 samplePayload emptyWorld).2 [alice; mallory] (λ _, false) [].

(** * Properties *)

(** ** The splitter *)

Section Splitter.

Lemma string_app_cons (x : ascii) (a b : string) :
  String x a +:+ b = String x (a +:+ b).
Proof. reflexivity. Qed.

Lemma string_app_nil_l (b : string) : EmptyString +:+ b = b.
Proof. reflexivity. Qed.

Lemma string_app_assoc (a b c : string) : (a +:+ b) +:+ c = a +:+ (b +:+ c).
Proof.
  induction a as [|x a IH]; [reflexivity|].
  by rewrite !string_app_cons, IH.
Qed.

Lemma string_app_empty_r (a : string) : a +:+ EmptyString = a.
Proof.
  induction a as [|x a IH]; [reflexivity|].
  by rewrite string_app_cons, IH.
Qed.

Lemma substring_prefix_app (t : string) :
  ∀ a b : nat,
    String.substring 0 a t +:+ String.substring a b t = String.substring 0 (a + b) t.
Proof.
  induction t as [|c t IH]; intros a b.
  - destruct a, b; reflexivity.
  - destruct a as [|a]; simpl.
    + reflexivity.
    + by rewrite string_app_cons, IH.
Qed.

Lemma substring_whole (t : string) :
  ∀ m : nat, (String.length t ≤ m)%nat → String.substring 0 m t = t.
Proof.
  induction t as [|c t IH]; intros m Hm.
  - destruct m; reflexivity.
  - destruct m as [|m]; simpl in *; [lia|].
    f_equal. apply IH. lia.
Qed.

Lemma joinChunks_app (l1 l2 : list Chunk) :
  joinChunks (l1 ++ l2) = joinChunks l1 +:+ joinChunks l2.
Proof.
  induction l1 as [|c l1 IH]; simpl; [reflexivity|].
  by rewrite IH, string_app_assoc.
Qed.

(** The first [c] chunks concatenate to the first [c * n] characters. *)
Lemma joinChunks_prefix (t : string) (n c : nat) :
  joinChunks (map (chunkAt t n) (seq 0 c)) = String.substring 0 (c * n) t.
Proof.
  induction c as [|c IH].
  - simpl. by destruct t.
  - rewrite seq_S, map_app, joinChunks_app, IH. simpl.
    rewrite string_app_empty_r, substring_prefix_app.
    f_equal. lia.
Qed.

Lemma chunkCountOf_covers (len n : nat) :
  (0 < n)%nat → (len ≤ chunkCountOf len n * n)%nat.
Proof.
  intros Hn. unfold chunkCountOf.
  destruct (Nat.eqb_spec len 0) as [->|Hlen]; [lia|].
  pose proof (Nat.mul_succ_div_gt (len + n - 1) n) as H.
  nia.
Qed.

Lemma chunkCountOf_pos (len n : nat) : (0 < n)%nat → (0 < chunkCountOf len n)%nat.
Proof.
  intros Hn. unfold chunkCountOf.
  destruct (Nat.eqb_spec len 0) as [->|Hlen]; [lia|].
  apply Nat.div_str_pos. lia.
Qed.

Lemma chunkCountOf_single (len n : nat) :
  (0 < n)%nat → (len ≤ n)%nat → chunkCountOf len n = 1%nat.
Proof.
  intros Hn Hlen. unfold chunkCountOf.
  destruct (Nat.eqb_spec len 0) as [->|H0]; [reflexivity|].
  symmetry. apply Nat.div_unique with (r := (len - 1)%nat); lia.
Qed.

Lemma splitEveryN_ok (t : string) (size : Z) :
  0 < size →
  splitEveryN t size
  = inr (mkSplitResult
           (map (chunkAt t (Z.to_nat size))
                (seq 0 (chunkCountOf (String.length t) (Z.to_nat size))))
           (Z.of_nat (chunkCountOf (String.length t) (Z.to_nat size)))).
Proof.
  intros Hs. unfold splitEveryN.
  rewrite bool_decide_eq_false_2 by lia. reflexivity.
Qed.

(** C7. Round trip of the splitter: for every text [T] and every
    chunk size [S > 0], [splitEveryN T S] succeeds, its chunks carry
    the indices 0, 1, 2, ... in list order, and concatenating their
    texts in that order gives back [T] exactly. *)
Theorem splitEveryN_roundtrip (T : string) (S : Z) :
  0 < S →
  ∃ r, splitEveryN T S = inr r
       ∧ map chunkIndex (chunks r) = map Z.of_nat (seq 0 (length (chunks r)))
       ∧ joinChunks (chunks r) = T.
Proof.
  intros HS. eexists. split; [by apply splitEveryN_ok|]. simpl. split.
  - rewrite length_map, length_seq, <- list_fmap_compose. reflexivity.
  - rewrite joinChunks_prefix. apply substring_whole.
    apply chunkCountOf_covers. lia.
Qed.

Lemma splitEveryN_roundtrip_witness :
  0 < 3 ∧ ∃ r, splitEveryN "ABCDEFGHIJ" 3 = inr r
       ∧ map chunkIndex (chunks r) = map Z.of_nat (seq 0 (length (chunks r)))
       ∧ joinChunks (chunks r) = "ABCDEFGHIJ".
Proof. split; [lia | apply (splitEveryN_roundtrip "ABCDEFGHIJ" 3); lia]. Defined.

End Splitter.

(** ** Cache keys

    [pageKey] is injective: the decimal rendering of the page holds no
    underscore, so the last underscore of a key separates the
    identifier from the page. *)

Section CacheKeys.

Lemma underscoreFree_app (a b : string) :
  underscoreFree (a +:+ b) = underscoreFree a && underscoreFree b.
Proof.
  induction a as [|x a IH]; [reflexivity|].
  rewrite string_app_cons. simpl. rewrite IH. by rewrite andb_assoc.
Qed.

Lemma pretty_N_char_underscoreFree (x : N) : pretty_N_char x ≠ "_"%char.
Proof. unfold pretty_N_char. by repeat case_match. Qed.

Lemma pretty_N_go_underscoreFree (x : N) :
  ∀ s, underscoreFree s = true → underscoreFree (pretty_N_go x s) = true.
Proof.
  induction (N.lt_wf_0 x) as [x _ IH]; intros s Hs.
  destruct (decide (0 < x)%N) as [Hx|Hx].
  - rewrite pretty_N_go_step by done.
    apply IH; [by apply N.div_lt|]. simpl.
    rewrite Hs, bool_decide_eq_false_2; [reflexivity|].
    apply pretty_N_char_underscoreFree.
  - assert (x = 0%N) as -> by lia. by rewrite pretty_N_go_0.
Qed.

Lemma pretty_N_underscoreFree (x : N) : underscoreFree (pretty x) = true.
Proof.
  unfold pretty, pretty_N. case_decide; [reflexivity|].
  by apply pretty_N_go_underscoreFree.
Qed.

Lemma pretty_Z_underscoreFree (z : Z) : underscoreFree (pretty z) = true.
Proof.
  destruct z as [|p|p]; unfold pretty, pretty_Z.
  - reflexivity.
  - apply pretty_N_underscoreFree.
  - rewrite underscoreFree_app. simpl. apply pretty_N_underscoreFree.
Qed.

Lemma underscore_inside (b t : string) : underscoreFree (b +:+ "_" +:+ t) = false.
Proof.
  rewrite underscoreFree_app.
  change ("_" +:+ t) with (String "_" t). simpl.
  by rewrite andb_false_r.
Qed.

(** Two strings cut at their last underscore. *)
Lemma last_underscore_inj (a : string) :
  ∀ b s t,
    underscoreFree s = true → underscoreFree t = true →
    a +:+ "_" +:+ s = b +:+ "_" +:+ t → a = b ∧ s = t.
Proof.
  induction a as [|x a IH]; intros b s t Hs Ht Heq.
  - destruct b as [|y b].
    + change (String "_" s = String "_" t) in Heq. by simplify_eq.
    + change (String "_" s = String y (b +:+ "_" +:+ t)) in Heq.
      injection Heq as <- ->.
      by rewrite underscore_inside in Hs.
  - destruct b as [|y b].
    + change (String x (a +:+ "_" +:+ s) = String "_" t) in Heq.
      injection Heq as -> <-.
      by rewrite underscore_inside in Ht.
    + rewrite !string_app_cons in Heq. injection Heq as -> Heq.
      destruct (IH b s t Hs Ht Heq) as [-> ->]. done.
Qed.

Lemma pageKey_inj (id1 id2 : string) (p1 p2 : Z) :
  pageKey id1 p1 = pageKey id2 p2 → id1 = id2 ∧ p1 = p2.
Proof.
  unfold pageKey. intros Heq.
  assert (∀ x y, "page_" +:+ x = "page_" +:+ y → x = y) as Hprefix.
  { intros x y H. by injection H. }
  apply Hprefix in Heq.
  apply last_underscore_inj in Heq as [-> Hp]; try apply pretty_Z_underscoreFree.
  split; [done|]. by apply (inj pretty).
Qed.

End CacheKeys.

(** ** The store and the cache stay consistent *)

Section Consistency.

Variable genId : nat → string.
Variable defaultLastIndex : Z.
Variable appUrl : string.

(** The store never assigns an identifier twice. *)
Hypothesis genId_inj : ∀ n m, genId n = genId m → n = m.

Local Abbreviation consistent := (consistent genId).
Local Abbreviation chunkOk := (chunkOk genId).

(** Consistency only reads the tables, the cache and the counter. *)
Lemma consistent_same_data (w w' : World) :
  books w' = books w → chunkRows w' = chunkRows w →
  cache w' = cache w → idCounter w' = idCounter w →
  consistent w → consistent w'.
Proof.
  destruct w, w'; simpl. intros -> -> -> -> [H1 H2 H3 H4].
  constructor; assumption.
Qed.

Lemma consistent_empty : consistent emptyWorld.
Proof.
  constructor; simpl.
  - intros id b Hb. by rewrite lookup_empty in Hb.
  - intros r Hr. by apply elem_of_nil in Hr.
  - intros id b Hb. by rewrite lookup_empty in Hb.
  - intros key e He. by rewrite lookup_empty in He.
Qed.

Lemma consistent_record (op : Op) (w : World) : consistent w → consistent (record op w).
Proof. by apply consistent_same_data. Qed.

Lemma consistent_set_faults (f : Op → bool) (w : World) :
  consistent w → consistent (set_faults f w).
Proof. by apply consistent_same_data. Qed.

Lemma consistent_expire (key : string) (w : World) :
  consistent w → consistent (set_cache (delete key) w).
Proof.
  intros [H1 H2 H3 H4]. constructor; try assumption.
  simpl. intros k e [_ He]%lookup_delete_Some. by apply H4.
Qed.

Lemma consistent_cache_insert (key : string) (c : BooksChunk.t) (t : option Z) (w : World) :
  consistent w → chunkOk w c →
  key = pageKey (Book.id (BooksChunk.book c)) (BooksChunk.index c) →
  consistent (set_cache (insert key (mkCacheEntry c t)) w).
Proof.
  intros [H1 H2 H3 H4] Hc Hkey. constructor; try assumption.
  simpl. intros k e [[<- <-]|[_ He]]%lookup_insert_Some.
  - by split.
  - by apply H4.
Qed.

Lemma consistent_update (id : string) (page : Z) (w : World) :
  consistent w → consistent (set_books (alter (Book.with_lastIndex page) id) w).
Proof.
  intros [H1 H2 H3 H4]. constructor; simpl.
  - intros i b Hb. apply lookup_alter_Some in Hb as [(-> & b0 & Hb0 & ->)|[_ Hb]].
    + by apply H1 in Hb0.
    + by apply H1.
  - intros r Hr. destruct (H2 r Hr) as (b & Hb & Hrange).
    destruct (decide (id = BooksChunk.bookId r)) as [->|Hne].
    + exists (Book.with_lastIndex page b). split; [|done].
      by rewrite lookup_alter_eq, Hb.
    + exists b. by rewrite lookup_alter_ne.
  - intros i b Hb. apply lookup_alter_Some in Hb as [(-> & b0 & Hb0 & ->)|[_ Hb]].
    + by apply (H3 _ _ Hb0).
    + by apply (H3 _ _ Hb).
  - intros k e He. destruct (H4 k e He) as (Hk & Hr & Hn & Hb). split; [done|].
    split; [done|]. split; [done|].
    intros b Hb'. simpl in Hb'.
  apply lookup_alter_Some in Hb' as [(_ & b0 & Hb0 & ->)|[_ Hb']].
    + by apply Hb in Hb0.
    + by apply Hb.
Qed.

Lemma filter_none {A : Type} (f : A → bool) (l : list A) :
  (∀ x, x ∈ l → f x = false) → List.filter f l = [].
Proof.
  induction l as [|a l IH]; intros H; simpl; [reflexivity|].
  rewrite (H a) by apply list_elem_of_here.
  apply IH. intros x Hx. apply H. by apply list_elem_of_further.
Qed.

Lemma filter_all {A : Type} (f : A → bool) (l : list A) :
  (∀ x, x ∈ l → f x = true) → List.filter f l = l.
Proof.
  induction l as [|a l IH]; intros H; simpl; [reflexivity|].
  rewrite (H a) by apply list_elem_of_here.
  f_equal. apply IH. intros x Hx. apply H. by apply list_elem_of_further.
Qed.

Lemma filter_nil_elem {A : Type} (f : A → bool) (l : list A) (x : A) :
  List.filter f l = [] → x ∈ l → f x = false.
Proof.
  intros Hnil Hx. destruct (f x) eqn:Hf; [|reflexivity].
  assert (In x (List.filter f l)) as Hin.
  { apply filter_In. split; [by apply list_elem_of_In | done]. }
  rewrite Hnil in Hin. destruct Hin.
Qed.

Lemma rowsOf_after_delete (id id' : string) (l : list BooksChunk.row) :
  List.filter (λ r, bool_decide (BooksChunk.bookId r = id'))
    (List.filter (λ r, negb (bool_decide (BooksChunk.bookId r = id))) l)
  = if decide (id' = id) then []
    else List.filter (λ r, bool_decide (BooksChunk.bookId r = id')) l.
Proof.
  induction l as [|r l IH]; simpl.
  - by case_decide.
  - destruct (decide (BooksChunk.bookId r = id)) as [Hr|Hr].
    + rewrite (bool_decide_eq_true_2 _ Hr). simpl. rewrite IH.
      case_decide as Hid; [done|].
      rewrite bool_decide_eq_false_2; [done | congruence].
    + rewrite (bool_decide_eq_false_2 _ Hr). simpl. rewrite IH.
      case_decide as Hid; [|done].
      rewrite bool_decide_eq_false_2; [done | congruence].
Qed.

(** No row and no cache entry mentions an identifier the store has not
    assigned yet. *)
Lemma fresh_id_no_book (w : World) :
  consistent w → books w !! genId (idCounter w) = None.
Proof.
  intros Hc. destruct (books w !! genId (idCounter w)) as [b|] eqn:Hb; [|done].
  destruct (books_keyed _ _ Hc _ _ Hb) as (_ & n & Hn & Heq).
  apply genId_inj in Heq. lia.
Qed.

Lemma fresh_id_no_rows (w : World) :
  consistent w → rowsOf w (genId (idCounter w)) = [].
Proof.
  intros Hc. apply filter_none. intros r Hr.
  destruct (chunks_owned _ _ Hc r Hr) as (b & Hb & _).
  apply bool_decide_eq_false_2. intros Heq.
  rewrite Heq, fresh_id_no_book in Hb; done.
Qed.

Lemma consistent_book_insert
    (author : option string) (title : string) (tI : Z) (user : User.t) (w : World) :
  consistent w →
  consistent
    (set_idCounter (S (idCounter w))
       (set_books
          (insert (genId (idCounter w))
             (Book.mk (genId (idCounter w)) title author tI defaultLastIndex user)) w)).
Proof.
  intros Hc. pose proof (fresh_id_no_book w Hc) as Hfresh.
  pose proof (fresh_id_no_rows w Hc) as Hrows.
  destruct Hc as [H1 H2 H3 H4]. constructor; simpl.
  - intros i b [[<- <-]|[_ Hb]]%lookup_insert_Some.
    + split; [done|]. exists (idCounter w). split; [lia | done].
    + destruct (H1 i b Hb) as (? & n & ? & ?). split; [done|].
      exists n. split; [lia | done].
  - intros r Hr. destruct (H2 r Hr) as (b & Hb & Hrange).
    exists b. split; [|done]. rewrite lookup_insert_ne; [done|].
    intros Heq. by rewrite <- Heq, Hfresh in Hb.
  - intros i b [[<- <-]|[_ Hb]]%lookup_insert_Some.
    + left. exact Hrows.
    + by apply (H3 _ _ Hb).
  - intros k e He. destruct (H4 k e He) as (Hk & Hr & (n & Hn & Hid) & Hb).
    split; [done|]. split; [done|]. split.
    + exists n. split; [simpl; lia | done].
    + intros b Hb'. simpl in Hb'. apply Hb.
      rewrite lookup_insert_ne in Hb'; [done|].
      rewrite Hid. intros Heq. apply genId_inj in Heq. lia.
Qed.

Lemma consistent_chunk_insert (id : string) (b : Book.t) (cs : list Chunk) (w : World) :
  consistent w → books w !! id = Some b → rowsOf w id = [] →
  map chunkIndex cs = map Z.of_nat (seq 0 (length cs)) →
  Book.totalIndex b + 1 = Z.of_nat (length cs) →
  consistent
    (set_chunkRows
       (λ old, old ++ map (λ c, BooksChunk.mkRow id (chunkIndex c) (chunk c)) cs) w).
Proof.
  intros [H1 H2 H3 H4] Hb Hrows Hidx Hcount. constructor; simpl; try assumption.
  - intros r [Hr|Hr]%elem_of_app; [by apply H2|].
    apply list_elem_of_fmap in Hr as (c & -> & Hc). simpl.
    exists b. split; [done|].
    apply list_elem_of_lookup in Hc as [k Hk].
    assert (map chunkIndex cs !! k = Some (chunkIndex c)) as Hk'.
    { by rewrite list_lookup_fmap, Hk. }
    rewrite Hidx, list_lookup_fmap in Hk'.
    apply lookup_lt_Some in Hk as Hlt.
    rewrite lookup_seq_lt in Hk' by done. simpl in Hk'.
    injection Hk' as <-. lia.
  - intros i b' Hb'. unfold rowsOf. simpl. rewrite List.filter_app.
    destruct (decide (i = id)) as [->|Hne].
    + right. fold (rowsOf w id). rewrite Hrows. simpl.
      rewrite filter_all.
      * rewrite <- list_fmap_compose. simplify_eq.
        change (map chunkIndex cs
                = map Z.of_nat (seq 0 (Z.to_nat (Book.totalIndex b + 1)))).
        rewrite Hidx, Hcount. by rewrite Nat2Z.id.
      * intros r (c & -> & _)%list_elem_of_fmap. simpl.
        by apply bool_decide_eq_true_2.
    + rewrite (filter_none _ (map _ cs)).
      * rewrite app_nil_r. by apply (H3 _ _ Hb').
      * intros r (c & -> & _)%list_elem_of_fmap. simpl.
        by apply bool_decide_eq_false_2.
Qed.

Lemma consistent_chunk_delete (id : string) (w : World) :
  consistent w →
  consistent
    (set_chunkRows
       (List.filter (λ r, negb (bool_decide (BooksChunk.bookId r = id)))) w).
Proof.
  intros [H1 H2 H3 H4]. constructor; simpl; try assumption.
  - intros r Hr. apply H2. apply list_elem_of_In in Hr.
    apply filter_In in Hr as [Hr _]. by apply list_elem_of_In.
  - intros i b Hb. unfold rowsOf. simpl. rewrite rowsOf_after_delete.
    case_decide; [by left | by apply (H3 _ _ Hb)].
Qed.

Lemma rowsOf_chunk_delete (id : string) (w : World) :
  rowsOf
    (set_chunkRows
       (List.filter (λ r, negb (bool_decide (BooksChunk.bookId r = id)))) w) id = [].
Proof. unfold rowsOf. simpl. rewrite rowsOf_after_delete. by rewrite decide_True. Qed.

Lemma consistent_book_delete (id : string) (w : World) :
  consistent w → rowsOf w id = [] →
  consistent (set_books (delete id) w).
Proof.
  intros [H1 H2 H3 H4] Hrows. constructor; simpl.
  - intros i b [_ Hb]%lookup_delete_Some. by apply H1.
  - intros r Hr. destruct (H2 r Hr) as (b & Hb & Hrange).
    exists b. split; [|done]. rewrite lookup_delete_ne; [done|].
    intros Heq. pose proof (filter_nil_elem _ _ r Hrows Hr) as Hf.
    simpl in Hf. by rewrite bool_decide_eq_true_2 in Hf.
  - intros i b [_ Hb]%lookup_delete_Some. by apply (H3 _ _ Hb).
  - intros k e He. destruct (H4 k e He) as (Hk & Hr & Hn & Hb).
    split; [done|]. split; [done|]. split; [done|].
    intros b Hb'. simpl in Hb'. apply lookup_delete_Some in Hb' as [_ Hb'].
    by apply Hb.
Qed.

(** *** Reasoning rules for calls *)

Lemma ensures_ret {A : Type} (a : A) (w : World) (Q : Outcome A → World → Prop) :
  Q (Ok a) w → ensures (mret a) w Q.
Proof. done. Qed.

Lemma ensures_bind {A B : Type} (m : IO A) (f : A → IO B) (w : World)
    (Q : Outcome B → World → Prop) :
  ensures m w (λ r w', match r with
                       | Ok a => ensures (f a) w' Q
                       | Throw e => Q (Throw e) w'
                       end) →
  ensures (m ≫= f) w Q.
Proof.
  unfold ensures, mbind, IO_bind. by destruct (m w) as [[a|e] w'].
Qed.

Lemma ensures_await {A : Type} (op : Op) (run : World → A * World) (w : World)
    (Q : Outcome A → World → Prop) :
  (faults w op = true → Q (Throw (Rejected op)) (record op w)) →
  (faults w op = false → Q (Ok (run (record op w)).1) (run (record op w)).2) →
  ensures (await op run) w Q.
Proof.
  unfold ensures, await. intros Hrej Hrun.
  destruct (faults w op); [by apply Hrej|].
  specialize (Hrun eq_refl). by destruct (run (record op w)).
Qed.

Lemma ensures_no_await {A : Type} (m : IO A) (w : World)
    (Q : Outcome () → World → Prop) :
  ensures m w (λ _ w', Q (Ok ()) w') → ensures (no_await m) w Q.
Proof. done. Qed.

Lemma ensures_try_catch {A : Type} (body : IO A) (handler : Error → IO A) (w : World)
    (Q : Outcome A → World → Prop) :
  ensures body w (λ r w', match r with
                          | Ok a => Q (Ok a) w'
                          | Throw e => ensures (handler e) w' Q
                          end) →
  ensures (try_catch body handler) w Q.
Proof.
  unfold ensures, try_catch. by destruct (body w) as [[a|e] w'].
Qed.

(** *** What [findOne] returns *)

Lemma selectChunk_row (w : World) (id : string) (page : Z) (apiKey : string) (c : BooksChunk.t) :
  consistent w → selectChunk w id page apiKey = Some c →
  ∃ r, r ∈ chunkRows w
       ∧ BooksChunk.bookId r = id ∧ BooksChunk.rowIndex r = page
       ∧ BooksChunk.text c = BooksChunk.rowText r
       ∧ BooksChunk.index c = page
       ∧ books w !! id = Some (BooksChunk.book c)
       ∧ Book.id (BooksChunk.book c) = id
       ∧ User.apiKey (Book.user (BooksChunk.book c)) = apiKey.
Proof.
  intros Hc Hsel. unfold selectChunk in Hsel.
  apply find_some in Hsel as [Hin Hwhere].
  apply list_elem_of_In, list_elem_of_omap in Hin as (r & Hr & Hload).
  unfold loadChunk in Hload.
  destruct (books w !! BooksChunk.bookId r) as [b|] eqn:Hb; simplify_eq/=.
  unfold chunkWhere in Hwhere. simpl in Hwhere.
  apply andb_prop in Hwhere as [[Hid Hkey]%andb_prop Hidx].
  apply bool_decide_eq_true_1 in Hid, Hkey, Hidx.
  destruct (books_keyed _ _ Hc _ _ Hb) as [Hbid _].
  exists r. repeat split; try done; congruence.
Qed.

Lemma selectChunk_ok (w : World) (id : string) (page : Z) (apiKey : string) (c : BooksChunk.t) :
  consistent w → selectChunk w id page apiKey = Some c →
  chunkOk w c ∧ pageKey id page = pageKey (Book.id (BooksChunk.book c)) (BooksChunk.index c).
Proof.
  intros Hc Hsel.
  destruct (selectChunk_row _ _ _ _ _ Hc Hsel)
    as (r & Hr & Hrid & Hridx & _ & Hidx & Hb & Hbid & _).
  split; [|by rewrite Hbid, Hidx].
  destruct (chunks_owned _ _ Hc r Hr) as (b' & Hb' & Hrange).
  rewrite Hrid, Hb in Hb'. injection Hb' as <-.
  split; [lia|]. split.
  - destruct (books_keyed _ _ Hc _ _ Hb) as (_ & n & Hn & Hgen).
    exists n. by rewrite Hbid.
  - intros b0 Hb0. rewrite Hbid, Hb in Hb0. by injection Hb0 as <-.
Qed.

Lemma selectChunk_none_outside (w : World) (id : string) (b : Book.t) (page : Z) (apiKey : string) :
  consistent w → books w !! id = Some b →
  ¬ (0 ≤ page ≤ Book.totalIndex b) →
  selectChunk w id page apiKey = None.
Proof.
  intros Hc Hb Hout.
  destruct (selectChunk w id page apiKey) as [c|] eqn:Hsel; [|done].
  destruct (selectChunk_ok _ _ _ _ _ Hc Hsel) as [(Hrange & _ & _) _].
  destruct (selectChunk_row _ _ _ _ _ Hc Hsel) as (_ & _ & _ & _ & _ & Hidx & Hb' & _).
  rewrite Hb in Hb'. injection Hb' as ->. lia.
Qed.

Lemma chunkOk_update (id : string) (page : Z) (c : BooksChunk.t) (w : World) :
  chunkOk w c → chunkOk (set_books (alter (Book.with_lastIndex page) id) w) c.
Proof.
  intros (Hr & Hn & Hb). split; [done|]. split; [done|].
  intros b Hb'. simpl in Hb'.
  apply lookup_alter_Some in Hb' as [(_ & b0 & Hb0 & ->)|[_ Hb']].
  - by apply Hb in Hb0.
  - by apply Hb.
Qed.

(** *** Every method keeps the world consistent *)

Local Abbreviation keeps m w := (ensures m w (λ _ w', consistent w')).

Lemma keeps_ret {A : Type} (a : A) (w : World) : consistent w → keeps (mret a) w.
Proof. done. Qed.

Lemma keeps_bind {A B : Type} (m : IO A) (f : A → IO B) (w : World) :
  keeps m w → (∀ a w', consistent w' → keeps (f a) w') → keeps (m ≫= f) w.
Proof.
  unfold ensures, mbind, IO_bind. intros Hm Hf.
  destruct (m w) as [[a|e] w']; [by apply Hf | done].
Qed.

Lemma keeps_no_await {A : Type} (m : IO A) (w : World) : keeps m w → keeps (no_await m) w.
Proof. done. Qed.

Lemma keeps_try_catch {A : Type} (body : IO A) (handler : Error → IO A) (w : World) :
  keeps body w → (∀ e w', consistent w' → keeps (handler e) w') →
  keeps (try_catch body handler) w.
Proof.
  unfold ensures, try_catch. intros Hm Hh.
  destruct (body w) as [[a|e] w']; [done | by apply Hh].
Qed.

Lemma keeps_await {A : Type} (op : Op) (run : World → A * World) (w : World) :
  consistent w → (consistent (record op w) → consistent (run (record op w)).2) →
  keeps (await op run) w.
Proof.
  intros Hc Hrun. apply consistent_record with (op := op) in Hc.
  apply ensures_await; intros _; [done | by apply Hrun].
Qed.

Lemma keeps_cacheManager_get (key : string) (w : World) :
  consistent w → keeps (cacheManager_get key) w.
Proof. intros Hc. by apply keeps_await. Qed.

Lemma keeps_bookRepository_update (id : string) (page : Z) (w : World) :
  consistent w → keeps (bookRepository_update id page) w.
Proof. intros Hc. apply keeps_await; [done|]. apply consistent_update. Qed.

Lemma keeps_bookRepository_findOne (id apiKey : string) (w : World) :
  consistent w → keeps (bookRepository_findOne id apiKey) w.
Proof. intros Hc. by apply keeps_await. Qed.

(** What the store returns for a page can be cached under the key the
    page was asked for. *)
Lemma keeps_findOne_bind {B : Type} (id : string) (page : Z) (apiKey : string)
    (f : option BooksChunk.t → IO B) (w : World) :
  consistent w →
  (∀ o w', consistent w' →
     (∀ c, o = Some c →
        chunkOk w' c
        ∧ pageKey id page = pageKey (Book.id (BooksChunk.book c)) (BooksChunk.index c)) →
     keeps (f o) w') →
  keeps (bookChunkRepository_findOne id page apiKey ≫= f) w.
Proof.
  intros Hc Hf. apply ensures_bind, ensures_await; intros _.
  { by apply consistent_record. }
  cbn [fst snd].
  apply consistent_record with (op := ChunkFindOne id page apiKey) in Hc.
  apply Hf; [done|]. intros c Hsel. by apply selectChunk_ok with (apiKey := apiKey).
Qed.

Lemma keeps_cacheManager_set (key : string) (c : BooksChunk.t) (t : option Z) (w : World) :
  consistent w → chunkOk w c →
  key = pageKey (Book.id (BooksChunk.book c)) (BooksChunk.index c) →
  keeps (no_await (cacheManager_set key c t)) w.
Proof.
  intros Hc Hok Hkey. apply keeps_no_await, keeps_await; [done|].
  intros Hc'. cbn [snd]. by apply consistent_cache_insert.
Qed.

Lemma getPageByBookId_consistent
    (id : string) (page : Z) (apiKey : string) (save : bool) (w : World) :
  consistent w → consistent (getPageByBookId id page apiKey save w).2.
Proof.
  intros Hc.
  change (keeps (getPageByBookId id page apiKey save) w).
  unfold getPageByBookId, getChunk.
  apply keeps_bind; [by apply keeps_cacheManager_get|].
  clear w Hc. intros cached w Hc. apply keeps_bind.
  { destruct cached as [c|]; [by apply keeps_ret|].
    apply keeps_findOne_bind; [done|]. intros [c|] w' Hw' Hfound.
    - destruct (Hfound c eq_refl) as [Hok Hkey].
      apply keeps_bind; [by apply keeps_cacheManager_set|].
      intros _ w'' Hw''. by apply keeps_ret.
    - apply keeps_bind; [by apply keeps_ret|]. intros _ w'' Hw''. by apply keeps_ret. }
  clear w Hc. intros [c|] w Hc; [|by apply keeps_ret].
  apply keeps_bind.
  { case_match; [by apply keeps_bookRepository_update | by apply keeps_ret]. }
  clear w Hc. intros _ w Hc.
  apply keeps_bind; [by apply keeps_cacheManager_get|].
  clear w Hc. intros [n|] w Hc.
  - apply keeps_bind; [by apply keeps_ret|]. intros _ w' Hw'. by apply keeps_ret.
  - apply keeps_bind; [|intros _ w' Hw'; by apply keeps_ret].
    apply keeps_findOne_bind; [done|]. intros [n|] w' Hw' Hfound.
    + destruct (Hfound n eq_refl) as [Hok Hkey]. by apply keeps_cacheManager_set.
    + by apply keeps_ret.
Qed.

Lemma createBook_consistent (payload : CreateBookDto) (w : World) :
  consistent w → consistent (createBook genId defaultLastIndex payload w).2.
Proof.
  intros Hc.
  change (keeps (createBook genId defaultLastIndex payload) w).
  unfold createBook.
  destruct (decide (0 < User.chunkSize (dto_user payload))) as [Hpos|Hneg].
  2: { unfold splitEveryN. rewrite bool_decide_eq_true_2 by lia. done. }
  rewrite splitEveryN_ok by done. cbn [liftResult].
  apply ensures_bind, ensures_ret. cbn [chunks totalIndex].
  set (n := Z.to_nat (User.chunkSize (dto_user payload))).
  set (count := chunkCountOf (String.length (bookText payload)) n).
  apply ensures_bind, ensures_await; intros _; [by apply consistent_record|].
  cbn [fst snd].
  set (w1 := record (BookInsert (dto_title payload)) w).
  assert (consistent w1) as Hc1 by by apply consistent_record.
  pose proof (fresh_id_no_rows w1 Hc1) as Hrows.
  apply (consistent_book_insert (dto_author payload) (dto_title payload)
           (Z.of_nat count - 1) (dto_user payload)) in Hc1.
  set (w2 := set_idCounter _ _) in *.
  apply keeps_bind; [|intros _ w' Hw'; by apply keeps_ret].
  apply keeps_await; [done|]. intros Hc2. cbn [snd]. unfold chunksToInsert.
  eapply consistent_chunk_insert; [done| | | |].
  - apply lookup_insert_eq.
  - exact Hrows.
  - rewrite <- list_fmap_compose, length_map, length_seq. reflexivity.
  - rewrite length_map, length_seq. simpl. lia.
Qed.

Lemma getBookById_consistent (id apiKey : string) (w : World) :
  consistent w → consistent (getBookById appUrl id apiKey w).2.
Proof.
  intros Hc. change (keeps (getBookById appUrl id apiKey) w). unfold getBookById.
  apply keeps_bind; [by apply keeps_bookRepository_findOne|].
  intros [b|] w' Hw'; by apply keeps_ret.
Qed.

Lemma selectBook_Some (w : World) (id apiKey : string) (b : Book.t) :
  consistent w → selectBook w id apiKey = Some b →
  books w !! id = Some b ∧ Book.id b = id ∧ User.apiKey (Book.user b) = apiKey.
Proof.
  intros Hc Hsel. unfold selectBook in Hsel.
  destruct (books w !! id) as [b'|] eqn:Hb; simplify_eq/=.
  case_bool_decide; simplify_eq.
  destruct (books_keyed _ _ Hc _ _ Hb) as [Hid _]. done.
Qed.

Lemma deleteBookById_consistent (id apiKey : string) (w : World) :
  consistent w → consistent (deleteBookById id apiKey w).2.
Proof.
  intros Hc. change (keeps (deleteBookById id apiKey) w). unfold deleteBookById.
  apply ensures_bind, ensures_await; intros _; [by apply consistent_record|].
  cbn [fst snd].
  apply consistent_record with (op := BookFindOne id apiKey) in Hc.
  destruct (selectBook _ id apiKey) as [b|] eqn:Hsel; [|by apply keeps_ret].
  destruct (selectBook_Some _ _ _ _ Hc Hsel) as (_ & -> & _).
  apply keeps_try_catch; [|intros e w' Hw'; by apply keeps_ret].
  apply ensures_bind, ensures_await; intros _; [by apply consistent_record|].
  cbn [fst snd].
  apply consistent_record with (op := ChunkDelete id) in Hc.
  apply (consistent_chunk_delete id) in Hc.
  apply keeps_bind; [|intros _ w' Hw'; by apply keeps_ret].
  apply keeps_await; [done|]. intros Hc'. cbn [snd].
  apply consistent_book_delete; [done|]. apply rowsOf_chunk_delete.
Qed.

Lemma step_consistent (w w' : World) :
  step genId defaultLastIndex appUrl w w' → consistent w → consistent w'.
Proof.
  intros [] Hc.
  - by apply createBook_consistent.
  - by apply getPageByBookId_consistent.
  - by apply getBookById_consistent.
  - by apply deleteBookById_consistent.
  - by apply consistent_set_faults.
  - by apply consistent_expire.
Qed.

Lemma reachable_consistent (w : World) :
  reachable genId defaultLastIndex appUrl w → consistent w.
Proof.
  unfold reachable. intros Hr.
  eapply (rtc_ind_r (λ w', consistent w')); [| |exact Hr].
  - apply consistent_empty.
  - intros y z _ Hstep Hy. by eapply step_consistent.
Qed.

End Consistency.

(** ** Reading pages *)

Section Pages.

Variable genId : nat → string.
Variable defaultLastIndex : Z.
Variable appUrl : string.
Hypothesis genId_inj : ∀ n m, genId n = genId m → n = m.

Local Abbreviation reachable := (reachable genId defaultLastIndex appUrl).
Local Abbreviation consistent := (consistent genId).

(** A document whose chunk rows are present has as many of them as its
    row records: [totalIndex + 1]. *)
Lemma rowsOf_count (w : World) (id : string) (b : Book.t) :
  consistent w → books w !! id = Some b → rowsOf w id ≠ [] →
  Z.of_nat (length (rowsOf w id)) = Book.totalIndex b + 1.
Proof.
  intros Hc Hb Hrows.
  destruct (chunks_complete _ _ Hc _ _ Hb) as [Hnil|Hidx]; [done|].
  apply (f_equal length) in Hidx. rewrite !length_map, length_seq in Hidx.
  destruct (rowsOf w id) as [|r rows]; [done|]. simpl in *. lia.
Qed.

(** The cache holds no entry for a page outside the range of a stored
    document. *)
Lemma cache_none_outside (w : World) (id : string) (b : Book.t) (page : Z) :
  consistent w → books w !! id = Some b →
  ¬ (0 ≤ page ≤ Book.totalIndex b) →
  cache w !! pageKey id page = None.
Proof.
  intros Hc Hb Hout.
  destruct (cache w !! pageKey id page) as [e|] eqn:He; [|done].
  destruct (cache_keyed _ _ Hc _ _ He) as (Hkey & Hrange & _ & Hsame).
  apply pageKey_inj in Hkey as [Hid Hpage].
  rewrite <- Hid in Hsame. specialize (Hsame _ Hb). lia.
Qed.

Lemma ensures_bind_post {A B : Type} (m : IO A) (f : A → IO B) (w : World)
    (P : Outcome A → World → Prop) (Q : Outcome B → World → Prop) :
  ensures m w P →
  (∀ r w', P r w' → match r with
                    | Ok a => ensures (f a) w' Q
                    | Throw e => Q (Throw e) w'
                    end) →
  ensures (m ≫= f) w Q.
Proof. intros Hm Hf. apply ensures_bind. unfold ensures in *. by apply Hf. Qed.

Lemma pageKey_next_ne (id : string) (page : Z) : pageKey id page ≠ pageKey id (page + 1).
Proof. intros [_ H]%pageKey_inj. lia. Qed.

Lemma getPageByBookId_found
    (w : World) (id : string) (page : Z) (apiKey : string) (save : bool) (c : BooksChunk.t) :
  faults w (CacheGet (pageKey id page)) = false →
  (cache w !! pageKey id page = None → faults w (ChunkFindOne id page apiKey) = false) →
  resolved w id page apiKey = Some c →
  (getPageByBookId id page apiKey save w).1 = pageOutcome w id page apiKey save c.
Proof.
  intros Hget Hfind Hres. unfold resolved in Hres.
  change (ensures (getPageByBookId id page apiKey save) w
            (λ r _, r = pageOutcome w id page apiKey save c)).
  unfold getPageByBookId, getChunk.
  apply ensures_bind, ensures_await; [congruence | intros _].
  cbn [fst snd cache record].
  apply ensures_bind_post with
    (P := λ r w', r = Ok (Some c) ∧ faults w' = faults w
                  ∧ cache w' !! pageKey id (page + 1) = cache w !! pageKey id (page + 1)).
  { destruct (cache w !! pageKey id page) as [e|] eqn:Hcache.
    - simplify_eq/=. by apply ensures_ret.
    - cbn [fmap option_fmap option_map]. specialize (Hfind eq_refl).
      apply ensures_bind, ensures_await; [cbn [faults record]; congruence | intros _].
      cbn [fst snd].
      change (selectChunk (record _ (record _ w)) id page apiKey)
        with (selectChunk w id page apiKey).
      rewrite Hres. apply ensures_bind, ensures_no_await, ensures_await; intros _.
      + by apply ensures_ret.
      + apply ensures_ret. split; [done|]. split; [done|].
        cbn. apply lookup_insert_ne, pageKey_next_ne. }
  intros r w' (-> & Hfaults & Hnext). unfold pageOutcome, updatesProgress.
  rewrite <- Hfaults, <- Hnext. clear.
  apply ensures_bind.
  destruct (negb (bool_decide (page = Book.lastIndex (BooksChunk.book c))) && save).
  - apply ensures_await; [by intros -> | intros ->]. cbn [andb fst snd].
    apply ensures_bind, ensures_await; [by cbn; intros -> | cbn; intros ->].
    apply ensures_bind.
    destruct (cache w' !! pageKey id (page + 1)) as [e|]; cbn.
    + by apply ensures_ret.
    + apply ensures_bind, ensures_await; [by cbn; intros -> | cbn; intros ->].
      case_match; [by apply ensures_no_await, ensures_await | by apply ensures_ret].
  - apply ensures_ret. cbn [andb].
    apply ensures_bind, ensures_await; [by cbn; intros -> | cbn; intros ->].
    apply ensures_bind.
    destruct (cache w' !! pageKey id (page + 1)) as [e|]; cbn.
    + by apply ensures_ret.
    + apply ensures_bind, ensures_await; [by cbn; intros -> | cbn; intros ->].
      case_match; [by apply ensures_no_await, ensures_await | by apply ensures_ret].
Qed.

Lemma getPageByBookId_missing
    (w : World) (id : string) (page : Z) (apiKey : string) (save : bool) :
  faults w (CacheGet (pageKey id page)) = false →
  faults w (ChunkFindOne id page apiKey) = false →
  resolved w id page apiKey = None →
  (getPageByBookId id page apiKey save w).1 = Ok None.
Proof.
  intros Hget Hfind Hres. unfold resolved in Hres.
  change (ensures (getPageByBookId id page apiKey save) w (λ r _, r = Ok None)).
  unfold getPageByBookId.
  apply ensures_bind, ensures_await; [congruence | intros _].
  cbn [fst snd cache record].
  destruct (cache w !! pageKey id page) as [e|] eqn:Hcache; [done|].
  cbn [fmap option_fmap option_map].
  apply ensures_bind, ensures_bind, ensures_await;
    [cbn [faults record]; congruence | intros _].
  cbn [fst snd].
  change (selectChunk (record _ (record _ w)) id page apiKey)
    with (selectChunk w id page apiKey).
  rewrite Hres. done.
Qed.

(** Writing the reader's progress does not change which chunks the
    store finds. *)
Lemma loadChunk_update (w : World) (id0 : string) (p0 : Z) (r : BooksChunk.row) :
  loadChunk (set_books (alter (Book.with_lastIndex p0) id0) w) r
  = (λ c, if decide (id0 = BooksChunk.bookId r)
          then BooksChunk.mk (BooksChunk.text c) (BooksChunk.index c)
                 (Book.with_lastIndex p0 (BooksChunk.book c))
          else c) <$> loadChunk w r.
Proof.
  unfold loadChunk. cbn [books set_books].
  destruct (decide (id0 = BooksChunk.bookId r)) as [->|Hne].
  - rewrite lookup_alter_eq. by destruct (books w !! BooksChunk.bookId r).
  - rewrite lookup_alter_ne by done. by destruct (books w !! BooksChunk.bookId r).
Qed.

Lemma selectChunk_update_None (w : World) (id0 : string) (p0 : Z)
    (id : string) (page : Z) (apiKey : string) :
  selectChunk (set_books (alter (Book.with_lastIndex p0) id0) w) id page apiKey = None
  ↔ selectChunk w id page apiKey = None.
Proof.
  unfold selectChunk. cbn [chunkRows set_books].
  induction (chunkRows w) as [|r rows IH]; [done|].
  cbn [omap list_omap]. rewrite loadChunk_update.
  destruct (loadChunk w r) as [c|]; cbn [fmap option_fmap option_map]; [|exact IH].
  cbn [find].
  assert (chunkWhere id page apiKey
            (if decide (id0 = BooksChunk.bookId r)
             then BooksChunk.mk (BooksChunk.text c) (BooksChunk.index c)
                    (Book.with_lastIndex p0 (BooksChunk.book c))
             else c)
          = chunkWhere id page apiKey c) as -> by by case_decide.
  destruct (chunkWhere id page apiKey c); [done | exact IH].
Qed.

Local Ltac log_done :=
  cbn; try apply ensures_ret; cbn [log record set_cache set_books];
  rewrite <- ?app_assoc; reflexivity.

Lemma getPageByBookId_calls
    (w : World) (id : string) (page : Z) (apiKey : string) (save : bool) (c : BooksChunk.t) :
  faults w (CacheGet (pageKey id page)) = false →
  (cache w !! pageKey id page = None → faults w (ChunkFindOne id page apiKey) = false) →
  resolved w id page apiKey = Some c →
  issued (getPageByBookId id page apiKey save) w = pageCalls w id page apiKey save c.
Proof.
  intros Hget Hfind Hres. unfold resolved in Hres.
  enough (ensures (getPageByBookId id page apiKey save) w
            (λ _ w', log w' = log w ++ pageCalls w id page apiKey save c)) as Hlog.
  { unfold issued. unfold ensures in Hlog. rewrite Hlog. by rewrite drop_app_length. }
  unfold getPageByBookId, getChunk.
  apply ensures_bind, ensures_await; [congruence | intros _].
  cbn [fst snd cache record].
  apply ensures_bind_post with
    (P := λ r w', r = Ok (Some c) ∧ faults w' = faults w
                  ∧ cache w' !! pageKey id (page + 1) = cache w !! pageKey id (page + 1)
                  ∧ books w' = books w ∧ chunkRows w' = chunkRows w
                  ∧ log w' = log w ++ [CacheGet (pageKey id page)]
                       ++ match cache w !! pageKey id page with
                          | Some _ => []
                          | None => [ChunkFindOne id page apiKey;
                                     CacheSet (pageKey id page) (Some 3600)]
                          end).
  { destruct (cache w !! pageKey id page) as [e|] eqn:Hcache.
    - simplify_eq/=. by apply ensures_ret.
    - cbn [fmap option_fmap option_map]. specialize (Hfind eq_refl).
      apply ensures_bind, ensures_await; [cbn [faults record]; congruence | intros _].
      cbn [fst snd].
      change (selectChunk (record _ (record _ w)) id page apiKey)
        with (selectChunk w id page apiKey).
      rewrite Hres. apply ensures_bind, ensures_no_await, ensures_await; intros _.
      + apply ensures_ret. cbn. by rewrite <- !app_assoc.
      + apply ensures_ret. cbn. rewrite <- !app_assoc.
        repeat split; try done. apply lookup_insert_ne, pageKey_next_ne. }
  intros r w' (-> & Hfaults & Hnext & Hbooks & Hrows & Hlog).
  unfold pageCalls. rewrite <- Hfaults, <- Hnext.
  assert (∀ w'', books w'' = books w' → chunkRows w'' = chunkRows w' →
                 selectChunk w id (page + 1) apiKey = selectChunk w'' id (page + 1) apiKey)
    as Hsame.
  { intros w'' Hb Hr. unfold selectChunk, loadChunk. by rewrite Hb, Hr, Hbooks, Hrows. }
  rewrite app_assoc, app_assoc, <- (app_assoc (log w)), <- Hlog.
  clear Hlog Hfaults Hnext Hbooks Hrows Hres Hget Hfind.
  apply ensures_bind. fold (updatesProgress page save c).
  destruct (updatesProgress page save c).
  - apply ensures_await; [intros ->; cbn; log_done | intros ->].
    cbn [andb fst snd].
    apply ensures_bind, ensures_await; [cbn; intros ->; log_done | cbn; intros ->].
    apply ensures_bind.
    destruct (cache w' !! pageKey id (page + 1)) as [e|]; cbn.
    + apply ensures_ret. cbn. log_done.
    + apply ensures_bind, ensures_await;
        [cbn; intros ->; log_done | cbn; intros ->].
      pose proof (selectChunk_update_None w' id page id (page + 1) apiKey) as Hupd.
      rewrite (Hsame w') by done.
      change (find (chunkWhere id (page + 1) apiKey) (omap (loadChunk _) (chunkRows w')))
        with (selectChunk (set_books (alter (Book.with_lastIndex page) id) w')
                id (page + 1) apiKey).
      destruct (selectChunk (set_books _ w') id (page + 1) apiKey) as [n|] eqn:Hsel.
      * destruct (selectChunk w' id (page + 1) apiKey) as [n'|] eqn:Hsel';
          [|by destruct Hupd as [_ Hupd]; specialize (Hupd eq_refl)].
        apply ensures_no_await, ensures_await; intros _; log_done.
      * destruct Hupd as [Hupd _]. rewrite (Hupd eq_refl).
        apply ensures_ret. log_done.
  - apply ensures_ret. cbn [andb app].
    apply ensures_bind, ensures_await; [cbn; intros ->; log_done | cbn; intros ->].
    apply ensures_bind.
    destruct (cache w' !! pageKey id (page + 1)) as [e|]; cbn.
    + apply ensures_ret. cbn. log_done.
    + apply ensures_bind, ensures_await;
        [cbn; intros ->; log_done | cbn; intros ->].
      rewrite (Hsame w') by done.
      change (find (chunkWhere id (page + 1) apiKey) (omap (loadChunk _) (chunkRows w')))
        with (selectChunk w' id (page + 1) apiKey).
      destruct (selectChunk w' id (page + 1) apiKey) as [n|].
      * apply ensures_no_await, ensures_await; intros _; cbn; log_done.
      * apply ensures_ret. cbn. log_done.
Qed.

(** *** Ingestion, step by step *)

Lemma createBook_run (payload : CreateBookDto) (w : World) :
  let size := User.chunkSize (dto_user payload) in
  let cs := map (chunkAt (bookText payload) (Z.to_nat size))
                (seq 0 (chunkCountOf (String.length (bookText payload)) (Z.to_nat size))) in
  let w2 := afterBookInsert genId defaultLastIndex payload (Z.of_nat (length cs)) w in
  let id := genId (idCounter w) in
  0 < size →
  createBook genId defaultLastIndex payload w
  = if faults w (BookInsert (dto_title payload))
    then (Throw (Rejected (BookInsert (dto_title payload))),
          record (BookInsert (dto_title payload)) w)
    else if faults w (ChunkInsert (chunksToInsert id cs))
    then (Throw (Rejected (ChunkInsert (chunksToInsert id cs))),
          record (ChunkInsert (chunksToInsert id cs)) w2)
    else (Ok id,
          set_chunkRows (λ old, old ++ chunksToInsert id cs)
            (record (ChunkInsert (chunksToInsert id cs)) w2)).
Proof.
  intros size cs w2 id Hsize. unfold createBook.
  rewrite splitEveryN_ok by done. fold size. fold cs.
  assert (length cs = chunkCountOf (String.length (bookText payload)) (Z.to_nat size))
    as Hlen by (subst cs; by rewrite length_map, length_seq).
  subst w2. rewrite Hlen.
  unfold mbind, IO_bind, liftResult, mret, IO_ret, bookRepository_insert,
    bookChunkRepository_insert, await.
  cbn [chunks totalIndex].
  destruct (faults w (BookInsert (dto_title payload))); [reflexivity|].
  cbn [faults record set_books set_idCounter]. fold id.
  destruct (faults w (ChunkInsert _)); reflexivity.
Qed.

Lemma rowsOf_fresh_insert (w : World) (cs : list Chunk) :
  consistent w →
  List.filter (λ r, bool_decide (BooksChunk.bookId r = genId (idCounter w)))
    (chunkRows w ++ chunksToInsert (genId (idCounter w)) cs)
  = chunksToInsert (genId (idCounter w)) cs.
Proof.
  intros Hc. rewrite List.filter_app.
  pose proof (fresh_id_no_rows _ genId_inj w Hc) as Hnil. unfold rowsOf in Hnil.
  rewrite Hnil. simpl. apply filter_all.
  intros r (c & -> & _)%list_elem_of_fmap. by apply bool_decide_eq_true_2.
Qed.

Lemma cache_none_fresh (w : World) (page : Z) :
  consistent w → cache w !! pageKey (genId (idCounter w)) page = None.
Proof.
  intros Hc.
  destruct (cache w !! pageKey (genId (idCounter w)) page) as [e|] eqn:He; [|done].
  destruct (cache_keyed _ _ Hc _ _ He) as (Hkey & _ & (n & Hn & Hid) & _).
  apply pageKey_inj in Hkey as [Hkey _]. rewrite Hid in Hkey.
  apply genId_inj in Hkey. lia.
Qed.

(** [createBook] is the splitter followed by [ingest]. *)
Lemma createBook_ingest (payload : CreateBookDto) (split : SplitResult) (w : World) :
  splitEveryN (bookText payload) (User.chunkSize (dto_user payload)) = inr split →
  createBook genId defaultLastIndex payload w = ingest genId defaultLastIndex split payload w.
Proof. clear genId_inj. intros Hsplit. unfold createBook, ingest. by rewrite Hsplit. Qed.

Lemma ingest_run (split : SplitResult) (payload : CreateBookDto) (w : World) :
  let w2 := afterBookInsert genId defaultLastIndex payload (totalIndex split) w in
  let id := genId (idCounter w) in
  let rows := chunksToInsert id (chunks split) in
  ingest genId defaultLastIndex split payload w
  = if faults w (BookInsert (dto_title payload))
    then (Throw (Rejected (BookInsert (dto_title payload))),
          record (BookInsert (dto_title payload)) w)
    else if faults w (ChunkInsert rows)
    then (Throw (Rejected (ChunkInsert rows)), record (ChunkInsert rows) w2)
    else (Ok id, set_chunkRows (λ old, old ++ rows) (record (ChunkInsert rows) w2)).
Proof.
  clear genId_inj. cbv zeta.
  unfold ingest, mbind, IO_bind, mret, IO_ret, bookRepository_insert,
    bookChunkRepository_insert, await.
  destruct (faults w (BookInsert (dto_title payload))); [reflexivity|].
  cbn [faults record set_books set_idCounter].
  destruct (faults w (ChunkInsert _)); reflexivity.
Qed.

(** X22. What a reader sees of an upload, for whatever the splitter
    gives.  When [createBook] has stored, without a rejection, a result
    of the splitter whose chunks are numbered from 0 in order, reading
    page [i] of the new document with the owner's key returns the text of
    chunk [i], the title, the identifier and the page index -- and a
    [totalPage] of the splitter's [totalIndex] minus one: the document
    row stores [totalIndex - 1], and the page view reports the stored
    value. *)
Theorem getPageByBookId_after_ingest
    (w : World) (payload : CreateBookDto) (split : SplitResult) :
  reachable w →
  (∀ op, faults w op = false) →
  (∀ (j : nat) (c : Chunk), chunks split !! j = Some c → chunkIndex c = Z.of_nat j) →
  ∃ id w1,
    ingest genId defaultLastIndex split payload w = (Ok id, w1)
    ∧ (splitEveryN (bookText payload) (User.chunkSize (dto_user payload)) = inr split →
       createBook genId defaultLastIndex payload w = (Ok id, w1))
    ∧ ∀ (i : nat) (c : Chunk) (save : bool),
        chunks split !! i = Some c →
        (getPageByBookId id (Z.of_nat i) (User.apiKey (dto_user payload)) save w1).1
        = Ok (Some (mkGetChunkDto (chunk c) (dto_title payload) id (Z.of_nat i)
                      (totalIndex split - 1)
                      (User.languageCode (dto_user payload)))).
Proof.
  intros Hr Hfaults Hnumbered.
  apply (reachable_consistent _ _ _ genId_inj) in Hr.
  pose proof (ingest_run split payload w) as Hrun. cbv zeta in Hrun.
  rewrite !Hfaults in Hrun.
  set (id := genId (idCounter w)) in *.
  set (w1 := set_chunkRows _ _) in *.
  exists id, w1. split; [exact Hrun|].
  split. { intros Hsplit. by rewrite (createBook_ingest payload split w Hsplit). }
  intros i c save Hi.
  set (apiKey := User.apiKey (dto_user payload)).
  set (row := insertedBook defaultLastIndex id payload (totalIndex split)).
  assert (books w1 = <[id := row]> (books w)) as Hbooks by reflexivity.
  assert (chunkRows w1 = chunkRows w ++ chunksToInsert id (chunks split)) as Hrows
    by reflexivity.
  assert (books w1 !! id = Some row) as Hlook by (cbn; apply lookup_insert_eq).
  assert (books w !! id = None) as Hfresh by exact (fresh_id_no_book _ genId_inj w Hr).
  assert (cache w1 !! pageKey id (Z.of_nat i) = None) as Hcache
    by (cbn; by apply cache_none_fresh).
  (* the store holds the row of chunk [i] *)
  assert (∃ c', selectChunk w1 id (Z.of_nat i) apiKey = Some c') as [c' Hsel].
  { destruct (selectChunk w1 id (Z.of_nat i) apiKey) as [c'|] eqn:Hsel; [by eexists|].
    exfalso. unfold selectChunk in Hsel.
    pose proof (find_none _ _ Hsel (BooksChunk.mk (chunk c) (chunkIndex c) row)) as Hno.
    cbv beta in Hno. unfold chunkWhere in Hno. cbn in Hno.
    rewrite (Hnumbered i c Hi) in Hno.
    rewrite !bool_decide_eq_true_2 in Hno by done.
    enough (true = false) by done. apply Hno.
    apply list_elem_of_In, list_elem_of_omap.
    exists (BooksChunk.mkRow id (Z.of_nat i) (chunk c)). split.
    - cbn. apply elem_of_app. right. apply list_elem_of_fmap.
      exists c. split; [by rewrite (Hnumbered i c Hi)|]. by eapply list_elem_of_lookup_2.
    - unfold loadChunk. cbn [BooksChunk.bookId]. rewrite Hlook. done. }
  (* and what it holds there is chunk [i] with the new document row *)
  assert (BooksChunk.text c' = chunk c ∧ BooksChunk.book c' = row) as [Htext Hbook].
  { unfold selectChunk in Hsel. apply find_some in Hsel as [Hin Hwhere].
    apply list_elem_of_In, list_elem_of_omap in Hin as (r & Hrin & Hload).
    unfold loadChunk in Hload. rewrite Hbooks in Hload.
    unfold chunkWhere in Hwhere.
    apply andb_prop in Hwhere as [[Hid _]%andb_prop Hidx].
    apply bool_decide_eq_true_1 in Hid, Hidx.
    rewrite Hrows in Hrin. apply elem_of_app in Hrin as [Hold|Hnew].
    - exfalso. destruct (chunks_owned _ _ Hr r Hold) as (b & Hb & _).
      destruct (books_keyed _ _ Hr _ _ Hb) as [Hbid _].
      assert (BooksChunk.bookId r ≠ id) as Hne by (intros Heq; congruence).
      rewrite lookup_insert_ne, Hb in Hload by done.
      cbn in Hload. injection Hload as <-. cbn in Hid. congruence.
    - apply list_elem_of_fmap in Hnew as (c0 & -> & Hc0).
      cbn [BooksChunk.bookId] in Hload. rewrite lookup_insert_eq in Hload.
      cbn in Hload. injection Hload as <-. cbn in Hidx |- *.
      apply list_elem_of_lookup_1 in Hc0 as [j Hj].
      pose proof (Hnumbered j c0 Hj) as Hcj. rewrite Hidx in Hcj.
      apply Nat2Z.inj in Hcj. subst j. rewrite Hi in Hj. injection Hj as <-. done. }
  rewrite (getPageByBookId_found w1 id (Z.of_nat i) apiKey save c');
    [|exact (Hfaults _) | intros _; exact (Hfaults _) | unfold resolved; by rewrite Hcache].
  unfold pageOutcome. change (faults w1) with (faults w). rewrite !Hfaults.
  rewrite andb_false_r.
  assert (Ok (Some (pageView (Z.of_nat i) c'))
          = Ok (Some (mkGetChunkDto (chunk c) (dto_title payload) id (Z.of_nat i)
                      (totalIndex split - 1)
                      (User.languageCode (dto_user payload))))) as ->.
  { unfold pageView. rewrite Htext, Hbook. reflexivity. }
  by case_match.
Qed.

(** C5 (as the code has it). When a page read has found the requested
    chunk [c] and its progress update, if any, is not rejected, the
    read-ahead is awaited inside the call and its failures are the call's
    failures: a rejected cache read of page [i+1] rejects the call, and so
    does a rejected fetch of page [i+1] from the store on a cache miss.
    Otherwise the page view is returned -- also when the cache write of
    the read-ahead entry, the one call whose promise is dropped, is
    rejected. *)
Theorem getPageByBookId_prefetch_failures
    (w : World) (id : string) (page : Z) (apiKey : string) (save : bool) (c : BooksChunk.t) :
  faults w (CacheGet (pageKey id page)) = false →
  (cache w !! pageKey id page = None → faults w (ChunkFindOne id page apiKey) = false) →
  resolved w id page apiKey = Some c →
  (updatesProgress page save c = true → faults w (BookUpdate id page) = false) →
  let outcome := (getPageByBookId id page apiKey save w).1 in
  let nextKey := pageKey id (page + 1) in
  (faults w (CacheGet nextKey) = true → outcome = Throw (Rejected (CacheGet nextKey)))
  ∧ (faults w (CacheGet nextKey) = false → cache w !! nextKey = None →
     faults w (ChunkFindOne id (page + 1) apiKey) = true →
     outcome = Throw (Rejected (ChunkFindOne id (page + 1) apiKey)))
  ∧ (faults w (CacheGet nextKey) = false →
     (cache w !! nextKey = None → faults w (ChunkFindOne id (page + 1) apiKey) = false) →
     outcome = Ok (Some (pageView page c))).
Proof.
  intros Hget Hfind Hres Hupd outcome nextKey. subst outcome nextKey.
  rewrite (getPageByBookId_found w id page apiKey save c) by done.
  unfold pageOutcome.
  assert (updatesProgress page save c && faults w (BookUpdate id page) = false) as ->.
  { destruct (updatesProgress page save c); [by rewrite Hupd | done]. }
  repeat split.
  - by intros ->.
  - by intros -> -> ->.
  - intros -> Hnext.
    destruct (cache w !! pageKey id (page + 1)) as [e|]; [done|]. by rewrite Hnext.
Qed.

(** C6 (as the code has it). On a page read that finds the chunk in the
    store (a cache miss): when [saveCurrentPage] is true and the page
    differs from the stored [lastIndex], the update of [lastIndex] is
    issued within the call, and its rejection rejects the call -- no
    page view is returned.  When [saveCurrentPage] is false, or the chunk
    is found in the store and the page equals the stored [lastIndex],
    the call issues no update. *)
Theorem getPageByBookId_progress_update
    (w : World) (id : string) (page : Z) (apiKey : string) (save : bool)
    (b : Book.t) (c : BooksChunk.t) :
  reachable w →
  books w !! id = Some b →
  faults w (CacheGet (pageKey id page)) = false →
  (cache w !! pageKey id page = None → faults w (ChunkFindOne id page apiKey) = false) →
  resolved w id page apiKey = Some c →
  let calls := issued (getPageByBookId id page apiKey save) w in
  let outcome := (getPageByBookId id page apiKey save w).1 in
  (cache w !! pageKey id page = None → save = true → page ≠ Book.lastIndex b →
     BookUpdate id page ∈ calls
     ∧ (faults w (BookUpdate id page) = true →
        outcome = Throw (Rejected (BookUpdate id page))))
  ∧ (save = false ∨ (cache w !! pageKey id page = None ∧ page = Book.lastIndex b) →
     ∀ op, op ∈ calls → isBookUpdate op = false).
Proof.
  intros Hr Hb Hget Hfind Hres calls outcome. subst calls outcome.
  apply (reachable_consistent _ _ _ genId_inj) in Hr.
  assert (cache w !! pageKey id page = None → BooksChunk.book c = b) as Hbc.
  { intros Hcache. unfold resolved in Hres. rewrite Hcache in Hres.
    destruct (selectChunk_row _ _ _ _ _ _ Hr Hres) as (_ & _ & _ & _ & _ & _ & Hb' & _).
    rewrite Hb in Hb'. by injection Hb'. }
  rewrite (getPageByBookId_calls w id page apiKey save c) by done.
  rewrite (getPageByBookId_found w id page apiKey save c) by done.
  unfold pageCalls, pageOutcome, updatesProgress. split.
  - intros Hcache -> Hne. rewrite (Hbc Hcache), Hcache.
    rewrite bool_decide_eq_false_2 by done. cbn [negb andb]. split.
    + set_solver.
    + by intros ->.
  - intros Hno.
    assert (negb (bool_decide (page = Book.lastIndex (BooksChunk.book c))) && save = false)
      as ->.
    { destruct Hno as [->|[Hcache ->]]; [by rewrite andb_false_r|].
      by rewrite (Hbc Hcache), bool_decide_eq_true_2. }
    cbn [andb app]. apply Forall_forall.
    repeat case_match; repeat constructor.
Qed.

(** C9. On a page read that misses the cache and finds the page in the
    store, the entry of the requested page is written with the explicit
    TTL 3600, and the only other cache write the call can issue is the
    one of the read-ahead entry of page [i+1], with no TTL argument; that
    second write is issued whenever the call gets as far as finding page
    [i+1] in the store. *)
Theorem getPageByBookId_cache_ttls
    (w : World) (id : string) (page : Z) (apiKey : string) (save : bool) (c : BooksChunk.t) :
  faults w (CacheGet (pageKey id page)) = false →
  cache w !! pageKey id page = None →
  faults w (ChunkFindOne id page apiKey) = false →
  selectChunk w id page apiKey = Some c →
  let writes := List.filter isCacheSet (issued (getPageByBookId id page apiKey save) w) in
  let nextKey := pageKey id (page + 1) in
  (writes = [CacheSet (pageKey id page) (Some 3600)]
   ∨ writes = [CacheSet (pageKey id page) (Some 3600); CacheSet nextKey None])
  ∧ ((updatesProgress page save c = true → faults w (BookUpdate id page) = false) →
     faults w (CacheGet nextKey) = false →
     cache w !! nextKey = None →
     faults w (ChunkFindOne id (page + 1) apiKey) = false →
     is_Some (selectChunk w id (page + 1) apiKey) →
     writes = [CacheSet (pageKey id page) (Some 3600); CacheSet nextKey None]).
Proof.
  intros Hget Hcache Hfind Hsel writes nextKey. subst writes nextKey.
  assert (resolved w id page apiKey = Some c) as Hres.
  { unfold resolved. by rewrite Hcache. }
  rewrite (getPageByBookId_calls w id page apiKey save c) by done.
  unfold pageCalls. rewrite Hcache. split.
  - repeat case_match; cbn; auto.
  - intros Hupd -> -> -> [n ->].
    destruct (updatesProgress page save c); [rewrite Hupd by done|]; reflexivity.
Qed.

(** C8. In every state the service can reach, for a stored document
    [D] with [chunkCount] chunk rows, any page index outside
    [0, chunkCount - 1] -- in particular [chunkCount] and [-1] -- is
    answered by not-found ([null]), for every key and whatever
    [saveCurrentPage] is, provided the two reads the call makes are not
    rejected by the environment. *)
Theorem getPageByBookId_out_of_range
    (w : World) (D : string) (b : Book.t) (apiKey : string) (save : bool) (page : Z) :
  reachable w →
  books w !! D = Some b →
  rowsOf w D ≠ [] →
  ¬ (0 ≤ page ≤ Z.of_nat (length (rowsOf w D)) - 1) →
  faults w (CacheGet (pageKey D page)) = false →
  faults w (ChunkFindOne D page apiKey) = false →
  (getPageByBookId D page apiKey save w).1 = Ok None.
Proof.
  intros Hr Hb Hrows Hout Hget Hfind.
  apply (reachable_consistent _ _ _ genId_inj) in Hr.
  rewrite (rowsOf_count w D b) in Hout by done.
  assert (¬ (0 ≤ page ≤ Book.totalIndex b)) as Hout' by lia.
  pose proof (cache_none_outside w D b page Hr Hb Hout') as Hcache.
  assert (selectChunk w D page apiKey = None) as Hsel
    by (eapply selectChunk_none_outside; eauto).
  apply getPageByBookId_missing; [done..|].
  unfold resolved. by rewrite Hcache.
Qed.

(** ** Deletion *)

Lemma deleteBookById_run (id apiKey : string) (w : World) :
  deleteBookById id apiKey w
  = if faults w (BookFindOne id apiKey)
    then (Throw (Rejected (BookFindOne id apiKey)), record (BookFindOne id apiKey) w)
    else
      let w1 := record (BookFindOne id apiKey) w in
      match selectBook w id apiKey with
      | None => (Ok (None, false), w1)
      | Some b =>
          if faults w (ChunkDelete id)
          then (Ok (Some b, false), record (ChunkDelete id) w1)
          else
            let w2 :=
              set_chunkRows
                (List.filter (λ r, negb (bool_decide (BooksChunk.bookId r = id))))
                (record (ChunkDelete id) w1) in
            if faults w (BookDelete (Book.id b))
            then (Ok (Some b, false), record (BookDelete (Book.id b)) w2)
            else (Ok (Some b, true),
                  set_books (delete (Book.id b)) (record (BookDelete (Book.id b)) w2))
      end.
Proof.
  unfold deleteBookById, bookRepository_findOne, bookChunkRepository_delete,
    bookRepository_delete, try_catch, mbind, IO_bind, mret, IO_ret, await.
  destruct (faults w (BookFindOne id apiKey)); [reflexivity|].
  change (selectBook (record _ w) id apiKey) with (selectBook w id apiKey).
  destruct (selectBook w id apiKey) as [b|]; [|reflexivity].
  cbn [faults record set_chunkRows].
  destruct (faults w (ChunkDelete id)); [reflexivity|].
  cbn [faults record set_chunkRows].
  destruct (faults w (BookDelete (Book.id b))); reflexivity.
Qed.

(** C3 (as the code has it). A successful [deleteBookById] removes the
    document row and all its chunk rows and leaves the cache as it was:
    no cache entry is removed.  Afterwards a page read of the deleted
    document returns not-found for every key and every page whose cache
    entry is absent (never written, or expired), provided its two reads
    are not rejected; a page whose entry is still in the cache is read
    from that entry, for every key. *)
Theorem deleteBookById_then_getPageByBookId
    (w w1 : World) (id ownerKey : string) (b : Book.t) :
  reachable w →
  deleteBookById id ownerKey w = (Ok (Some b, true), w1) →
  cache w1 = cache w
  ∧ books w1 !! id = None
  ∧ rowsOf w1 id = []
  ∧ (∀ (page : Z) (apiKey : string) (save : bool),
       cache w1 !! pageKey id page = None →
       faults w1 (CacheGet (pageKey id page)) = false →
       faults w1 (ChunkFindOne id page apiKey) = false →
       (getPageByBookId id page apiKey save w1).1 = Ok None)
  ∧ (∀ (page : Z) (apiKey : string) (save : bool) (e : CacheEntry),
       cache w !! pageKey id page = Some e →
       faults w1 (CacheGet (pageKey id page)) = false →
       (getPageByBookId id page apiKey save w1).1
       = pageOutcome w1 id page apiKey save (value e)).
Proof.
  intros Hr Hdel.
  apply (reachable_consistent _ _ _ genId_inj) in Hr.
  pose proof (deleteBookById_consistent _ id ownerKey w Hr) as Hc1.
  rewrite Hdel in Hc1. cbn [snd] in Hc1.
  rewrite deleteBookById_run in Hdel.
  destruct (faults w (BookFindOne id ownerKey)); [done|]. cbv zeta in Hdel.
  destruct (selectBook w id ownerKey) as [b'|] eqn:Hsel; [|done].
  destruct (selectBook_Some _ _ _ _ _ Hr Hsel) as (_ & Hid & _).
  destruct (faults w (ChunkDelete id)); [done|].
  destruct (faults w (BookDelete (Book.id b'))); [done|].
  injection Hdel as -> <-. rewrite Hid in *.
  assert (books
            (set_books (delete id)
               (record (BookDelete id)
                  (set_chunkRows
                     (List.filter (λ r, negb (bool_decide (BooksChunk.bookId r = id))))
                     (record (ChunkDelete id) (record (BookFindOne id ownerKey) w)))))
          !! id = None) as Hgone by (cbn; apply lookup_delete_eq).
  split; [done|]. split; [done|]. split.
  { unfold rowsOf. cbn. rewrite rowsOf_after_delete. by rewrite decide_True. }
  split.
  - intros page apiKey save Hcache Hget Hfind.
    apply getPageByBookId_missing; [done..|].
    unfold resolved. rewrite Hcache.
    destruct (selectChunk _ id page apiKey) as [c|] eqn:Hc; [|done].
    destruct (selectChunk_row _ _ _ _ _ _ Hc1 Hc) as (_ & _ & _ & _ & _ & _ & Hb & _).
    by rewrite Hgone in Hb.
  - intros page apiKey save e He Hget.
    apply getPageByBookId_found; [done| |].
    + cbn [cache set_books record set_chunkRows]. by rewrite He.
    + unfold resolved. cbn [cache set_books record set_chunkRows]. by rewrite He.
Qed.

(** ** Ingestion is two inserts *)

(** C4 (as the code has it). [createBook] writes the document row and
    then the chunk rows by two separate calls on the store, outside any
    transaction.  When neither is rejected, the row and every chunk are
    persisted; when the first is rejected, nothing is persisted; when the
    second is rejected, the call fails and the document row stays in the
    store with none of its chunks. *)
Theorem createBook_two_inserts (w : World) (payload : CreateBookDto) :
  let size := User.chunkSize (dto_user payload) in
  let cs := map (chunkAt (bookText payload) (Z.to_nat size))
                (seq 0 (chunkCountOf (String.length (bookText payload)) (Z.to_nat size))) in
  let id := genId (idCounter w) in
  let row := insertedBook defaultLastIndex id payload (Z.of_nat (length cs)) in
  let rows := chunksToInsert id cs in
  let result := createBook genId defaultLastIndex payload w in
  0 < size →
  (faults w (BookInsert (dto_title payload)) = true →
     result.1 = Throw (Rejected (BookInsert (dto_title payload)))
     ∧ books result.2 = books w ∧ chunkRows result.2 = chunkRows w)
  ∧ (faults w (BookInsert (dto_title payload)) = false →
     faults w (ChunkInsert rows) = true →
     result.1 = Throw (Rejected (ChunkInsert rows))
     ∧ books result.2 = <[id := row]> (books w) ∧ chunkRows result.2 = chunkRows w)
  ∧ (faults w (BookInsert (dto_title payload)) = false →
     faults w (ChunkInsert rows) = false →
     result.1 = Ok id
     ∧ books result.2 = <[id := row]> (books w)
     ∧ chunkRows result.2 = chunkRows w ++ rows).
Proof.
  intros size cs id row rows result Hsize. subst result.
  rewrite createBook_run by done. fold size. fold cs. fold id. fold rows.
  split; [|split].
  - by intros ->.
  - by intros -> ->.
  - by intros -> ->.
Qed.

(** ** The percentage of the listing *)




End Pages.

(** * The properties on the sample upload *)

Section Sample.

Lemma sampleGenId_inj (n m : nat) : sampleGenId n = sampleGenId m → n = m.
Proof. unfold sampleGenId. intros H. injection H as H. by apply (inj pretty). Qed.

Local Abbreviation sampleReachable := (reachable sampleGenId 0 sampleAppUrl).

Lemma uploaded_reachable : sampleReachable uploaded.
Proof. apply rtc_once. exact (step_createBook sampleGenId 0 sampleAppUrl samplePayload emptyWorld). Qed.

Lemma cachedByOwner_reachable : sampleReachable cachedByOwner.
Proof.
  eapply rtc_r; [apply uploaded_reachable|].
  exact (step_getPageByBookId sampleGenId 0 sampleAppUrl "b0" 0 "KEY-A" true uploaded).
Qed.

Example uploaded_rows :
  map BooksChunk.rowText (rowsOf uploaded "b0") = ["ABC"; "DEF"; "GHI"; "J"].
Proof. vm_compute. reflexivity. Qed.

Example cachedByOwner_cache :
  (BooksChunk.text ∘ value <$> cache cachedByOwner !! pageKey "b0" 0,
   BooksChunk.text ∘ value <$> cache cachedByOwner !! pageKey "b0" 1,
   ttl <$> cache cachedByOwner !! pageKey "b0" 0,
   ttl <$> cache cachedByOwner !! pageKey "b0" 1)
  = (Some "ABC", Some "DEF", Some (Some 3600), Some None).
Proof. vm_compute. reflexivity. Qed.

Lemma getPageByBookId_after_ingest_witness :
  sampleReachable emptyWorld
  ∧ (∀ op, faults emptyWorld op = false)
  ∧ (∀ (j : nat) (c : Chunk), chunks sampleSplit !! j = Some c → chunkIndex c = Z.of_nat j)
  ∧ ∃ id w1,
      ingest sampleGenId 0 sampleSplit samplePayload emptyWorld = (Ok id, w1)
      ∧ (getPageByBookId id 2 "KEY-A" true w1).1
        = Ok (Some (mkGetChunkDto "GHI" "abc.txt" id 2 4 "en")).
Proof.
  assert (sampleReachable emptyWorld) as Hr by apply rtc_refl.
  assert (∀ op, faults emptyWorld op = false) as Hf by reflexivity.
  assert (∀ (j : nat) (c : Chunk),
            chunks sampleSplit !! j = Some c → chunkIndex c = Z.of_nat j) as Hn.
  { intros [|[|[|[|j]]]] c [= <-]; reflexivity. }
  split; [exact Hr|]. split; [exact Hf|]. split; [exact Hn|].
  destruct (getPageByBookId_after_ingest sampleGenId 0 sampleAppUrl sampleGenId_inj
              emptyWorld samplePayload sampleSplit Hr Hf Hn) as (id & w1 & Hrun & _ & Hpage).
  exists id, w1. split; [exact Hrun|].
  exact (Hpage 2%nat (mkChunk "GHI" 2) true eq_refl).
Defined.

(** C2, evaluated: once the owner has read page 0, a caller with another
    key, for whom the store finds nothing, is served that page from the
    cache. *)
Theorem getPageByBookId_cache_hit_skips_owner_check :
  User.apiKey (Book.user sampleBook) ≠ User.apiKey mallory
  ∧ selectChunk cachedByOwner "b0" 0 (User.apiKey mallory) = None
  ∧ (getPageByBookId "b0" 0 (User.apiKey mallory) true uploaded).1 = Ok None
  ∧ (getPageByBookId "b0" 0 (User.apiKey mallory) true cachedByOwner).1
    = Ok (Some (mkGetChunkDto "ABC" "abc.txt" "b0" 0 3 "en")).
Proof. repeat split; vm_compute; (reflexivity || discriminate). Qed.

(** C3, refuted as stated: the owner reads page 0, deletes the document,
    and reads page 0 again: the page is still served, from the cache. *)
Lemma deleteBookById_stale_cache_counterexample :
  deleteBookById "b0" "KEY-A" cachedByOwner = (Ok (Some sampleBook, true), afterDelete)
  ∧ books afterDelete !! "b0" = None
  ∧ (getPageByBookId "b0" 0 "KEY-A" true afterDelete).1
    = Ok (Some (mkGetChunkDto "ABC" "abc.txt" "b0" 0 3 "en"))
  ∧ (getPageByBookId "b0" 0 "KEY-A" true afterDelete).1 ≠ Ok None.
Proof. repeat split; vm_compute; (reflexivity || discriminate). Qed.

Lemma deleteBookById_then_getPageByBookId_witness :
  sampleReachable cachedByOwner
  ∧ deleteBookById "b0" "KEY-A" cachedByOwner = (Ok (Some sampleBook, true), afterDelete)
  ∧ cache afterDelete = cache cachedByOwner
  ∧ books afterDelete !! "b0" = None
  ∧ rowsOf afterDelete "b0" = []
  ∧ (∀ (page : Z) (apiKey : string) (save : bool),
       cache afterDelete !! pageKey "b0" page = None →
       faults afterDelete (CacheGet (pageKey "b0" page)) = false →
       faults afterDelete (ChunkFindOne "b0" page apiKey) = false →
       (getPageByBookId "b0" page apiKey save afterDelete).1 = Ok None)
  ∧ (∀ (page : Z) (apiKey : string) (save : bool) (e : CacheEntry),
       cache cachedByOwner !! pageKey "b0" page = Some e →
       faults afterDelete (CacheGet (pageKey "b0" page)) = false →
       (getPageByBookId "b0" page apiKey save afterDelete).1
       = pageOutcome afterDelete "b0" page apiKey save (value e)).
Proof.
  assert (deleteBookById "b0" "KEY-A" cachedByOwner = (Ok (Some sampleBook, true), afterDelete))
    as Hdel by (vm_compute; reflexivity).
  split; [exact cachedByOwner_reachable|]. split; [exact Hdel|].
  exact (deleteBookById_then_getPageByBookId sampleGenId 0 sampleAppUrl sampleGenId_inj
           cachedByOwner afterDelete "b0" "KEY-A" sampleBook cachedByOwner_reachable Hdel).
Defined.

(** C4, refuted as stated: when the store rejects the bulk insert of the
    chunks, [createBook] fails and leaves the document row behind with
    no chunk; a reader gets the document from [getBookById]. *)
Lemma createBook_partial_counterexample :
  let w' := (createBook sampleGenId 0 samplePayload (rejecting isChunkInsert emptyWorld)).2 in
  (∃ rows, (createBook sampleGenId 0 samplePayload (rejecting isChunkInsert emptyWorld)).1
           = Throw (Rejected (ChunkInsert rows)))
  ∧ books w' !! "b0" = Some sampleBook
  ∧ rowsOf w' "b0" = []
  ∧ ∃ dto, (getBookById sampleAppUrl "b0" "KEY-A" w').1 = Ok (Some dto).
Proof.
  cbv zeta. split; [eexists; vm_compute; reflexivity|].
  split; [vm_compute; reflexivity|]. split; [vm_compute; reflexivity|].
  eexists. vm_compute. reflexivity.
Qed.

Lemma createBook_two_inserts_witness :
  0 < User.chunkSize (dto_user samplePayload)
  ∧ (createBook sampleGenId 0 samplePayload emptyWorld).1 = Ok "b0"
  ∧ map BooksChunk.rowText (chunkRows (createBook sampleGenId 0 samplePayload emptyWorld).2)
    = ["ABC"; "DEF"; "GHI"; "J"].
Proof.
  assert (0 < User.chunkSize (dto_user samplePayload)) as Hs by (simpl; lia).
  split; [exact Hs|].
  destruct (createBook_two_inserts sampleGenId 0 emptyWorld samplePayload Hs)
    as (_ & _ & Hok).
  destruct (Hok eq_refl eq_refl) as (Hid & _ & Hrows).
  split; [exact Hid|]. rewrite Hrows. reflexivity.
Defined.

(** C5, refuted as stated: the store rejects the fetch of page 1 while
    page 0 is being read; page 0 is found, and the call is rejected. *)
Lemma getPageByBookId_prefetch_counterexample :
  resolved (rejecting isNextFetch uploaded) "b0" 0 "KEY-A" = Some samplePage0
  ∧ (getPageByBookId "b0" 0 "KEY-A" true (rejecting isNextFetch uploaded)).1
    = Throw (Rejected (ChunkFindOne "b0" 1 "KEY-A"))
  ∧ (getPageByBookId "b0" 0 "KEY-A" true (rejecting isNextFetch uploaded)).1
    ≠ Ok (Some (pageView 0 samplePage0)).
Proof. repeat split; vm_compute; (reflexivity || discriminate). Qed.

Lemma getPageByBookId_prefetch_failures_witness :
  faults uploaded (CacheGet (pageKey "b0" 0)) = false
  ∧ (cache uploaded !! pageKey "b0" 0 = None →
     faults uploaded (ChunkFindOne "b0" 0 "KEY-A") = false)
  ∧ resolved uploaded "b0" 0 "KEY-A" = Some samplePage0
  ∧ (updatesProgress 0 true samplePage0 = true → faults uploaded (BookUpdate "b0" 0) = false)
  ∧ (getPageByBookId "b0" 0 "KEY-A" true uploaded).1 = Ok (Some (pageView 0 samplePage0)).
Proof.
  assert (resolved uploaded "b0" 0 "KEY-A" = Some samplePage0) as Hres
    by (vm_compute; reflexivity).
  split; [reflexivity|]. split; [reflexivity|]. split; [exact Hres|].
  split; [reflexivity|].
  apply (getPageByBookId_prefetch_failures uploaded "b0" 0 "KEY-A" true samplePage0);
    (exact Hres || reflexivity).
Defined.

(** C6, refuted as stated: the store rejects the update of [lastIndex]
    while page 1 is being read with [saveCurrentPage]; the chunk is
    found, the stored [lastIndex] is 0, and the call is rejected. *)
Lemma getPageByBookId_update_counterexample :
  selectChunk (rejecting isBookUpdate uploaded) "b0" 1 "KEY-A" = Some samplePage1
  ∧ Book.lastIndex sampleBook ≠ 1
  ∧ (getPageByBookId "b0" 1 "KEY-A" true (rejecting isBookUpdate uploaded)).1
    = Throw (Rejected (BookUpdate "b0" 1))
  ∧ (getPageByBookId "b0" 1 "KEY-A" true (rejecting isBookUpdate uploaded)).1
    ≠ Ok (Some (pageView 1 samplePage1)).
Proof. repeat split; vm_compute; (reflexivity || discriminate). Qed.

Lemma getPageByBookId_progress_update_witness :
  sampleReachable uploaded
  ∧ books uploaded !! "b0" = Some sampleBook
  ∧ faults uploaded (CacheGet (pageKey "b0" 1)) = false
  ∧ (cache uploaded !! pageKey "b0" 1 = None →
     faults uploaded (ChunkFindOne "b0" 1 "KEY-A") = false)
  ∧ resolved uploaded "b0" 1 "KEY-A" = Some samplePage1
  ∧ BookUpdate "b0" 1 ∈ issued (getPageByBookId "b0" 1 "KEY-A" true) uploaded
  ∧ ∀ op, op ∈ issued (getPageByBookId "b0" 1 "KEY-A" false) uploaded →
          isBookUpdate op = false.
Proof.
  assert (books uploaded !! "b0" = Some sampleBook) as Hb by (vm_compute; reflexivity).
  assert (cache uploaded !! pageKey "b0" 1 = None) as Hc by (vm_compute; reflexivity).
  assert (resolved uploaded "b0" 1 "KEY-A" = Some samplePage1) as Hs
    by (vm_compute; reflexivity).
  split; [exact uploaded_reachable|]. split; [exact Hb|]. split; [reflexivity|].
  split; [reflexivity|]. split; [exact Hs|]. split.
  - destruct (getPageByBookId_progress_update sampleGenId 0 sampleAppUrl sampleGenId_inj
                uploaded "b0" 1 "KEY-A" true sampleBook samplePage1
                uploaded_reachable Hb eq_refl (λ _, eq_refl) Hs) as [Hyes _].
    apply Hyes; [exact Hc | reflexivity |]. simpl. lia.
  - destruct (getPageByBookId_progress_update sampleGenId 0 sampleAppUrl sampleGenId_inj
                uploaded "b0" 1 "KEY-A" false sampleBook samplePage1
                uploaded_reachable Hb eq_refl (λ _, eq_refl) Hs) as [_ Hno].
    apply Hno. by left.
Defined.

Lemma getPageByBookId_out_of_range_witness :
  sampleReachable uploaded
  ∧ books uploaded !! "b0" = Some sampleBook
  ∧ rowsOf uploaded "b0" ≠ []
  ∧ ¬ (0 ≤ 4 ≤ Z.of_nat (length (rowsOf uploaded "b0")) - 1)
  ∧ ¬ (0 ≤ -1 ≤ Z.of_nat (length (rowsOf uploaded "b0")) - 1)
  ∧ faults uploaded (CacheGet (pageKey "b0" 4)) = false
  ∧ faults uploaded (ChunkFindOne "b0" 4 "KEY-A") = false
  ∧ (getPageByBookId "b0" 4 "KEY-A" true uploaded).1 = Ok None
  ∧ (getPageByBookId "b0" (-1) "KEY-A" true uploaded).1 = Ok None.
Proof.
  assert (books uploaded !! "b0" = Some sampleBook) as Hb by (vm_compute; reflexivity).
  assert (rowsOf uploaded "b0" ≠ []) as Hrows by (vm_compute; discriminate).
  assert (¬ (0 ≤ 4 ≤ Z.of_nat (length (rowsOf uploaded "b0")) - 1)) as Hout.
  { change (length (rowsOf uploaded "b0")) with 4%nat. lia. }
  assert (¬ (0 ≤ -1 ≤ Z.of_nat (length (rowsOf uploaded "b0")) - 1)) as Hneg by lia.
  split; [exact uploaded_reachable|]. split; [exact Hb|]. split; [exact Hrows|].
  split; [exact Hout|]. split; [exact Hneg|].
  split; [reflexivity|]. split; [reflexivity|]. split.
  - exact (getPageByBookId_out_of_range sampleGenId 0 sampleAppUrl sampleGenId_inj
             uploaded "b0" sampleBook "KEY-A" true 4
             uploaded_reachable Hb Hrows Hout eq_refl eq_refl).
  - exact (getPageByBookId_out_of_range sampleGenId 0 sampleAppUrl sampleGenId_inj
             uploaded "b0" sampleBook "KEY-A" true (-1)
             uploaded_reachable Hb Hrows Hneg eq_refl eq_refl).
Defined.

Lemma getPageByBookId_cache_ttls_witness :
  faults uploaded (CacheGet (pageKey "b0" 0)) = false
  ∧ cache uploaded !! pageKey "b0" 0 = None
  ∧ faults uploaded (ChunkFindOne "b0" 0 "KEY-A") = false
  ∧ selectChunk uploaded "b0" 0 "KEY-A" = Some samplePage0
  ∧ List.filter isCacheSet (issued (getPageByBookId "b0" 0 "KEY-A" true) uploaded)
    = [CacheSet (pageKey "b0" 0) (Some 3600); CacheSet (pageKey "b0" (0 + 1)) None].
Proof.
  assert (cache uploaded !! pageKey "b0" 0 = None) as Hc by (vm_compute; reflexivity).
  assert (selectChunk uploaded "b0" 0 "KEY-A" = Some samplePage0) as Hs
    by (vm_compute; reflexivity).
  split; [reflexivity|]. split; [exact Hc|]. split; [reflexivity|]. split; [exact Hs|].
  destruct (getPageByBookId_cache_ttls uploaded "b0" 0 "KEY-A" true samplePage0
              eq_refl Hc eq_refl Hs) as [_ Hboth].
  apply Hboth; try reflexivity.
  exists samplePage1. vm_compute. reflexivity.
Defined.


End Sample.

(** * Further properties of the service *)

(** ** What a page read leaves behind *)

Section PageEffects.

Lemma selectChunk_same_tables (w1 w2 : World) (id : string) (page : Z) (apiKey : string) :
  books w1 = books w2 → chunkRows w1 = chunkRows w2 →
  selectChunk w1 id page apiKey = selectChunk w2 id page apiKey.
Proof. intros Hb Hr. unfold selectChunk, loadChunk. by rewrite Hb, Hr. Qed.

Lemma getPageByBookId_world
    (w : World) (id : string) (page : Z) (apiKey : string) (save : bool) (c : BooksChunk.t) :
  faults w (CacheGet (pageKey id page)) = false →
  (cache w !! pageKey id page = None → faults w (ChunkFindOne id page apiKey) = false) →
  resolved w id page apiKey = Some c →
  let w' := (getPageByBookId id page apiKey save w).2 in
  books w' = pageBooks w id page save c
  ∧ cache w' = pageCache w id page apiKey save c
  ∧ chunkRows w' = chunkRows w
  ∧ idCounter w' = idCounter w
  ∧ faults w' = faults w.
Proof.
  intros Hget Hfind Hres. unfold resolved in Hres. cbv zeta.
  change (ensures (getPageByBookId id page apiKey save) w
            (λ _ w', books w' = pageBooks w id page save c
                     ∧ cache w' = pageCache w id page apiKey save c
                     ∧ chunkRows w' = chunkRows w
                     ∧ idCounter w' = idCounter w
                     ∧ faults w' = faults w)).
  unfold getPageByBookId, getChunk.
  apply ensures_bind, ensures_await; [congruence | intros _].
  cbn [fst snd cache record].
  apply ensures_bind_post with
    (P := λ r w', r = Ok (Some c) ∧ faults w' = faults w
                  ∧ books w' = books w ∧ chunkRows w' = chunkRows w
                  ∧ idCounter w' = idCounter w
                  ∧ cache w' = pageCacheFirst w id page c).
  { unfold pageCacheFirst.
    destruct (cache w !! pageKey id page) as [e|] eqn:Hcache.
    - simplify_eq/=. by apply ensures_ret.
    - cbn [fmap option_fmap option_map]. specialize (Hfind eq_refl).
      apply ensures_bind, ensures_await; [cbn [faults record]; congruence | intros _].
      cbn [fst snd].
      change (selectChunk (record _ (record _ w)) id page apiKey)
        with (selectChunk w id page apiKey).
      rewrite Hres. apply ensures_bind, ensures_no_await, ensures_await.
      + cbn. intros ->. by apply ensures_ret.
      + cbn. intros ->. by apply ensures_ret. }
  intros r [bs rows ch n fs lg] (-> & Hfaults & Hbooks & Hrows & Hn & Hcache).
  cbn in Hfaults, Hbooks, Hrows, Hn, Hcache. subst fs bs rows n.
  assert (cache w !! pageKey id (page + 1) = ch !! pageKey id (page + 1)) as Hnext.
  { rewrite Hcache. unfold pageCacheFirst.
    destruct (cache w !! pageKey id page); [done|].
    destruct (faults w (CacheSet (pageKey id page) (Some 3600))); [done|].
    symmetry. apply lookup_insert_ne, pageKey_next_ne. }
  unfold pageCache, pageBooks. rewrite <- Hcache, Hnext. clear Hcache Hnext Hres Hget Hfind.
  apply ensures_bind.
  destruct (updatesProgress page save c) eqn:Hupd;
    unfold updatesProgress in Hupd; rewrite Hupd.
  - apply ensures_await; cbn [faults]; [by intros -> | intros ->].
    cbn [andb negb fst snd].
    apply ensures_bind, ensures_await; [by cbn; intros -> | cbn; intros ->].
    apply ensures_bind.
    destruct (ch !! pageKey id (page + 1)) as [e|]; cbn.
    + by apply ensures_ret.
    + apply ensures_bind, ensures_await; [by cbn; intros -> | cbn; intros ->].
      change (find (chunkWhere id (page + 1) apiKey) (omap (loadChunk _) (chunkRows w)))
        with (selectChunk
                (set_books (λ _, alter (Book.with_lastIndex page) id (books w)) w)
                id (page + 1) apiKey).
      destruct (selectChunk _ id (page + 1) apiKey) as [n|].
      * apply ensures_no_await, ensures_await; cbn; intros ->; by apply ensures_ret.
      * by apply ensures_ret.
  - apply ensures_ret. cbn [andb].
    apply ensures_bind, ensures_await; [by cbn; intros -> | cbn; intros ->].
    apply ensures_bind.
    destruct (ch !! pageKey id (page + 1)) as [e|]; cbn.
    + by apply ensures_ret.
    + apply ensures_bind, ensures_await; [by cbn; intros -> | cbn; intros ->].
      change (find (chunkWhere id (page + 1) apiKey) (omap (loadChunk _) (chunkRows w)))
        with (selectChunk (set_books (λ _, books w) w) id (page + 1) apiKey).
      destruct (selectChunk _ id (page + 1) apiKey) as [n|].
      * apply ensures_no_await, ensures_await; cbn; intros ->; by apply ensures_ret.
      * by apply ensures_ret.
Qed.

(** A page read that is rejected before it has a chunk, or finds none,
    leaves the store and the cache as they were. *)
Lemma getPageByBookId_world_early
    (w : World) (id : string) (page : Z) (apiKey : string) (save : bool) :
  faults w (CacheGet (pageKey id page)) = true
  ∨ (cache w !! pageKey id page = None ∧ faults w (ChunkFindOne id page apiKey) = true)
  ∨ resolved w id page apiKey = None →
  let w' := (getPageByBookId id page apiKey save w).2 in
  books w' = books w ∧ cache w' = cache w ∧ chunkRows w' = chunkRows w
  ∧ idCounter w' = idCounter w ∧ faults w' = faults w.
Proof.
  intros Hearly. cbv zeta.
  change (ensures (getPageByBookId id page apiKey save) w
            (λ _ w', books w' = books w ∧ cache w' = cache w ∧ chunkRows w' = chunkRows w
                     ∧ idCounter w' = idCounter w ∧ faults w' = faults w)).
  unfold getPageByBookId.
  apply ensures_bind, ensures_await; [done | intros Hget].
  cbn [fst snd cache record]. unfold resolved in Hearly.
  destruct (cache w !! pageKey id page) as [e|] eqn:Hcache.
  { destruct Hearly as [?|[[? _]|?]]; congruence. }
  cbn [fmap option_fmap option_map].
  apply ensures_bind, ensures_bind, ensures_await; [done | cbn [faults record]; intros Hfind].
  cbn [fst snd].
  change (selectChunk (record _ (record _ w)) id page apiKey)
    with (selectChunk w id page apiKey).
  destruct Hearly as [?|[[_ ?]|Hnone]]; [congruence..|].
  rewrite Hnone. done.
Qed.

(** Every page read is of one of the two kinds. *)
Lemma getPageByBookId_kinds (w : World) (id : string) (page : Z) (apiKey : string) :
  (faults w (CacheGet (pageKey id page)) = true
   ∨ (cache w !! pageKey id page = None ∧ faults w (ChunkFindOne id page apiKey) = true)
   ∨ resolved w id page apiKey = None)
  ∨ (faults w (CacheGet (pageKey id page)) = false
     ∧ (cache w !! pageKey id page = None → faults w (ChunkFindOne id page apiKey) = false)
     ∧ ∃ c, resolved w id page apiKey = Some c).
Proof.
  destruct (faults w (CacheGet (pageKey id page))) eqn:Hget; [by left; left|].
  destruct (resolved w id page apiKey) as [c|] eqn:Hres; [|by left; right; right].
  destruct (cache w !! pageKey id page) as [e|] eqn:Hcache.
  - right. split; [done|]. split; [done|]. by exists c.
  - destruct (faults w (ChunkFindOne id page apiKey)) eqn:Hfind.
    + left. right. by left.
    + right. split; [done|]. split; [done|]. by exists c.
Qed.

Lemma getPageByBookId_effects
    (w : World) (id : string) (page : Z) (apiKey : string) (save : bool) :
  let w' := (getPageByBookId id page apiKey save w).2 in
  chunkRows w' = chunkRows w
  ∧ idCounter w' = idCounter w
  ∧ faults w' = faults w
  ∧ (∀ id', id' ≠ id → books w' !! id' = books w !! id')
  ∧ (books w' !! id = books w !! id
     ∨ books w' !! id = Book.with_lastIndex page <$> books w !! id)
  ∧ (save = false → books w' = books w)
  ∧ (∀ key e, cache w !! key = Some e → cache w' !! key = Some e)
  ∧ (∀ key, key ≠ pageKey id page → key ≠ pageKey id (page + 1) →
            cache w' !! key = cache w !! key).
Proof.
  cbv zeta.
  destruct (getPageByBookId_kinds w id page apiKey) as [Hearly|(Hget & Hfind & c & Hres)].
  { destruct (getPageByBookId_world_early w id page apiKey save Hearly)
      as (Hb & Hc & Hr & Hn & Hf).
    rewrite Hb, Hc, Hr, Hn, Hf. repeat split; auto. }
  destruct (getPageByBookId_world w id page apiKey save c Hget Hfind Hres)
    as (Hb & Hc & Hr & Hn & Hf).
  rewrite Hb, Hc, Hr, Hn, Hf. clear Hb Hc Hr Hn Hf.
  split; [done|]. split; [done|]. split; [done|].
  assert (∀ key e, cache w !! key = Some e →
                   pageCacheFirst w id page c !! key = Some e) as Hfirst.
  { intros key e He. unfold pageCacheFirst.
    destruct (cache w !! pageKey id page) as [e0|] eqn:Hkey; [done|].
    destruct (faults w (CacheSet (pageKey id page) (Some 3600))); [done|].
    rewrite lookup_insert_ne; [done|]. intros <-. congruence. }
  assert (∀ key, key ≠ pageKey id page →
                 pageCacheFirst w id page c !! key = cache w !! key) as Hother.
  { intros key Hne. unfold pageCacheFirst.
    destruct (cache w !! pageKey id page) as [e0|]; [done|].
    destruct (faults w (CacheSet (pageKey id page) (Some 3600))); [done|].
    by rewrite lookup_insert_ne. }
  repeat split.
  - intros id' Hne. unfold pageBooks. case_match; [|done]. by rewrite lookup_alter_ne.
  - unfold pageBooks. case_match; [|by left]. right. apply lookup_alter_eq.
  - intros ->. unfold pageBooks, updatesProgress. by rewrite andb_false_r.
  - intros key e He. unfold pageCache. cbv zeta.
    repeat case_match; try (by apply Hfirst).
    rewrite lookup_insert_ne; [by apply Hfirst|]. intros <-. congruence.
  - intros key Hne Hne'. unfold pageCache. cbv zeta.
    repeat case_match; try (by apply Hother).
    rewrite lookup_insert_ne by done. by apply Hother.
Qed.

(** X1. Whatever it returns and whatever is rejected, a page read never
    touches the chunk rows, the rows of other documents or the
    environment; of the document's own row it changes at most
    [lastIndex], and nothing at all when [saveCurrentPage] is false; it
    never removes or overwrites a cache entry, and adds entries only
    under the keys of the page and of the next page. *)
Theorem getPageByBookId_frame
    (w : World) (id : string) (page : Z) (apiKey : string) (save : bool) :
  let w' := (getPageByBookId id page apiKey save w).2 in
  chunkRows w' = chunkRows w
  ∧ idCounter w' = idCounter w
  ∧ faults w' = faults w
  ∧ (∀ id', id' ≠ id → books w' !! id' = books w !! id')
  ∧ (books w' !! id = books w !! id
     ∨ books w' !! id = Book.with_lastIndex page <$> books w !! id)
  ∧ (save = false → books w' = books w)
  ∧ (∀ key e, cache w !! key = Some e → cache w' !! key = Some e)
  ∧ (∀ key, key ≠ pageKey id page → key ≠ pageKey id (page + 1) →
            cache w' !! key = cache w !! key).
Proof. exact (getPageByBookId_effects w id page apiKey save). Qed.

Lemma pageOutcome_no_faults
    (w : World) (id : string) (page : Z) (apiKey : string) (save : bool) (c : BooksChunk.t) :
  (∀ op, faults w op = false) →
  pageOutcome w id page apiKey save c = Ok (Some (pageView page c)).
Proof.
  intros Hf. unfold pageOutcome. rewrite !Hf, andb_false_r. by case_match.
Qed.

(** The chunk found after a progress update is the chunk found before
    it, up to the [lastIndex] of its book. *)
Lemma selectChunk_update_Some (w : World) (id0 : string) (p0 : Z)
    (id : string) (page : Z) (apiKey : string) (n : BooksChunk.t) :
  selectChunk w id page apiKey = Some n →
  ∃ n', selectChunk (set_books (alter (Book.with_lastIndex p0) id0) w) id page apiKey
        = Some n'
        ∧ BooksChunk.text n' = BooksChunk.text n
        ∧ BooksChunk.index n' = BooksChunk.index n
        ∧ (BooksChunk.book n' = BooksChunk.book n
           ∨ BooksChunk.book n' = Book.with_lastIndex p0 (BooksChunk.book n)).
Proof.
  unfold selectChunk. cbn [chunkRows set_books].
  induction (chunkRows w) as [|r rows IH]; [done|].
  cbn [omap list_omap]. rewrite loadChunk_update.
  destruct (loadChunk w r) as [c|]; cbn [fmap option_fmap option_map]; [|exact IH].
  cbn [find].
  assert (chunkWhere id page apiKey
            (if decide (id0 = BooksChunk.bookId r)
             then BooksChunk.mk (BooksChunk.text c) (BooksChunk.index c)
                    (Book.with_lastIndex p0 (BooksChunk.book c))
             else c)
          = chunkWhere id page apiKey c) as -> by by case_decide.
  destruct (chunkWhere id page apiKey c); [|exact IH].
  intros [= <-]. eexists. split; [done|]. case_decide; cbn; auto.
Qed.

Lemma getPageByBookId_cache_after
    (w : World) (id : string) (page : Z) (apiKey : string) (save : bool) (c : BooksChunk.t) :
  (∀ op, faults w op = false) →
  resolved w id page apiKey = Some c →
  let w' := (getPageByBookId id page apiKey save w).2 in
  value <$> cache w' !! pageKey id page = Some c
  ∧ (cache w !! pageKey id page = None →
     ttl <$> cache w' !! pageKey id page = Some (Some 3600))
  ∧ ∀ n, selectChunk w id (page + 1) apiKey = Some n →
         ∃ e, cache w' !! pageKey id (page + 1) = Some e
              ∧ (cache w !! pageKey id (page + 1) = None →
                 ttl e = None
                 ∧ BooksChunk.text (value e) = BooksChunk.text n
                 ∧ BooksChunk.index (value e) = BooksChunk.index n).
Proof.
  intros Hf Hres. cbv zeta.
  destruct (getPageByBookId_world w id page apiKey save c (Hf _) (λ _, Hf _) Hres)
    as (_ & Hc & _).
  rewrite Hc. clear Hc. unfold pageCache. cbv zeta. rewrite !Hf, andb_false_r.
  assert (pageCacheFirst w id page c !! pageKey id page
          = Some (match cache w !! pageKey id page with
                  | Some e => e
                  | None => mkCacheEntry c (Some 3600)
                  end)) as Hfirst.
  { unfold pageCacheFirst. rewrite Hf.
    destruct (cache w !! pageKey id page) as [e|] eqn:Hkey; [done|].
    apply lookup_insert_eq. }
  assert (pageCacheFirst w id page c !! pageKey id (page + 1)
          = cache w !! pageKey id (page + 1)) as Hnext.
  { unfold pageCacheFirst. rewrite Hf.
    destruct (cache w !! pageKey id page) as [e|]; [done|].
    apply lookup_insert_ne, pageKey_next_ne. }
  assert (∀ m : gmap string CacheEntry,
            (m = pageCacheFirst w id page c
             ∨ ∃ e, m = <[pageKey id (page + 1) := e]> (pageCacheFirst w id page c)) →
            m !! pageKey id page
            = Some (match cache w !! pageKey id page with
                    | Some e => e
                    | None => mkCacheEntry c (Some 3600)
                    end)) as Hkeep.
  { intros m [->|[e ->]]; [done|].
    rewrite lookup_insert_ne; [done|]. intros H. symmetry in H.
    by apply pageKey_next_ne in H. }
  split; [|split].
  - rewrite Hkeep.
    + unfold resolved in Hres. by destruct (cache w !! pageKey id page); simplify_eq/=.
    + repeat case_match; eauto.
  - intros Hmiss. rewrite Hkeep.
    + by rewrite Hmiss.
    + repeat case_match; eauto.
  - intros n Hn.
    destruct (cache w !! pageKey id (page + 1)) as [e|] eqn:Hcached.
    + exists e. rewrite Hnext. split; [done|]. done.
    + unfold pageBooks. rewrite Hf, andb_true_r.
      destruct (updatesProgress page save c).
      * destruct (selectChunk_update_Some w id page id (page + 1) apiKey n Hn)
          as (n' & Hn' & Htext & Hidx & _).
        assert (selectChunk
                  (set_books (λ _, alter (Book.with_lastIndex page) id (books w)) w)
                  id (page + 1) apiKey = Some n') as -> by exact Hn'.
        eexists. split; [apply lookup_insert_eq|]. by intros _.
      * assert (selectChunk (set_books (λ _, books w) w) id (page + 1) apiKey = Some n)
          as -> by exact Hn.
        eexists. split; [apply lookup_insert_eq|]. by intros _.
Qed.

(** X2. Read-ahead.  After a page read that found its page and met no
    rejection, the cache holds that page -- written with TTL 3600 if it
    was not cached -- and, whenever the store has the next page for the
    caller, the cache holds the next page too: the text of the store's
    chunk, with no TTL of its own if it was not cached before. *)
Theorem getPageByBookId_warms_cache
    (w : World) (id : string) (page : Z) (apiKey : string) (save : bool) (c : BooksChunk.t) :
  (∀ op, faults w op = false) →
  resolved w id page apiKey = Some c →
  let w' := (getPageByBookId id page apiKey save w).2 in
  value <$> cache w' !! pageKey id page = Some c
  ∧ (cache w !! pageKey id page = None →
     ttl <$> cache w' !! pageKey id page = Some (Some 3600))
  ∧ ∀ n, selectChunk w id (page + 1) apiKey = Some n →
         ∃ e, cache w' !! pageKey id (page + 1) = Some e
              ∧ (cache w !! pageKey id (page + 1) = None →
                 ttl e = None
                 ∧ BooksChunk.text (value e) = BooksChunk.text n
                 ∧ BooksChunk.index (value e) = BooksChunk.index n).
Proof. exact (getPageByBookId_cache_after w id page apiKey save c). Qed.

(** X3. Cache transparency.  Once a page read has found its page and met
    no rejection, every later read of that page in the resulting world
    returns the same page view, for every key and whatever
    [saveCurrentPage] is. *)
Theorem getPageByBookId_repeatable
    (w : World) (id : string) (page : Z) (apiKey : string) (save : bool) (c : BooksChunk.t) :
  (∀ op, faults w op = false) →
  resolved w id page apiKey = Some c →
  (getPageByBookId id page apiKey save w).1 = Ok (Some (pageView page c))
  ∧ ∀ (apiKey' : string) (save' : bool),
      (getPageByBookId id page apiKey' save'
         (getPageByBookId id page apiKey save w).2).1
      = Ok (Some (pageView page c)).
Proof.
  intros Hf Hres. split.
  { rewrite (getPageByBookId_found w id page apiKey save c); auto.
    by apply pageOutcome_no_faults. }
  destruct (getPageByBookId_cache_after w id page apiKey save c Hf Hres) as (Hkey & _).
  destruct (getPageByBookId_effects w id page apiKey save) as (_ & _ & Hfaults & _).
  cbv zeta in Hkey, Hfaults.
  set (w' := (getPageByBookId id page apiKey save w).2) in *.
  assert (∀ op, faults w' op = false) as Hf' by (intros op; by rewrite Hfaults).
  intros apiKey' save'.
  assert (resolved w' id page apiKey' = Some c) as Hres'.
  { unfold resolved. by destruct (cache w' !! pageKey id page); simplify_eq/=. }
  rewrite (getPageByBookId_found w' id page apiKey' save' c); auto.
  by apply pageOutcome_no_faults.
Qed.

End PageEffects.

(** ** Progress, ownership and the life of a document *)

Section Documents.

Variable genId : nat → string.
Variable defaultLastIndex : Z.
Variable appUrl : string.
Hypothesis genId_inj : ∀ n m, genId n = genId m → n = m.

Local Abbreviation reachable := (reachable genId defaultLastIndex appUrl).
Local Abbreviation consistent := (consistent genId).

(** X4. Progress is persisted.  On a page read with [saveCurrentPage]
    that finds the chunk in the store and whose update, if it issues
    one, is not rejected, the document row ends with [lastIndex] equal
    to the page read and is otherwise unchanged -- whatever happens to
    the read-ahead afterwards. *)
Theorem getPageByBookId_saves_progress
    (w : World) (id : string) (page : Z) (apiKey : string) (b : Book.t) (c : BooksChunk.t) :
  reachable w →
  books w !! id = Some b →
  cache w !! pageKey id page = None →
  selectChunk w id page apiKey = Some c →
  faults w (CacheGet (pageKey id page)) = false →
  faults w (ChunkFindOne id page apiKey) = false →
  faults w (BookUpdate id page) = false →
  books (getPageByBookId id page apiKey true w).2 !! id
  = Some (Book.with_lastIndex page b).
Proof.
  intros Hr Hb Hcache Hsel Hget Hfind Hupd.
  apply (reachable_consistent _ _ _ genId_inj) in Hr.
  destruct (selectChunk_row _ _ _ _ _ _ Hr Hsel) as (_ & _ & _ & _ & _ & _ & Hb' & _).
  rewrite Hb in Hb'. injection Hb' as Hbc.
  assert (resolved w id page apiKey = Some c) as Hres.
  { unfold resolved. by rewrite Hcache. }
  destruct (getPageByBookId_world w id page apiKey true c Hget (λ _, Hfind) Hres)
    as (Hbooks & _).
  rewrite Hbooks. unfold pageBooks, updatesProgress. rewrite Hupd, <- Hbc.
  cbn [negb]. rewrite !andb_true_r.
  case_bool_decide as Hpage; cbn [negb].
  - rewrite Hb. f_equal. destruct b; cbn in *. by subst.
  - by rewrite lookup_alter_eq, Hb.
Qed.

(** X5. On a cache hit the update of [lastIndex] is decided by the
    cached snapshot, not by the stored row: it is issued exactly when
    [saveCurrentPage] is true and the page differs from the [lastIndex]
    the snapshot carries, and when the page equals it the book table is
    left as it is. *)
Theorem getPageByBookId_hit_uses_snapshot
    (w : World) (id : string) (page : Z) (apiKey : string) (save : bool) (e : CacheEntry) :
  cache w !! pageKey id page = Some e →
  faults w (CacheGet (pageKey id page)) = false →
  let snapshot := Book.lastIndex (BooksChunk.book (value e)) in
  (BookUpdate id page ∈ issued (getPageByBookId id page apiKey save) w
   ↔ save = true ∧ page ≠ snapshot)
  ∧ (page = snapshot → books (getPageByBookId id page apiKey save w).2 = books w).
Proof.
  clear genId_inj. intros He Hget snapshot. subst snapshot.
  assert (resolved w id page apiKey = Some (value e)) as Hres.
  { unfold resolved. by rewrite He. }
  assert (cache w !! pageKey id page = None →
          faults w (ChunkFindOne id page apiKey) = false) as Hfind by congruence.
  rewrite (getPageByBookId_calls w id page apiKey save (value e)) by done.
  destruct (getPageByBookId_world w id page apiKey save (value e) Hget Hfind Hres)
    as (Hbooks & _).
  rewrite Hbooks. unfold pageCalls, pageBooks, updatesProgress. rewrite He.
  assert (∀ l, Forall (λ op, isBookUpdate op = false) l → BookUpdate id page ∉ l) as Hno.
  { intros l Hl Hin. by apply (proj1 (Forall_forall _ _) Hl) in Hin. }
  split.
  - case_bool_decide as Hpage; destruct save; cbn [negb andb app].
    + split; [|intros [_ ?]; done]. intros Hin. exfalso. revert Hin. apply Hno.
      repeat case_match; repeat constructor.
    + split; [|intros [? _]; done]. intros Hin. exfalso. revert Hin. apply Hno.
      repeat case_match; repeat constructor.
    + split; [done|]. intros _. apply list_elem_of_further, list_elem_of_here.
    + split; [|intros [? _]; done]. intros Hin. exfalso. revert Hin. apply Hno.
      repeat case_match; repeat constructor.
  - intros ->. by rewrite bool_decide_eq_true_2.
Qed.

(** X6. A warm read does not query the store for chunks: when the page
    and the next page are both cached, the read issues cache reads and
    at most the update of [lastIndex], never a chunk query and never a
    cache write. *)
Theorem getPageByBookId_warm_read
    (w : World) (id : string) (page : Z) (apiKey : string) (save : bool) (e e' : CacheEntry) :
  cache w !! pageKey id page = Some e →
  cache w !! pageKey id (page + 1) = Some e' →
  faults w (CacheGet (pageKey id page)) = false →
  ∀ op, op ∈ issued (getPageByBookId id page apiKey save) w →
        op = CacheGet (pageKey id page)
        ∨ op = CacheGet (pageKey id (page + 1))
        ∨ op = BookUpdate id page.
Proof.
  clear genId_inj. intros He He' Hget.
  assert (resolved w id page apiKey = Some (value e)) as Hres.
  { unfold resolved. by rewrite He. }
  assert (cache w !! pageKey id page = None →
          faults w (ChunkFindOne id page apiKey) = false) as Hfind by congruence.
  rewrite (getPageByBookId_calls w id page apiKey save (value e)) by done.
  unfold pageCalls. rewrite He, He'. cbn [app].
  apply Forall_forall.
  repeat case_match; repeat (apply Forall_cons; split; [auto|]); apply Forall_nil_2.
Qed.

Lemma selectBook_spec (w : World) (id apiKey : string) (b : Book.t) :
  books w !! id = Some b →
  selectBook w id apiKey
  = if bool_decide (User.apiKey (Book.user b) = apiKey) then Some b else None.
Proof. clear genId_inj. intros Hb. unfold selectBook. by rewrite Hb. Qed.

Lemma selectBook_None_not_owner (w : World) (id apiKey : string) :
  (∀ b, books w !! id = Some b → User.apiKey (Book.user b) ≠ apiKey) →
  selectBook w id apiKey = None.
Proof.
  clear genId_inj. intros Hno. unfold selectBook.
  destruct (books w !! id) as [b|] eqn:Hb; [|done]. cbn.
  rewrite bool_decide_eq_false_2; [done|]. by apply Hno.
Qed.

Lemma getBookById_run (id apiKey : string) (w : World) :
  (getBookById appUrl id apiKey w).2 = record (BookFindOne id apiKey) w
  ∧ (faults w (BookFindOne id apiKey) = false →
     selectBook w id apiKey = None →
     (getBookById appUrl id apiKey w).1 = Ok None).
Proof.
  clear genId_inj.
  unfold getBookById, bookRepository_findOne, mbind, IO_bind, mret, IO_ret, await.
  change (selectBook (record _ w) id apiKey) with (selectBook w id apiKey).
  destruct (faults w (BookFindOne id apiKey)); [done|].
  destruct (selectBook w id apiKey) as [b|]; split; try done.
Qed.

(** X7. Ownership on the store paths.  For a key that does not own the
    document -- or an identifier the store does not know -- a page read
    that misses the cache returns not-found and caches nothing,
    [getBookById] returns nothing, and [deleteBookById] answers
    [{ book: null, result: false }] and deletes nothing. *)
Theorem not_owner_not_found
    (w : World) (id apiKey : string) (page : Z) (save : bool) :
  reachable w →
  (∀ b, books w !! id = Some b → User.apiKey (Book.user b) ≠ apiKey) →
  (cache w !! pageKey id page = None →
   faults w (CacheGet (pageKey id page)) = false →
   faults w (ChunkFindOne id page apiKey) = false →
   (getPageByBookId id page apiKey save w).1 = Ok None
   ∧ cache (getPageByBookId id page apiKey save w).2 = cache w
   ∧ books (getPageByBookId id page apiKey save w).2 = books w)
  ∧ (faults w (BookFindOne id apiKey) = false →
     (getBookById appUrl id apiKey w).1 = Ok None
     ∧ (deleteBookById id apiKey w).1 = Ok (None, false)
     ∧ books (deleteBookById id apiKey w).2 = books w
     ∧ chunkRows (deleteBookById id apiKey w).2 = chunkRows w).
Proof.
  intros Hr Hno. apply (reachable_consistent _ _ _ genId_inj) in Hr.
  pose proof (selectBook_None_not_owner w id apiKey Hno) as Hsel. split.
  - intros Hcache Hget Hfind.
    assert (resolved w id page apiKey = None) as Hres.
    { unfold resolved. rewrite Hcache.
      destruct (selectChunk w id page apiKey) as [c|] eqn:Hc; [|done].
      destruct (selectChunk_row _ _ _ _ _ _ Hr Hc)
        as (_ & _ & _ & _ & _ & _ & Hb & _ & Hkey).
      by destruct (Hno _ Hb). }
    split; [by apply getPageByBookId_missing|].
    destruct (getPageByBookId_world_early w id page apiKey save) as (Hb & Hc & _);
      [by right; right|]. done.
  - intros Hfind. split; [by apply getBookById_run|].
    rewrite deleteBookById_run, Hfind, Hsel. done.
Qed.

(** X8. What [deleteBookById] answers to the owner.  Once the lookup has
    found the document the call never fails: a rejected delete is
    caught and reported as [result: false].  The chunk rows go first, so
    when only the delete of the document row is rejected the answer is
    [result: false] although every chunk of the document is gone. *)
Theorem deleteBookById_outcomes (w : World) (id apiKey : string) (b : Book.t) :
  reachable w →
  books w !! id = Some b →
  User.apiKey (Book.user b) = apiKey →
  faults w (BookFindOne id apiKey) = false →
  let chunksDeleted := negb (faults w (ChunkDelete id)) in
  let bookDeleted := chunksDeleted && negb (faults w (BookDelete id)) in
  (deleteBookById id apiKey w).1 = Ok (Some b, bookDeleted)
  ∧ rowsOf (deleteBookById id apiKey w).2 id = (if chunksDeleted then [] else rowsOf w id)
  ∧ books (deleteBookById id apiKey w).2 !! id = (if bookDeleted then None else Some b).
Proof.
  intros Hr Hb Hkey Hfind. apply (reachable_consistent _ _ _ genId_inj) in Hr.
  destruct (books_keyed _ _ Hr _ _ Hb) as [Hid _].
  rewrite deleteBookById_run, Hfind, (selectBook_spec w id apiKey b Hb).
  rewrite bool_decide_eq_true_2 by done. cbv zeta. rewrite Hid.
  destruct (faults w (ChunkDelete id)); [done|].
  destruct (faults w (BookDelete id)); cbn [negb andb fst snd].
  - split; [done|]. split; [|done]. apply rowsOf_chunk_delete.
  - split; [done|]. split; [apply rowsOf_chunk_delete|]. cbn. apply lookup_delete_eq.
Qed.

Lemma deleteBookById_effects (w : World) (id apiKey : string) :
  consistent w →
  let w' := (deleteBookById id apiKey w).2 in
  cache w' = cache w
  ∧ idCounter w' = idCounter w
  ∧ ∀ id', id' ≠ id →
           books w' !! id' = books w !! id' ∧ rowsOf w' id' = rowsOf w id'.
Proof.
  intros Hr. cbv zeta.
  rewrite deleteBookById_run.
  destruct (faults w (BookFindOne id apiKey)); [done|]. cbv zeta.
  destruct (selectBook w id apiKey) as [b|] eqn:Hsel; [|done].
  destruct (selectBook_Some _ _ _ _ _ Hr Hsel) as (_ & Hid & _). rewrite Hid.
  assert (∀ id', id' ≠ id →
            List.filter (λ r, bool_decide (BooksChunk.bookId r = id'))
              (List.filter (λ r, negb (bool_decide (BooksChunk.bookId r = id)))
                 (chunkRows w))
            = rowsOf w id') as Hrows.
  { intros id' Hne. rewrite rowsOf_after_delete. by rewrite decide_False. }
  destruct (faults w (ChunkDelete id)); [done|].
  destruct (faults w (BookDelete id)); cbn.
  - repeat split; try done. by apply Hrows.
  - repeat split; try done; [by rewrite lookup_delete_ne | by apply Hrows].
Qed.

(** X9. [deleteBookById] never touches another document nor the cache:
    whatever the key and whatever is rejected, the rows and the chunk
    rows of every other document and every cache entry are as before. *)
Theorem deleteBookById_frame (w : World) (id apiKey : string) :
  reachable w →
  let w' := (deleteBookById id apiKey w).2 in
  cache w' = cache w
  ∧ idCounter w' = idCounter w
  ∧ ∀ id', id' ≠ id →
           books w' !! id' = books w !! id' ∧ rowsOf w' id' = rowsOf w id'.
Proof.
  intros Hr. apply deleteBookById_effects.
  by apply (reachable_consistent _ _ _ genId_inj) in Hr.
Qed.

Lemma createBook_effects (w : World) (payload : CreateBookDto) :
  consistent w →
  let id := genId (idCounter w) in
  let w' := (createBook genId defaultLastIndex payload w).2 in
  books w !! id = None
  ∧ rowsOf w id = []
  ∧ (∀ page, cache w !! pageKey id page = None)
  ∧ cache w' = cache w
  ∧ ∀ id', id' ≠ id →
           books w' !! id' = books w !! id' ∧ rowsOf w' id' = rowsOf w id'.
Proof.
  intros Hr. cbv zeta.
  split; [by apply fresh_id_no_book|]. split; [by apply fresh_id_no_rows|].
  split; [intros page; by apply cache_none_fresh|].
  destruct (decide (0 < User.chunkSize (dto_user payload))) as [Hsize|Hsize].
  2: { unfold createBook, splitEveryN. rewrite bool_decide_eq_true_2 by lia. done. }
  rewrite createBook_run by done.
  destruct (faults w (BookInsert (dto_title payload))); [done|].
  destruct (faults w (ChunkInsert _)); cbn.
  - split; [done|]. intros id' Hne. by rewrite lookup_insert_ne.
  - split; [done|]. intros id' Hne. split; [by rewrite lookup_insert_ne|].
    unfold rowsOf. cbn. rewrite List.filter_app, (filter_none _ (chunksToInsert _ _)).
    + by rewrite app_nil_r.
    + intros r (c & -> & _)%list_elem_of_fmap. cbn.
      by apply bool_decide_eq_false_2.
Qed.

(** X10. [createBook] gives the document an identifier no stored
    document, chunk row or cache entry mentions, and never touches what
    is there: whatever is rejected, the cache, every other document row
    and the chunk rows of every other document are as before. *)
Theorem createBook_frame (w : World) (payload : CreateBookDto) :
  reachable w →
  let id := genId (idCounter w) in
  let w' := (createBook genId defaultLastIndex payload w).2 in
  books w !! id = None
  ∧ rowsOf w id = []
  ∧ (∀ page, cache w !! pageKey id page = None)
  ∧ cache w' = cache w
  ∧ ∀ id', id' ≠ id →
           books w' !! id' = books w !! id' ∧ rowsOf w' id' = rowsOf w id'.
Proof.
  intros Hr. apply createBook_effects.
  by apply (reachable_consistent _ _ _ genId_inj) in Hr.
Qed.

(** *** Documents across histories *)

Local Abbreviation evolves := (evolves genId).
Local Abbreviation step := (step genId defaultLastIndex appUrl).

Lemma sameDocument_refl (b : Book.t) : sameDocument b b.
Proof. clear genId_inj. by repeat split. Qed.

Lemma sameDocument_trans (b1 b2 b3 : Book.t) :
  sameDocument b1 b2 → sameDocument b2 b3 → sameDocument b1 b3.
Proof.
  clear genId_inj. unfold sameDocument.
  intros (? & ? & ? & ? & ?) (? & ? & ? & ? & ?). repeat split; congruence.
Qed.

Lemma evolves_refl (w : World) : evolves w w.
Proof.
  clear genId_inj. split; [done|]. intros id b Hb. left. exists b.
  split; [done|]. split; [apply sameDocument_refl | by left].
Qed.

Lemma evolves_trans (w1 w2 w3 : World) : evolves w1 w2 → evolves w2 w3 → evolves w1 w3.
Proof.
  clear genId_inj. intros [Hn12 H12] [Hn23 H23]. split; [lia|].
  intros id b3 Hb3. destruct (H23 id b3 Hb3) as [(b2 & Hb2 & Hs23 & Hr23)|(n & Hn & ->)].
  - destruct (H12 id b2 Hb2) as [(b1 & Hb1 & Hs12 & Hr12)|(n & Hn & ->)].
    + left. exists b1. split; [done|]. split; [by eapply sameDocument_trans|].
      destruct Hr23 as [Hr23 | Hr23]; rewrite Hr23; [done | by right].
    + right. exists n. split; [lia | done].
  - right. exists n. split; [lia | done].
Qed.

(** A world that keeps the counter and the chunk rows and whose book
    table differs at most by [lastIndex] values has evolved. *)
Lemma evolves_same_rows (w w' : World) :
  idCounter w' = idCounter w → chunkRows w' = chunkRows w →
  (∀ id, books w' !! id = books w !! id
         ∨ ∃ page, books w' !! id = Book.with_lastIndex page <$> books w !! id) →
  evolves w w'.
Proof.
  clear genId_inj. intros Hn Hrows Hbooks. split; [lia|].
  intros id b' Hb'. left. unfold rowsOf. rewrite Hrows.
  destruct (Hbooks id) as [Heq|[page Heq]]; rewrite Heq in Hb'.
  - exists b'. split; [done|]. split; [apply sameDocument_refl | by left].
  - destruct (books w !! id) as [b|]; simplify_eq/=.
    exists b. split; [done|]. split; [by repeat split | by left].
Qed.

Lemma step_evolves (w w' : World) : consistent w → step w w' → evolves w w'.
Proof.
  intros Hc Hstep. revert Hc.
  destruct Hstep as [payload w|id page apiKey save w|id apiKey w|id apiKey w|f w|key w];
    intros Hc.
  - (* createBook *)
    destruct (createBook_effects w payload Hc) as (_ & _ & _ & _ & Hother).
    cbv zeta in Hother.
    assert ((idCounter w ≤ idCounter (createBook genId defaultLastIndex payload w).2
             ≤ S (idCounter w))%nat) as Hn.
    { destruct (decide (0 < User.chunkSize (dto_user payload))) as [Hsize|Hsize].
      2: { unfold createBook, splitEveryN. rewrite bool_decide_eq_true_2 by lia.
           unfold mbind, IO_bind, liftResult, throw. cbn [snd]. lia. }
      rewrite createBook_run by done.
      destruct (faults w (BookInsert (dto_title payload))); [cbn [snd record idCounter]; lia|].
      destruct (faults w (ChunkInsert _));
        cbn [snd record idCounter afterBookInsert set_chunkRows set_idCounter]; lia. }
    split; [lia|]. intros id b' Hb'.
    destruct (decide (id = genId (idCounter w))) as [->|Hne].
    + right. exists (idCounter w). done.
    + left. destruct (Hother id Hne) as [Hb Hr]. rewrite Hb in Hb'.
      exists b'. split; [done|]. split; [apply sameDocument_refl | by left].
  - (* getPageByBookId *)
    destruct (getPageByBookId_effects w id page apiKey save)
      as (Hrows & Hn & _ & Hother & Hown & _).
    apply evolves_same_rows; [done..|]. intros id'.
    destruct (decide (id' = id)) as [->|Hne]; [|left; by apply Hother].
    destruct Hown as [?|?]; [by left | right; by exists page].
  - (* getBookById *)
    destruct (getBookById_run id apiKey w) as [-> _].
    apply evolves_same_rows; [done..|]. intros id'. by left.
  - (* deleteBookById *)
    destruct (deleteBookById_effects w id apiKey Hc) as (_ & Hn & Hother).
    cbv zeta in Hn, Hother. split; [lia|]. intros id' b' Hb'. left.
    destruct (decide (id' = id)) as [->|Hne].
    + revert Hb'. rewrite deleteBookById_run.
      destruct (faults w (BookFindOne id apiKey)).
      { cbn. intros Hb'. exists b'. split; [done|].
        split; [apply sameDocument_refl | by left]. }
      cbv zeta. destruct (selectBook w id apiKey) as [b|] eqn:Hsel.
      2: { cbn. intros Hb'. exists b'. split; [done|].
           split; [apply sameDocument_refl | by left]. }
      destruct (selectBook_Some _ _ _ _ _ Hc Hsel) as (Hb & Hid & _). rewrite Hid.
      destruct (faults w (ChunkDelete id)).
      { cbn. intros Hb'. exists b'. split; [done|].
        split; [apply sameDocument_refl | by left]. }
      destruct (faults w (BookDelete id)).
      * cbn. intros Hb'. exists b'. split; [done|].
        split; [apply sameDocument_refl|]. right. apply rowsOf_chunk_delete.
      * cbn. by rewrite lookup_delete_eq.
    + destruct (Hother id' Hne) as [Hb Hr]. rewrite Hb in Hb'.
      exists b'. split; [done|]. split; [apply sameDocument_refl | by left].
  - apply evolves_same_rows; [done..|]. intros id'. by left.
  - apply evolves_same_rows; [done..|]. intros id'. by left.
Qed.

Lemma history_evolves (w w' : World) : reachable w → rtc step w w' → evolves w w'.
Proof.
  intros Hr Hsteps.
  eapply (rtc_ind_r (λ w', reachable w' ∧ evolves w w')); [| |exact Hsteps].
  - split; [done | apply evolves_refl].
  - intros y z _ Hstep [Hy Hev]. split.
    + eapply rtc_r; [exact Hy | exact Hstep].
    + eapply evolves_trans; [exact Hev|]. apply step_evolves; [|done].
      by apply (reachable_consistent genId defaultLastIndex appUrl genId_inj).
Qed.

(** X11. A document never changes after ingestion, except for
    [lastIndex].  Along every history of the service, a stored document
    that is still stored later has the same identifier, title, author,
    page range and owner; its chunk rows are the rows it had, unless
    they have all been deleted. *)
Theorem document_immutable (w w' : World) (id : string) (b b' : Book.t) :
  reachable w → rtc step w w' →
  books w !! id = Some b → books w' !! id = Some b' →
  sameDocument b b' ∧ (rowsOf w' id = rowsOf w id ∨ rowsOf w' id = []).
Proof.
  intros Hr Hsteps Hb Hb'.
  destruct (history_evolves w w' Hr Hsteps) as [Hn Hev].
  apply (reachable_consistent _ _ _ genId_inj) in Hr.
  destruct (Hev id b' Hb') as [(b0 & Hb0 & Hsame & Hrows)|(n & Hle & Hid)].
  - rewrite Hb in Hb0. by injection Hb0 as <-.
  - destruct (books_keyed _ _ Hr _ _ Hb) as (_ & m & Hm & Hid').
    rewrite Hid' in Hid. apply genId_inj in Hid. lia.
Qed.

(** X12. Identifiers are never reused: a document that is gone from the
    store -- deleted -- never comes back, and no later document gets its
    identifier, along every history of the service. *)
Theorem deleted_document_stays_deleted (w w' w'' : World) (id : string) (b : Book.t) :
  reachable w → rtc step w w' → rtc step w' w'' →
  books w !! id = Some b → books w' !! id = None →
  books w'' !! id = None.
Proof.
  intros Hr Hsteps Hsteps' Hb Hgone.
  destruct (history_evolves w w' Hr Hsteps) as [Hn _].
  assert (reachable w') as Hr' by (eapply rtc_trans; [exact Hr | exact Hsteps]).
  destruct (history_evolves w' w'' Hr' Hsteps') as [_ Hev].
  apply (reachable_consistent _ _ _ genId_inj) in Hr.
  destruct (books_keyed _ _ Hr _ _ Hb) as (_ & m & Hm & Hid).
  destruct (books w'' !! id) as [b''|] eqn:Hb''; [|done].
  destruct (Hev id b'' Hb'') as [(b0 & Hb0 & _)|(n & Hle & Hid')].
  - congruence.
  - rewrite Hid in Hid'. apply genId_inj in Hid'. lia.
Qed.

End Documents.

(** ** The percentage, away from a zero divisor *)

Section Percent.

Lemma round_quotient (a : Z) (p : positive) :
  Qfloor (Qplus (Qdiv (inject_Z a) (inject_Z (Z.pos p))) (1 # 2))
  = (2 * a + Z.pos p) / (2 * Z.pos p).
Proof.
  assert (Qeq (Qplus (Qdiv (inject_Z a) (inject_Z (Z.pos p))) (1 # 2))
              ((2 * a + Z.pos p) # (2 * p))) as Heq.
  { unfold Qeq, Qplus, Qdiv, Qmult, Qinv, inject_Z. cbn [Qnum Qden]. lia. }
  rewrite (Qfloor_comp _ _ Heq). reflexivity.
Qed.

(** X13. For a document of more than one page whose [lastIndex] lies
    within its page range, [percent] is the quotient
    [100 * lastIndex / totalIndex] rounded to the nearest integer, halves
    up: a whole number between 0 and 100, 0 on the first page and 100 on
    the last. *)
Theorem percent_in_range (b : Book.t) :
  0 < Book.totalIndex b →
  0 ≤ Book.lastIndex b ≤ Book.totalIndex b →
  let p := (200 * Book.lastIndex b + Book.totalIndex b) / (2 * Book.totalIndex b) in
  percentNumber b = Num (inject_Z p)
  ∧ percentText b = pretty p +:+ " %"
  ∧ 0 ≤ p ≤ 100
  ∧ (Book.lastIndex b = 0 → p = 0)
  ∧ (Book.lastIndex b = Book.totalIndex b → p = 100).
Proof.
  intros Htotal Hlast p.
  assert (percentNumber b = Num (inject_Z p)) as Hnum.
  { unfold percentNumber, js_div. rewrite bool_decide_eq_false_2 by lia.
    cbn [Math_round]. do 2 f_equal. subst p.
    destruct (Book.totalIndex b) as [|t|t]; try lia.
    rewrite round_quotient. f_equal. lia. }
  split; [exact Hnum|]. split.
  { unfold percentText. rewrite Hnum. cbn [js_toString]. by rewrite Qfloor_Z. }
  subst p. set (a := Book.lastIndex b) in *. set (t := Book.totalIndex b) in *.
  split; [|split].
  - split.
    + apply Z.div_pos; lia.
    + enough ((200 * a + t) / (2 * t) < 101) by lia.
      apply Z.div_lt_upper_bound; lia.
  - intros ->. apply Z.div_small. lia.
  - intros ->. replace (200 * t + t) with (100 * (2 * t) + t) by lia.
    rewrite Z.div_add_l by lia. rewrite Z.div_small by lia. lia.
Qed.

End Percent.

(** ** Queries and the controller *)

Section AppProperties.

Variable genId : nat → string.
Variable defaultLastIndex : Z.
Variable appUrl : string.
Variable telegramId : User.t → Z.
Variable booksLimit : User.t → Z.
Hypothesis genId_inj : ∀ n m, genId n = genId m → n = m.

Local Abbreviation reachable := (reachable genId defaultLastIndex appUrl).
Local Abbreviation consistent := (consistent genId).
Local Abbreviation countBooks := (countBooks telegramId).
Local Abbreviation uploadFile := (uploadFile genId defaultLastIndex appUrl telegramId booksLimit).
Local Abbreviation getBookPage := (getBookPage appUrl).

(** *** All the chunks of a document *)

Lemma selectChunks_rows (w : World) (id apiKey : string) (rows : list BooksChunk.row) :
  consistent w →
  (∀ r, r ∈ rows → r ∈ chunkRows w) →
  List.filter (chunkOfBook id apiKey) (omap (loadChunk w) rows)
  = match selectBook w id apiKey with
    | Some b =>
        map (λ r, BooksChunk.mk (BooksChunk.rowText r) (BooksChunk.rowIndex r) b)
            (List.filter (λ r, bool_decide (BooksChunk.bookId r = id)) rows)
    | None => []
    end.
Proof.
  clear genId_inj. intros Hc. induction rows as [|r rows IH]; intros Hin.
  { cbn. by destruct (selectBook w id apiKey). }
  assert (∀ r', r' ∈ rows → r' ∈ chunkRows w) as Hin'.
  { intros r' Hr'. apply Hin. by apply list_elem_of_further. }
  specialize (IH Hin').
  destruct (chunks_owned _ _ Hc r) as (br & Hbr & _); [apply Hin, list_elem_of_here|].
  destruct (books_keyed _ _ Hc _ _ Hbr) as [Hid _].
  cbn [omap list_omap]. unfold loadChunk at 1. rewrite Hbr. cbn [mbind option_bind].
  cbn [List.filter]. unfold chunkOfBook at 1. cbn [BooksChunk.book].
  rewrite Hid, IH. clear IH.
  destruct (decide (BooksChunk.bookId r = id)) as [Heq|Hne].
  - rewrite (bool_decide_eq_true_2 _ Heq). cbn [andb].
    unfold selectBook. rewrite <- Heq, Hbr. cbn [mbind option_bind].
    case_bool_decide; done.
  - rewrite (bool_decide_eq_false_2 _ Hne). cbn [andb]. done.
Qed.

(** X14. [getAllChunksByBookId], when its query is not rejected, gives
    the owner exactly the chunk rows of the document, each joined with
    the document row; for any other key, or an unknown identifier, it
    gives the empty list, not an error.  It changes nothing in the store
    or the cache.  (The query states no order; the store answers in the
    order of insertion.) *)
Theorem getAllChunksByBookId_rows (s : Site) (id apiKey : string) :
  reachable (world s) →
  queryFaults s (ChunkFind id apiKey) = false →
  world (getAllChunksByBookId id apiKey s).2 = world s
  ∧ (∀ b, books (world s) !! id = Some b → User.apiKey (Book.user b) = apiKey →
          (getAllChunksByBookId id apiKey s).1
          = Done (map (λ r, BooksChunk.mk (BooksChunk.rowText r) (BooksChunk.rowIndex r) b)
                      (rowsOf (world s) id)))
  ∧ ((∀ b, books (world s) !! id = Some b → User.apiKey (Book.user b) ≠ apiKey) →
     (getAllChunksByBookId id apiKey s).1 = Done []).
Proof.
  intros Hr Hq. apply (reachable_consistent _ _ _ genId_inj) in Hr.
  unfold getAllChunksByBookId, query. rewrite Hq. cbn [fst snd world logged].
  unfold selectChunks. rewrite (selectChunks_rows _ _ _ _ Hr) by done.
  split; [done|]. split.
  - intros b Hb Hkey. rewrite (selectBook_spec _ _ _ _ Hb).
    by rewrite bool_decide_eq_true_2.
  - intros Hno. by rewrite selectBook_None_not_owner.
Qed.

Lemma joinChunks_texts (cs : list Chunk) :
  foldr String.append EmptyString (map chunk cs) = joinChunks cs.
Proof. clear genId_inj. induction cs as [|c cs IH]; [done|]. cbn. by rewrite IH. Qed.

(** X15. Upload, then read everything back.  After a [createBook] that
    met no rejection, [getAllChunksByBookId] with the owner's key returns
    the chunks [createBook] got from the splitter, with their indices;
    in the order of insertion, in which the store answers, the
    concatenation of their texts is the uploaded text. *)
Theorem createBook_then_getAllChunksByBookId (w : World) (payload : CreateBookDto) :
  reachable w →
  (∀ op, faults w op = false) →
  0 < User.chunkSize (dto_user payload) →
  ∃ split id w1,
    splitEveryN (bookText payload) (User.chunkSize (dto_user payload)) = inr split
    ∧ createBook genId defaultLastIndex payload w = (Ok id, w1)
    ∧ ∀ s, world s = w1 →
           queryFaults s (ChunkFind id (User.apiKey (dto_user payload))) = false →
           ∃ found,
             (getAllChunksByBookId id (User.apiKey (dto_user payload)) s).1 = Done found
             ∧ map BooksChunk.text found = map chunk (chunks split)
             ∧ map BooksChunk.index found = map chunkIndex (chunks split)
             ∧ foldr String.append EmptyString (map BooksChunk.text found)
               = bookText payload.
Proof.
  intros Hr Hfaults Hsize.
  apply (reachable_consistent _ _ _ genId_inj) in Hr.
  pose proof (createBook_consistent _ defaultLastIndex genId_inj payload w Hr) as Hc1.
  pose proof (createBook_run genId defaultLastIndex payload w Hsize) as Hrun.
  cbv zeta in Hrun. rewrite !Hfaults in Hrun. rewrite Hrun in Hc1. cbn [snd] in Hc1.
  set (n := Z.to_nat (User.chunkSize (dto_user payload))) in *.
  set (cs := map (chunkAt (bookText payload) n) _) in *.
  set (id := genId (idCounter w)) in *.
  set (w1 := set_chunkRows _ _) in *.
  exists (mkSplitResult cs (Z.of_nat (length cs))), id, w1.
  split. { rewrite splitEveryN_ok by done. subst cs. by rewrite length_map, length_seq. }
  split; [done|]. cbn [chunks].
  intros s Hs Hq.
  assert (rowsOf w1 id = chunksToInsert id cs) as Hrows.
  { unfold rowsOf, w1. cbn. by apply rowsOf_fresh_insert. }
  assert (books w1 !! id = Some (insertedBook defaultLastIndex id payload (Z.of_nat (length cs))))
    as Hbook by (cbn; apply lookup_insert_eq).
  unfold getAllChunksByBookId, query. rewrite Hq. cbn [fst snd world logged].
  rewrite Hs. unfold selectChunks. rewrite (selectChunks_rows _ _ _ _ Hc1) by done.
  rewrite (selectBook_spec _ _ _ _ Hbook).
  rewrite bool_decide_eq_true_2 by done. fold (rowsOf w1 id). rewrite Hrows.
  eexists. split; [reflexivity|]. unfold chunksToInsert.
  rewrite <- !list_fmap_compose.
  assert (map (BooksChunk.text ∘ _ ∘ _) cs = map chunk cs) as -> by done.
  split; [done|]. split; [done|].
  rewrite joinChunks_texts. subst cs. rewrite joinChunks_prefix.
  apply substring_whole, chunkCountOf_covers. lia.
Qed.

(** *** Uploading *)

Lemma countBooks_same_books (w w' : World) (tid : Z) :
  books w' = books w → countBooks w' tid = countBooks w tid.
Proof. clear genId_inj. intros Hb. autounfold with counting. by rewrite Hb. Qed.

Lemma countBooks_insert_fresh (w w' : World) (id : string) (row : Book.t) (tid : Z) :
  books w !! id = None →
  books w' = <[id := row]> (books w) →
  countBooks w' tid
  = (countBooks w tid + (if decide (telegramId (Book.user row) = tid) then 1 else 0))%nat.
Proof.
  clear genId_inj. intros Hfresh Hb. autounfold with counting. rewrite Hb.
  rewrite map_filter_insert. cbn [snd]. case_decide.
  - rewrite map_size_insert_None; [lia|].
    apply map_lookup_filter_None_2. by left.
  - rewrite delete_id by done. lia.
Qed.

(** The payload [uploadFile] hands to [createBook]. *)
Lemma uploadFile_run (key : string) (author : option string) (file : UploadedFile) (s : Site) :
  key ≠ EmptyString →
  let payload u :=
    mkCreateBookDto (originalname file) (Some (default "noname" author)) (buffer file) u in
  uploadFile (Some key) author file s
  = if bool_decide (mimetype file = "text/plain") then
      let s1 := logged (UserFindOne key) s in
      if queryFaults s (UserFindOne key) then (Failed (QueryRejected (UserFindOne key)), s1)
      else match List.find (λ u, bool_decide (User.apiKey u = key)) (users s) with
           | None => (Failed (Http (UnauthorizedException "we do not recognize you!")), s1)
           | Some u =>
               let s2 := logged (BookCount (telegramId u)) s1 in
               if queryFaults s (BookCount (telegramId u))
               then (Failed (QueryRejected (BookCount (telegramId u))), s2)
               else if bool_decide (booksLimit u ≤ Z.of_nat (countBooks (world s) (telegramId u)))
               then (Failed (Http (BadRequestException "books limit!")), s2)
               else match createBook genId defaultLastIndex (payload u) (world s) with
                    | (Ok id, w') =>
                        (Done (appUrl +:+ "/r/" +:+ id +:+ "/1?k=" +:+ key), set_world w' s2)
                    | (Throw e, w') =>
                        (Failed (Http (InternalServerErrorException "error in creating book!")),
                         set_world w' s2)
                    end
           end
    else (Failed (Http (BadRequestException
                          ("you need mimetype: text/plain. your file's mimetype is "
                           +:+ mimetype file))), s).
Proof.
  clear genId_inj. intros Hkey payload. autounfold with controller. unfold missingKey.
  rewrite bool_decide_eq_false_2 by done. cbv zeta.
  change (default EmptyString (Some key)) with key.
  case_bool_decide; [|reflexivity].
  unfold getByApiKey, getBooksCountByTelegramId, query, mbind, App_bind, raise,
    app_try_catch, liftIO, mret, App_ret.
  destruct (queryFaults s (UserFindOne key)); [reflexivity|]. cbn [users logged].
  destruct (find _ (users s)) as [u|]; [|reflexivity].
  cbn [queryFaults logged world].
  destruct (queryFaults s (BookCount (telegramId u))); [reflexivity|].
  case_bool_decide; [reflexivity|].
  subst payload. cbv beta. cbn [world logged].
  destruct (createBook genId defaultLastIndex _ (world s)) as [[id|e] w']; reflexivity.
Qed.

(** X16. A refused upload writes nothing.  Without a key the answer is
    401 and nothing at all happens; with a key and another mimetype than
    text/plain the answer is 400 and nothing at all happens, the key is
    not even looked up; and whenever [uploadFile] answers 401 or 400, or
    one of its two queries is rejected, the store and the cache are as
    before. *)
Theorem uploadFile_refusals
    (s : Site) (apiKey author : option string) (file : UploadedFile) :
  let r := uploadFile apiKey author file s in
  (missingKey apiKey = true →
   r = (Failed (Http (UnauthorizedException keyRequired)), s))
  ∧ (missingKey apiKey = false → mimetype file ≠ "text/plain" →
     r = (Failed (Http (BadRequestException
                          ("you need mimetype: text/plain. your file's mimetype is "
                           +:+ mimetype file))), s))
  ∧ ((∃ m, r.1 = Failed (Http (UnauthorizedException m)))
     ∨ (∃ m, r.1 = Failed (Http (BadRequestException m)))
     ∨ (∃ q, r.1 = Failed (QueryRejected q)) →
     world r.2 = world s).
Proof.
  clear genId_inj. cbv zeta.
  destruct (missingKey apiKey) eqn:Hmiss.
  { autounfold with controller. rewrite Hmiss. by repeat split. }
  destruct apiKey as [key|]; [|done]. cbn in Hmiss.
  apply bool_decide_eq_false_1 in Hmiss.
  rewrite (uploadFile_run key author file s Hmiss). cbv zeta.
  split; [done|]. split.
  { intros _ Hmime. by rewrite bool_decide_eq_false_2. }
  case_bool_decide; [|done].
  destruct (queryFaults s (UserFindOne key)); [done|].
  destruct (find _ (users s)) as [u|]; [|done].
  destruct (queryFaults s (BookCount (telegramId u))); [done|].
  case_bool_decide; [done|].
  destruct (createBook genId defaultLastIndex _ (world s)) as [[id|e] w'].
  - cbn. intros [[m ?]|[[m ?]|[q ?]]]; done.
  - cbn. intros [[m ?]|[[m ?]|[q ?]]]; done.
Qed.

(** What [createBook] does to the number of a user's books. *)
Lemma createBook_count (w : World) (payload : CreateBookDto) (tid : Z) :
  consistent w →
  let w' := (createBook genId defaultLastIndex payload w).2 in
  countBooks w' tid = countBooks w tid
  ∨ (telegramId (dto_user payload) = tid
     ∧ countBooks w' tid = S (countBooks w tid)).
Proof.
  intros Hc. cbv zeta.
  pose proof (fresh_id_no_book _ genId_inj w Hc) as Hfresh.
  destruct (decide (0 < User.chunkSize (dto_user payload))) as [Hsize|Hsize].
  2: { left. unfold createBook, splitEveryN. rewrite bool_decide_eq_true_2 by lia. done. }
  rewrite createBook_run by done.
  destruct (faults w (BookInsert (dto_title payload))); [by left|].
  assert (∀ w', books w' = <[genId (idCounter w) :=
                insertedBook defaultLastIndex (genId (idCounter w)) payload
                  (Z.of_nat (length (map (chunkAt (bookText payload)
                     (Z.to_nat (User.chunkSize (dto_user payload))))
                     (seq 0 (chunkCountOf (String.length (bookText payload))
                        (Z.to_nat (User.chunkSize (dto_user payload))))))))]> (books w) →
               countBooks w' tid = countBooks w tid
               ∨ (telegramId (dto_user payload) = tid
                  ∧ countBooks w' tid = S (countBooks w tid))) as Hcount.
  { intros w' Hb. rewrite (countBooks_insert_fresh w w' _ _ tid Hfresh Hb).
    cbn [Book.user insertedBook]. case_decide; [right; split; [done | lia] | left; lia]. }
  destruct (faults w (ChunkInsert _)); by apply Hcount.
Qed.

(** X17. An upload adds at most one book, and only to its own user.
    Whatever the request and whatever is rejected, [uploadFile] leaves
    the number of books of every user as it was, except that it may add
    one book to the user its key identifies.  (The limit is checked on
    the answer of one call and the row is inserted by another; nothing
    is said here of the count against the limit afterwards.) *)
Theorem uploadFile_adds_at_most_one
    (s : Site) (apiKey author : option string) (file : UploadedFile) (tid : Z) :
  reachable (world s) →
  let s' := (uploadFile apiKey author file s).2 in
  countBooks (world s') tid = countBooks (world s) tid
  ∨ ∃ key u,
      apiKey = Some key
      ∧ List.find (λ u, bool_decide (User.apiKey u = key)) (users s) = Some u
      ∧ telegramId u = tid
      ∧ countBooks (world s') tid = S (countBooks (world s) tid).
Proof.
  intros Hr. apply (reachable_consistent _ _ _ genId_inj) in Hr. cbv zeta.
  destruct (missingKey apiKey) eqn:Hmiss.
  { left. autounfold with controller. by rewrite Hmiss. }
  destruct apiKey as [key|]; [|done]. cbn in Hmiss.
  apply bool_decide_eq_false_1 in Hmiss.
  rewrite (uploadFile_run key author file s Hmiss). cbv zeta.
  case_bool_decide; [|by left].
  destruct (queryFaults s (UserFindOne key)); [by left|].
  destruct (find _ (users s)) as [u|] eqn:Hu; [|by left].
  destruct (queryFaults s (BookCount (telegramId u))); [by left|].
  case_bool_decide as Hlimit; [by left|].
  pose proof (createBook_count (world s)
    (mkCreateBookDto (originalname file) (Some (default "noname" author)) (buffer file) u)
    tid Hr) as Hcount.
  cbv zeta in Hcount.
  destruct (createBook genId defaultLastIndex _ (world s)) as [[id|e] w'];
    cbn [fst snd world set_world] in *.
  - destruct Hcount as [?|[Htid Hcount]]; [by left|]. right. exists key, u.
    cbn [dto_user] in Htid. by subst tid.
  - destruct Hcount as [?|[Htid Hcount]]; [by left|]. right. exists key, u.
    cbn [dto_user] in Htid. by subst tid.
Qed.

(** X18. An upload that gets as far as the insert of the document row
    counts against the limit, whether or not it succeeds.  For a known
    key, a text file, a user below the limit and accepted queries and
    document insert: the answer is the link [appUrl/r/<id>/1?k=<key>] to
    the new identifier when the chunk insert is accepted, and 500 "error
    in creating book!" when it is rejected; either way the document row
    (titled by the file name, with the author given or "noname") is
    stored and the user has one more book; after the 500 the document
    has no chunk. *)
Theorem uploadFile_counts_before_chunks
    (s : Site) (key : string) (author : option string) (file : UploadedFile) (u : User.t) :
  reachable (world s) →
  key ≠ EmptyString →
  mimetype file = "text/plain" →
  List.find (λ u, bool_decide (User.apiKey u = key)) (users s) = Some u →
  queryFaults s (UserFindOne key) = false →
  queryFaults s (BookCount (telegramId u)) = false →
  Z.of_nat (countBooks (world s) (telegramId u)) < booksLimit u →
  0 < User.chunkSize u →
  faults (world s) (BookInsert (originalname file)) = false →
  let r := uploadFile (Some key) author file s in
  let id := genId (idCounter (world s)) in
  (r.1 = Done (appUrl +:+ "/r/" +:+ id +:+ "/1?k=" +:+ key)
   ∨ r.1 = Failed (Http (InternalServerErrorException "error in creating book!"))
     ∧ rowsOf (world r.2) id = [])
  ∧ countBooks (world r.2) (telegramId u) = S (countBooks (world s) (telegramId u))
  ∧ ∃ row, books (world r.2) !! id = Some row
           ∧ Book.title row = originalname file
           ∧ Book.author row = Some (default "noname" author)
           ∧ Book.user row = u.
Proof.
  intros Hr Hkey Hmime Hu Hq1 Hq2 Hlimit Hsize Hbook. cbv zeta.
  apply (reachable_consistent _ _ _ genId_inj) in Hr.
  pose proof (fresh_id_no_book _ genId_inj _ Hr) as Hfresh.
  pose proof (fresh_id_no_rows _ genId_inj _ Hr) as Hrows.
  rewrite (uploadFile_run key author file s Hkey). cbv zeta.
  rewrite (bool_decide_eq_true_2 _ Hmime), Hq1, Hu, Hq2.
  rewrite bool_decide_eq_false_2 by lia.
  rewrite createBook_run by done. cbv zeta. cbn [dto_title dto_user bookText].
  rewrite Hbook.
  destruct (faults (world s) (ChunkInsert _));
    cbn [fst snd world set_world logged]; (split; [|split]).
  - right. split; [done|]. exact Hrows.
  - erewrite countBooks_insert_fresh; [|exact Hfresh|reflexivity].
    cbn [Book.user insertedBook dto_user]. rewrite decide_True by done. lia.
  - eexists. split; [apply lookup_insert_eq|]. done.
  - by left.
  - erewrite countBooks_insert_fresh; [|exact Hfresh|reflexivity].
    cbn [Book.user insertedBook dto_user]. rewrite decide_True by done. lia.
  - eexists. split; [apply lookup_insert_eq|]. done.
Qed.

(** *** Deleting and the limit *)

Lemma countBooks_delete (w w' : World) (id : string) (b : Book.t) (tid : Z) :
  books w !! id = Some b →
  books w' = delete id (books w) →
  countBooks w tid
  = (countBooks w' tid + (if decide (telegramId (Book.user b) = tid) then 1 else 0))%nat.
Proof.
  clear genId_inj. intros Hb Hw'. autounfold with counting. rewrite Hw'.
  rewrite map_filter_delete. case_decide as Htid.
  - rewrite map_size_delete_Some; [|eexists; by apply map_lookup_filter_Some_2].
    assert (size (filter (λ kb : string * Book.t, telegramId (Book.user kb.2) = tid) (books w))
            ≠ 0)%nat; [|lia].
    intros Hzero%map_size_empty_inv.
    assert (filter (λ kb : string * Book.t, telegramId (Book.user kb.2) = tid) (books w) !! id
            = Some b) as Hin by (by apply map_lookup_filter_Some_2).
    by rewrite Hzero in Hin.
  - rewrite delete_id; [lia|].
    apply map_lookup_filter_None_2. right. intros b' Hb'. by simplify_eq.
Qed.

(** X21. Deleting and the limit.  When [deleteBookById] answers
    [result: true] to the owner, the owner has one book less, no other
    user's count changes, and [getAllChunksByBookId] finds no chunk of
    the document for any key.  When it answers [result: false] the count
    of every user is as before -- the document still counts against the
    limit, whether or not its chunks were deleted. *)
Theorem deleteBookById_and_limit (w : World) (id apiKey : string) (b : Book.t) :
  reachable w →
  books w !! id = Some b →
  User.apiKey (Book.user b) = apiKey →
  faults w (BookFindOne id apiKey) = false →
  let r := deleteBookById id apiKey w in
  (r.1 = Ok (Some b, true) ∨ r.1 = Ok (Some b, false))
  ∧ (r.1 = Ok (Some b, true) →
     (∀ tid, countBooks w tid
             = (countBooks r.2 tid
                + (if decide (telegramId (Book.user b) = tid) then 1 else 0))%nat)
     ∧ ∀ s key, world s = r.2 → queryFaults s (ChunkFind id key) = false →
                (getAllChunksByBookId id key s).1 = Done [])
  ∧ (r.1 = Ok (Some b, false) → ∀ tid, countBooks r.2 tid = countBooks w tid).
Proof.
  intros Hr Hb Hkey Hfind. cbv zeta.
  apply (reachable_consistent _ _ _ genId_inj) in Hr.
  pose proof (deleteBookById_consistent genId id apiKey w Hr) as Hc'.
  destruct (books_keyed _ _ Hr _ _ Hb) as [Hid _].
  revert Hc'. rewrite deleteBookById_run, Hfind. cbv zeta.
  rewrite (selectBook_spec _ _ _ _ Hb), (bool_decide_eq_true_2 _ Hkey), Hid.
  destruct (faults w (ChunkDelete id)); [|destruct (faults w (BookDelete id))];
    cbn [fst snd]; intros Hc'.
  - split; [by right|]. split; [done|]. intros _ tid. by apply countBooks_same_books.
  - split; [by right|]. split; [done|]. intros _ tid. by apply countBooks_same_books.
  - split; [by left|]. split; [|done]. intros _. split.
    + intros tid. by apply (countBooks_delete w _ id b tid Hb).
    + intros s key Hs Hq. unfold getAllChunksByBookId, query. rewrite Hq.
      cbn [fst world logged]. unfold selectChunks. rewrite Hs.
      rewrite (selectChunks_rows _ _ _ _ Hc') by done.
      rewrite selectBook_None_not_owner; [done|].
      intros b'. cbn [books set_books record set_chunkRows]. by rewrite lookup_delete_eq.
Qed.

(** *** Rendering a page *)

(** A page read that is rejected early or finds nothing returns no
    view. *)
Lemma getPageByBookId_early_result
    (w : World) (id : string) (page : Z) (apiKey : string) (save : bool) :
  faults w (CacheGet (pageKey id page)) = true
  ∨ (cache w !! pageKey id page = None ∧ faults w (ChunkFindOne id page apiKey) = true)
  ∨ resolved w id page apiKey = None →
  ∀ view, (getPageByBookId id page apiKey save w).1 ≠ Ok (Some view).
Proof.
  clear genId_inj. intros Hearly.
  change (ensures (getPageByBookId id page apiKey save) w
            (λ r _, ∀ view, r ≠ Ok (Some view))).
  unfold getPageByBookId.
  apply ensures_bind, ensures_await; [done | intros Hget].
  cbn [fst snd cache record]. unfold resolved in Hearly.
  destruct (cache w !! pageKey id page) as [e|] eqn:Hcache.
  { destruct Hearly as [?|[[? _]|?]]; congruence. }
  cbn [fmap option_fmap option_map].
  apply ensures_bind, ensures_bind, ensures_await; [done | cbn [faults record]; intros Hfind].
  cbn [fst snd].
  change (selectChunk (record _ (record _ w)) id page apiKey)
    with (selectChunk w id page apiKey).
  destruct Hearly as [?|[[_ ?]|Hnone]]; [congruence..|].
  rewrite Hnone. done.
Qed.

(** The chunk a page read works with is a chunk of the document and the
    page asked for. *)
Lemma resolved_identity (w : World) (id : string) (page : Z) (apiKey : string)
    (c : BooksChunk.t) :
  consistent w → resolved w id page apiKey = Some c →
  Book.id (BooksChunk.book c) = id ∧ BooksChunk.index c = page.
Proof.
  clear genId_inj. intros Hc. unfold resolved.
  destruct (cache w !! pageKey id page) as [e|] eqn:Hcache.
  - intros [= <-]. destruct (cache_keyed _ _ Hc _ _ Hcache) as [Hkey _].
    apply pageKey_inj in Hkey as [<- <-]. done.
  - intros Hsel.
    destruct (selectChunk_row _ _ _ _ _ _ Hc Hsel) as (_ & _ & _ & _ & _ & Hidx & _ & Hid & _).
    done.
Qed.

Lemma getPageByBookId_returns
    (w : World) (id : string) (page : Z) (apiKey : string) (save : bool) :
  consistent w →
  match (getPageByBookId id page apiKey save w).1 with
  | Ok (Some view) => bookId view = id ∧ currentPage view = page
  | Ok None =>
      books (getPageByBookId id page apiKey save w).2 = books w
      ∧ cache (getPageByBookId id page apiKey save w).2 = cache w
  | Throw e => ∃ op, e = Rejected op
  end.
Proof.
  clear genId_inj. intros Hc.
  destruct (getPageByBookId_kinds w id page apiKey) as [Hearly|(Hget & Hfind & c & Hres)].
  - pose proof (getPageByBookId_early_result w id page apiKey save Hearly) as Hno.
    destruct (getPageByBookId_world_early w id page apiKey save Hearly) as (Hb & Hcache & _).
    destruct (getPageByBookId id page apiKey save w).1 as [[view|]|e] eqn:Hres.
    + by destruct (Hno view).
    + done.
    + revert Hres.
      change (ensures (getPageByBookId id page apiKey save) w
                (λ r _, r = Throw e → ∃ op, e = Rejected op)).
      unfold getPageByBookId.
      apply ensures_bind, ensures_await; [intros _ [= <-]; by eexists | intros Hget].
      cbn [fst snd cache record]. unfold resolved in Hearly.
      destruct (cache w !! pageKey id page) as [e0|] eqn:Hc0.
      { destruct Hearly as [?|[[? _]|?]]; congruence. }
      cbn [fmap option_fmap option_map].
      apply ensures_bind, ensures_bind, ensures_await;
        [intros _ [= <-]; by eexists | cbn [faults record]; intros Hfind].
      cbn [fst snd].
      change (selectChunk (record _ (record _ w)) id page apiKey)
        with (selectChunk w id page apiKey).
      destruct Hearly as [?|[[_ ?]|Hnone]]; [congruence..|].
      rewrite Hnone. done.
  - rewrite (getPageByBookId_found w id page apiKey save c Hget Hfind Hres).
    destruct (resolved_identity w id page apiKey c Hc Hres) as [Hid Hidx].
    unfold pageOutcome.
    repeat case_match; simplify_eq; try (by eexists); by cbn.
Qed.

(** X19. [getBookPage] answers 401 when the key is missing and raises
    no HTTP exception otherwise.  The page it renders is the page asked
    for, and its links stay in the document asked for: [back] leads to
    the page before (to page 1 from page 1), [next] to the page after,
    whatever the page range is.  When it renders the not-found view, the
    documents and the cache are as before. *)
Theorem getBookPage_links (s : Site) (bookIdParam page : Z) (apiKey : option string) :
  reachable (world s) →
  let r := getBookPage bookIdParam page apiKey s in
  let k := "?k=" +:+ default EmptyString apiKey in
  let link p := appUrl +:+ "/r/" +:+ pretty bookIdParam +:+ "/" +:+ pretty p +:+ k in
  (missingKey apiKey = true →
   r = (Failed (Http (UnauthorizedException keyRequired)), s))
  ∧ (missingKey apiKey = false →
     (∀ e, r.1 ≠ Failed (Http e))
     ∧ (∀ view main back next, r.1 = Done (PageFound view main back next) →
          bookId view = pretty bookIdParam
          ∧ currentPage view = page
          ∧ main = appUrl +:+ k
          ∧ back = link (if bool_decide (page = 1) then 1 else page - 1)
          ∧ next = link (page + 1))
     ∧ (∀ main title text, r.1 = Done (PageNotFound main title text) →
          main = appUrl +:+ k
          ∧ books (world r.2) = books (world s)
          ∧ cache (world r.2) = cache (world s))).
Proof.
  intros Hr. apply (reachable_consistent _ _ _ genId_inj) in Hr. cbv zeta.
  autounfold with controller.
  destruct (missingKey apiKey) eqn:Hmiss; (split; [done|]); [done|]. intros _.
  pose proof (getPageByBookId_returns (world s) (pretty bookIdParam) page
                (default EmptyString apiKey) true Hr) as Hret.
  unfold mbind, App_bind, liftIO, mret, App_ret, pageLink.
  destruct (getPageByBookId _ page _ true (world s)) as [[[view|]|e] w'];
    cbn [fst snd world set_world] in *.
  - destruct Hret as [Hid Hpage]. split; [done|]. split; [|done].
    intros view' main back next [= <- <- <- <-]. rewrite Hid.
    repeat split; try done. case_bool_decide as Hone; [by rewrite Hone|done].
  - destruct Hret as [Hb Hcache]. split; [done|]. split; [done|].
    by intros main title text [= <- _ _].
  - destruct Hret as [op ->]. done.
Qed.

End AppProperties.

(** ** Titles *)

Lemma removeDotTxt_cons (c : ascii) (tl : string) :
  removeDotTxt (String c tl)
  = match tl with
    | String a1 (String a2 (String a3 rest)) =>
        if bool_decide (a1 = "t"%char) && bool_decide (a2 = "x"%char)
           && bool_decide (a3 = "t"%char) && negb (isLineTerminator c)
        then removeDotTxt rest
        else String c (removeDotTxt tl)
    | _ => String c (removeDotTxt tl)
    end.
Proof.
  destruct tl as [|a1 t1].
  { reflexivity. }
  destruct (decide (a1 = "t"%char)) as [->|H1].
  2: { assert (removeDotTxt (String c (String a1 t1)) = String c (removeDotTxt (String a1 t1))) as ->.
       { destruct a1 as [[] [] [] [] [] [] [] []]; try reflexivity. done. }
       destruct t1 as [|a2 [|a3 rest]]; try reflexivity.
       by rewrite (bool_decide_eq_false_2 _ H1). }
  destruct t1 as [|a2 t2]; [reflexivity|].
  destruct (decide (a2 = "x"%char)) as [->|H2].
  2: { assert (removeDotTxt (String c (String "t" (String a2 t2)))
               = String c (removeDotTxt (String "t" (String a2 t2)))) as ->.
       { destruct a2 as [[] [] [] [] [] [] [] []]; try reflexivity. done. }
       destruct t2 as [|a3 rest]; try reflexivity.
       by rewrite (bool_decide_eq_false_2 _ H2), andb_false_r. }
  destruct t2 as [|a3 rest]; [reflexivity|].
  destruct (decide (a3 = "t"%char)) as [->|H3].
  2: { rewrite (bool_decide_eq_false_2 _ H3), andb_false_r. cbn [andb].
       destruct a3 as [[] [] [] [] [] [] [] []]; try reflexivity. done. }
  rewrite !bool_decide_eq_true_2 by done. cbn [andb].
  change (removeDotTxt (String c (String "t" (String "x" (String "t" rest))))) with
    (if isLineTerminator c then String c (removeDotTxt (String "t" (String "x" (String "t" rest))))
     else removeDotTxt rest).
  by destruct (isLineTerminator c).
Qed.

Lemma removeDotTxt_length (n : nat) (s : string) :
  (String.length s ≤ n)%nat → (String.length (removeDotTxt s) ≤ String.length s)%nat.
Proof.
  revert s. induction n as [|n IH]; intros s Hn.
  { destruct s; [done | cbn in Hn; lia]. }
  destruct s as [|c tl]; [done|]. cbn [String.length] in Hn.
  rewrite removeDotTxt_cons.
  assert (String.length (String c (removeDotTxt tl)) ≤ String.length (String c tl))%nat as Hdef.
  { cbn [String.length]. specialize (IH tl). lia. }
  destruct tl as [|a1 [|a2 [|a3 rest]]]; try exact Hdef.
  case_match; [|exact Hdef].
  cbn [String.length] in *. specialize (IH rest). lia.
Qed.

(** No match of the pattern: the title is left as it is. *)
Lemma removeDotTxt_extension (base : string) :
  removeDotTxt base = base → removeDotTxt (base +:+ ".txt") = base.
Proof.
  induction base as [|c tl IH]; [reflexivity|].
  rewrite removeDotTxt_cons. intros Hfix.
  change (String c tl +:+ ".txt") with (String c (tl +:+ ".txt")).
  rewrite removeDotTxt_cons.
  destruct tl as [|a1 [|a2 [|a3 rest]]].
  - reflexivity.
  - change (String a1 EmptyString +:+ ".txt") with (String a1 (String "." (String "t" (String "x" "t")))).
    cbv beta iota. change (bool_decide ("."%char = "x"%char)) with false.
    rewrite andb_false_r. cbn [andb].
    f_equal; try (apply IH; by injection Hfix).
  - change (String a1 (String a2 EmptyString) +:+ ".txt")
      with (String a1 (String a2 (String "." (String "t" (String "x" "t"))))).
    cbv beta iota. change (bool_decide ("."%char = "t"%char)) with false.
    rewrite andb_false_r. cbn [andb].
    f_equal; try (apply IH; by injection Hfix).
  - change (String a1 (String a2 (String a3 rest)) +:+ ".txt")
      with (String a1 (String a2 (String a3 (rest +:+ ".txt")))).
    cbv beta iota in Hfix |- *.
    destruct (bool_decide (a1 = "t"%char) && bool_decide (a2 = "x"%char)
              && bool_decide (a3 = "t"%char) && negb (isLineTerminator c)) eqn:Hm.
    + exfalso. pose proof (removeDotTxt_length _ rest (le_n _)) as Hlen.
      rewrite Hfix in Hlen. cbn [String.length] in Hlen. lia.
    + f_equal. apply IH. by injection Hfix.
Qed.

Section Titles.

Variable genId : nat → string.
Variable defaultLastIndex : Z.
Variable appUrl : string.
Hypothesis genId_inj : ∀ n m, genId n = genId m → n = m.

(** X20. What the owner sees of a document.  For a stored document whose
    title is a name followed by [.txt], where the pattern [/.txt/] has no
    match in the name itself, [getBookById] shows the name without the
    extension and keeps the full title as [fileName]; its two links lead
    to page 1 and to the page in [lastIndex] of this document, with the
    caller's key.  The listing of [getAll] shows the same title.  The
    call only reads. *)
Theorem getBookById_strips_extension (w : World) (id apiKey base : string) (b : Book.t) :
  reachable genId defaultLastIndex appUrl w →
  books w !! id = Some b →
  User.apiKey (Book.user b) = apiKey →
  faults w (BookFindOne id apiKey) = false →
  Book.title b = base +:+ ".txt" →
  removeDotTxt base = base →
  (∃ dto, (getBookById appUrl id apiKey w).1 = Ok (Some dto)
          ∧ gb_id dto = id
          ∧ gb_title dto = base
          ∧ fileName dto = Some (base +:+ ".txt")
          ∧ begginLink dto = appUrl +:+ "/r/" +:+ id +:+ "/1?k=" +:+ apiKey
          ∧ continousLink dto
            = appUrl +:+ "/r/" +:+ id +:+ "/" +:+ pretty (Book.lastIndex b) +:+ "?k=" +:+ apiKey)
  ∧ (∀ key skip begginT continousT index,
       gb_title (getAllItem appUrl key skip begginT continousT index b) = base)
  ∧ books (getBookById appUrl id apiKey w).2 = books w
  ∧ chunkRows (getBookById appUrl id apiKey w).2 = chunkRows w
  ∧ cache (getBookById appUrl id apiKey w).2 = cache w.
Proof.
  intros Hr Hb Hkey Hfind Htitle Hbase.
  apply (reachable_consistent _ _ _ genId_inj) in Hr.
  destruct (books_keyed _ _ Hr _ _ Hb) as [Hid _].
  assert (selectBook w id apiKey = Some b) as Hsel.
  { unfold selectBook. rewrite Hb. cbn. by rewrite bool_decide_eq_true_2. }
  split; [|split].
  - unfold getBookById, bookRepository_findOne, mbind, IO_bind, mret, IO_ret, await.
    rewrite Hfind.
    change (selectBook (record _ w) id apiKey) with (selectBook w id apiKey).
    rewrite Hsel. eexists. split; [reflexivity|].
    cbn [gb_id gb_title fileName begginLink continousLink]. unfold bookLink.
    rewrite Hid, Htitle, (removeDotTxt_extension base Hbase). done.
  - intros. cbn [gb_title getAllItem]. by rewrite Htitle, removeDotTxt_extension.
  - unfold getBookById, bookRepository_findOne, mbind, IO_bind, mret, IO_ret, await.
    destruct (faults w (BookFindOne id apiKey)); [done|].
    change (selectBook (record _ w) id apiKey) with (selectBook w id apiKey).
    by destruct (selectBook w id apiKey).
Qed.

End Titles.

(** ** The properties on the concrete instance *)

Section SampleRuns.

Local Abbreviation sampleReachable := (reachable sampleGenId 0 sampleAppUrl).

Lemma uploaded_no_faults (op : Op) : faults uploaded op = false.
Proof. reflexivity. Qed.

Lemma uploaded_book : books uploaded !! "b0" = Some sampleBook.
Proof. vm_compute. reflexivity. Qed.

Lemma readPage1_reachable : sampleReachable readPage1.
Proof.
  eapply rtc_r; [apply uploaded_reachable|].
  exact (step_getPageByBookId sampleGenId 0 sampleAppUrl "b0" 1 "KEY-A" true uploaded).
Qed.

Lemma decimalGenId_inj (n m : nat) : decimalGenId n = decimalGenId m → n = m.
Proof. apply (inj pretty). Qed.

Lemma getPageByBookId_warms_cache_witness :
  (∀ op, faults uploaded op = false)
  ∧ resolved uploaded "b0" 0 "KEY-A" = Some samplePage0
  ∧ value <$> cache cachedByOwner !! pageKey "b0" 0 = Some samplePage0
  ∧ (cache uploaded !! pageKey "b0" 0 = None →
     ttl <$> cache cachedByOwner !! pageKey "b0" 0 = Some (Some 3600))
  ∧ ∀ n, selectChunk uploaded "b0" (0 + 1) "KEY-A" = Some n →
         ∃ e, cache cachedByOwner !! pageKey "b0" (0 + 1) = Some e
              ∧ (cache uploaded !! pageKey "b0" (0 + 1) = None →
                 ttl e = None
                 ∧ BooksChunk.text (value e) = BooksChunk.text n
                 ∧ BooksChunk.index (value e) = BooksChunk.index n).
Proof.
  assert (resolved uploaded "b0" 0 "KEY-A" = Some samplePage0) as Hres
    by (vm_compute; reflexivity).
  split; [exact uploaded_no_faults|]. split; [exact Hres|].
  exact (getPageByBookId_warms_cache uploaded "b0" 0 "KEY-A" true samplePage0
           uploaded_no_faults Hres).
Defined.

Lemma getPageByBookId_repeatable_witness :
  (∀ op, faults uploaded op = false)
  ∧ resolved uploaded "b0" 0 "KEY-A" = Some samplePage0
  ∧ (getPageByBookId "b0" 0 "KEY-A" true uploaded).1 = Ok (Some (pageView 0 samplePage0))
  ∧ ∀ (apiKey' : string) (save' : bool),
      (getPageByBookId "b0" 0 apiKey' save' cachedByOwner).1
      = Ok (Some (pageView 0 samplePage0)).
Proof.
  assert (resolved uploaded "b0" 0 "KEY-A" = Some samplePage0) as Hres
    by (vm_compute; reflexivity).
  split; [exact uploaded_no_faults|]. split; [exact Hres|].
  exact (getPageByBookId_repeatable uploaded "b0" 0 "KEY-A" true samplePage0
           uploaded_no_faults Hres).
Defined.

Lemma getPageByBookId_saves_progress_witness :
  sampleReachable uploaded
  ∧ books uploaded !! "b0" = Some sampleBook
  ∧ cache uploaded !! pageKey "b0" 1 = None
  ∧ selectChunk uploaded "b0" 1 "KEY-A" = Some samplePage1
  ∧ books readPage1 !! "b0" = Some (Book.with_lastIndex 1 sampleBook).
Proof.
  assert (cache uploaded !! pageKey "b0" 1 = None) as Hcache by (vm_compute; reflexivity).
  assert (selectChunk uploaded "b0" 1 "KEY-A" = Some samplePage1) as Hsel
    by (vm_compute; reflexivity).
  split; [exact uploaded_reachable|]. split; [exact uploaded_book|].
  split; [exact Hcache|]. split; [exact Hsel|].
  exact (getPageByBookId_saves_progress sampleGenId 0 sampleAppUrl sampleGenId_inj
           uploaded "b0" 1 "KEY-A" sampleBook samplePage1
           uploaded_reachable uploaded_book Hcache Hsel eq_refl eq_refl eq_refl).
Defined.

Lemma getPageByBookId_hit_uses_snapshot_witness :
  cache cachedByOwner !! pageKey "b0" 0 = Some (mkCacheEntry samplePage0 (Some 3600))
  ∧ (BookUpdate "b0" 0 ∈ issued (getPageByBookId "b0" 0 "KEY-M" true) cachedByOwner
     ↔ true = true ∧ 0 ≠ Book.lastIndex sampleBook)
  ∧ (0 = Book.lastIndex sampleBook →
     books (getPageByBookId "b0" 0 "KEY-M" true cachedByOwner).2 = books cachedByOwner).
Proof.
  assert (cache cachedByOwner !! pageKey "b0" 0 = Some (mkCacheEntry samplePage0 (Some 3600)))
    as Hcache by (vm_compute; reflexivity).
  split; [exact Hcache|].
  exact (getPageByBookId_hit_uses_snapshot cachedByOwner "b0" 0 "KEY-M" true
           (mkCacheEntry samplePage0 (Some 3600)) Hcache eq_refl).
Defined.

Lemma getPageByBookId_warm_read_witness :
  cache cachedByOwner !! pageKey "b0" 0 = Some (mkCacheEntry samplePage0 (Some 3600))
  ∧ cache cachedByOwner !! pageKey "b0" (0 + 1) = Some (mkCacheEntry samplePage1 None)
  ∧ ∀ op, op ∈ issued (getPageByBookId "b0" 0 "KEY-A" true) cachedByOwner →
          op = CacheGet (pageKey "b0" 0)
          ∨ op = CacheGet (pageKey "b0" (0 + 1))
          ∨ op = BookUpdate "b0" 0.
Proof.
  assert (cache cachedByOwner !! pageKey "b0" 0 = Some (mkCacheEntry samplePage0 (Some 3600)))
    as Hcache by (vm_compute; reflexivity).
  assert (cache cachedByOwner !! pageKey "b0" (0 + 1) = Some (mkCacheEntry samplePage1 None))
    as Hnext by (vm_compute; reflexivity).
  split; [exact Hcache|]. split; [exact Hnext|].
  exact (getPageByBookId_warm_read cachedByOwner "b0" 0 "KEY-A" true _ _ Hcache Hnext eq_refl).
Defined.

Lemma not_owner_not_found_witness :
  sampleReachable uploaded
  ∧ (∀ b, books uploaded !! "b0" = Some b → User.apiKey (Book.user b) ≠ "KEY-M")
  ∧ (getPageByBookId "b0" 0 "KEY-M" true uploaded).1 = Ok None
  ∧ (getBookById sampleAppUrl "b0" "KEY-M" uploaded).1 = Ok None
  ∧ (deleteBookById "b0" "KEY-M" uploaded).1 = Ok (None, false)
  ∧ books (deleteBookById "b0" "KEY-M" uploaded).2 = books uploaded.
Proof.
  assert (∀ b, books uploaded !! "b0" = Some b → User.apiKey (Book.user b) ≠ "KEY-M")
    as Hno.
  { intros b Hb. rewrite uploaded_book in Hb. injection Hb as <-. discriminate. }
  split; [exact uploaded_reachable|]. split; [exact Hno|].
  destruct (not_owner_not_found sampleGenId 0 sampleAppUrl sampleGenId_inj
              uploaded "b0" "KEY-M" 0 true uploaded_reachable Hno) as [Hpage Hbook].
  destruct (Hpage eq_refl eq_refl eq_refl) as (Hnone & _).
  destruct (Hbook eq_refl) as (Hget & Hdel & Hbooks & _).
  split; [exact Hnone|]. split; [exact Hget|]. split; [exact Hdel|]. exact Hbooks.
Defined.

Lemma deleteBookById_outcomes_witness :
  sampleReachable uploaded
  ∧ books uploaded !! "b0" = Some sampleBook
  ∧ User.apiKey (Book.user sampleBook) = "KEY-A"
  ∧ (deleteBookById "b0" "KEY-A" uploaded).1 = Ok (Some sampleBook, true)
  ∧ rowsOf deletedByOwner "b0" = []
  ∧ books deletedByOwner !! "b0" = None.
Proof.
  split; [exact uploaded_reachable|]. split; [exact uploaded_book|]. split; [reflexivity|].
  exact (deleteBookById_outcomes sampleGenId 0 sampleAppUrl sampleGenId_inj
           uploaded "b0" "KEY-A" sampleBook uploaded_reachable uploaded_book eq_refl eq_refl).
Defined.

Lemma deleteBookById_frame_witness :
  sampleReachable uploaded
  ∧ cache deletedByOwner = cache uploaded
  ∧ idCounter deletedByOwner = idCounter uploaded
  ∧ ∀ id', id' ≠ "b0" →
           books deletedByOwner !! id' = books uploaded !! id'
           ∧ rowsOf deletedByOwner id' = rowsOf uploaded id'.
Proof.
  split; [exact uploaded_reachable|].
  exact (deleteBookById_frame sampleGenId 0 sampleAppUrl sampleGenId_inj
           uploaded "b0" "KEY-A" uploaded_reachable).
Defined.

Lemma createBook_frame_witness :
  sampleReachable uploaded
  ∧ books uploaded !! sampleGenId (idCounter uploaded) = None
  ∧ rowsOf uploaded (sampleGenId (idCounter uploaded)) = []
  ∧ (∀ page, cache uploaded !! pageKey (sampleGenId (idCounter uploaded)) page = None)
  ∧ cache (createBook sampleGenId 0 shortPayload uploaded).2 = cache uploaded
  ∧ ∀ id', id' ≠ sampleGenId (idCounter uploaded) →
           books (createBook sampleGenId 0 shortPayload uploaded).2 !! id'
           = books uploaded !! id'
           ∧ rowsOf (createBook sampleGenId 0 shortPayload uploaded).2 id'
             = rowsOf uploaded id'.
Proof.
  split; [exact uploaded_reachable|].
  exact (createBook_frame sampleGenId 0 sampleAppUrl sampleGenId_inj
           uploaded shortPayload uploaded_reachable).
Defined.

Lemma document_immutable_witness :
  sampleReachable uploaded
  ∧ rtc (step sampleGenId 0 sampleAppUrl) uploaded readPage1
  ∧ books uploaded !! "b0" = Some sampleBook
  ∧ books readPage1 !! "b0" = Some (Book.with_lastIndex 1 sampleBook)
  ∧ sameDocument sampleBook (Book.with_lastIndex 1 sampleBook)
  ∧ (rowsOf readPage1 "b0" = rowsOf uploaded "b0" ∨ rowsOf readPage1 "b0" = []).
Proof.
  assert (rtc (step sampleGenId 0 sampleAppUrl) uploaded readPage1) as Hstep.
  { apply rtc_once.
    exact (step_getPageByBookId sampleGenId 0 sampleAppUrl "b0" 1 "KEY-A" true uploaded). }
  assert (books readPage1 !! "b0" = Some (Book.with_lastIndex 1 sampleBook)) as Hb'
    by (vm_compute; reflexivity).
  split; [exact uploaded_reachable|]. split; [exact Hstep|]. split; [exact uploaded_book|].
  split; [exact Hb'|].
  exact (document_immutable sampleGenId 0 sampleAppUrl sampleGenId_inj
           uploaded readPage1 "b0" sampleBook (Book.with_lastIndex 1 sampleBook)
           uploaded_reachable Hstep uploaded_book Hb').
Defined.

Lemma deleted_document_stays_deleted_witness :
  sampleReachable uploaded
  ∧ rtc (step sampleGenId 0 sampleAppUrl) uploaded deletedByOwner
  ∧ rtc (step sampleGenId 0 sampleAppUrl) deletedByOwner uploadedAgain
  ∧ books uploaded !! "b0" = Some sampleBook
  ∧ books deletedByOwner !! "b0" = None
  ∧ books uploadedAgain !! "b0" = None.
Proof.
  assert (rtc (step sampleGenId 0 sampleAppUrl) uploaded deletedByOwner) as Hdel.
  { apply rtc_once.
    exact (step_deleteBookById sampleGenId 0 sampleAppUrl "b0" "KEY-A" uploaded). }
  assert (rtc (step sampleGenId 0 sampleAppUrl) deletedByOwner uploadedAgain) as Hup.
  { apply rtc_once.
    exact (step_createBook sampleGenId 0 sampleAppUrl shortPayload deletedByOwner). }
  assert (books deletedByOwner !! "b0" = None) as Hgone by (vm_compute; reflexivity).
  split; [exact uploaded_reachable|]. split; [exact Hdel|]. split; [exact Hup|].
  split; [exact uploaded_book|]. split; [exact Hgone|].
  exact (deleted_document_stays_deleted sampleGenId 0 sampleAppUrl sampleGenId_inj
           uploaded deletedByOwner uploadedAgain "b0" sampleBook
           uploaded_reachable Hdel Hup uploaded_book Hgone).
Defined.

Lemma percent_in_range_witness :
  0 < Book.totalIndex (Book.with_lastIndex 1 sampleBook)
  ∧ 0 ≤ Book.lastIndex (Book.with_lastIndex 1 sampleBook)
        ≤ Book.totalIndex (Book.with_lastIndex 1 sampleBook)
  ∧ percentNumber (Book.with_lastIndex 1 sampleBook) = Num (inject_Z 33)
  ∧ percentText (Book.with_lastIndex 1 sampleBook) = "33 %".
Proof.
  assert (0 < Book.totalIndex (Book.with_lastIndex 1 sampleBook)) as Htotal
    by (vm_compute; reflexivity).
  assert (0 ≤ Book.lastIndex (Book.with_lastIndex 1 sampleBook)
            ≤ Book.totalIndex (Book.with_lastIndex 1 sampleBook)) as Hlast
    by (split; vm_compute; discriminate).
  split; [exact Htotal|]. split; [exact Hlast|].
  destruct (percent_in_range (Book.with_lastIndex 1 sampleBook) Htotal Hlast)
    as (Hnum & Htext & _).
  split; [exact Hnum | exact Htext].
Defined.

Lemma getAllChunksByBookId_rows_witness :
  sampleReachable (world sampleSite)
  ∧ queryFaults sampleSite (ChunkFind "b0" "KEY-A") = false
  ∧ world (getAllChunksByBookId "b0" "KEY-A" sampleSite).2 = world sampleSite
  ∧ (∀ b, books (world sampleSite) !! "b0" = Some b →
          User.apiKey (Book.user b) = "KEY-A" →
          (getAllChunksByBookId "b0" "KEY-A" sampleSite).1
          = Done (map (λ r, BooksChunk.mk (BooksChunk.rowText r) (BooksChunk.rowIndex r) b)
                      (rowsOf (world sampleSite) "b0")))
  ∧ ((∀ b, books (world sampleSite) !! "b0" = Some b →
           User.apiKey (Book.user b) ≠ "KEY-A") →
     (getAllChunksByBookId "b0" "KEY-A" sampleSite).1 = Done []).
Proof.
  split; [exact uploaded_reachable|]. split; [reflexivity|].
  exact (getAllChunksByBookId_rows sampleGenId 0 sampleAppUrl sampleGenId_inj
           sampleSite "b0" "KEY-A" uploaded_reachable eq_refl).
Defined.

Lemma createBook_then_getAllChunksByBookId_witness :
  sampleReachable emptyWorld
  ∧ (∀ op, faults emptyWorld op = false)
  ∧ 0 < User.chunkSize (dto_user samplePayload)
  ∧ ∃ split id w1,
      splitEveryN (bookText samplePayload) (User.chunkSize (dto_user samplePayload))
      = inr split
      ∧ createBook sampleGenId 0 samplePayload emptyWorld = (Ok id, w1)
      ∧ ∀ s, world s = w1 →
             queryFaults s (ChunkFind id (User.apiKey (dto_user samplePayload))) = false →
             ∃ found,
               (getAllChunksByBookId id (User.apiKey (dto_user samplePayload)) s).1
               = Done found
               ∧ map BooksChunk.text found = map chunk (chunks split)
               ∧ map BooksChunk.index found = map chunkIndex (chunks split)
               ∧ foldr String.append EmptyString (map BooksChunk.text found)
                 = bookText samplePayload.
Proof.
  assert (sampleReachable emptyWorld) as Hr by apply rtc_refl.
  assert (∀ op, faults emptyWorld op = false) as Hf by reflexivity.
  assert (0 < User.chunkSize (dto_user samplePayload)) as Hs by (vm_compute; reflexivity).
  split; [exact Hr|]. split; [exact Hf|]. split; [exact Hs|].
  exact (createBook_then_getAllChunksByBookId sampleGenId 0 sampleAppUrl sampleGenId_inj
           emptyWorld samplePayload Hr Hf Hs).
Defined.

Lemma uploadFile_adds_at_most_one_witness :
  sampleReachable (world sampleSite)
  ∧ (countBooks sampleTelegramId
       (world (uploadFile sampleGenId 0 sampleAppUrl sampleTelegramId sampleBooksLimit
                 (Some "KEY-A") None sampleFile sampleSite).2) 1
     = countBooks sampleTelegramId (world sampleSite) 1
     ∨ ∃ key u,
         Some "KEY-A" = Some key
         ∧ List.find (λ u, bool_decide (User.apiKey u = key)) (users sampleSite) = Some u
         ∧ sampleTelegramId u = 1
         ∧ countBooks sampleTelegramId
             (world (uploadFile sampleGenId 0 sampleAppUrl sampleTelegramId sampleBooksLimit
                       (Some "KEY-A") None sampleFile sampleSite).2) 1
           = S (countBooks sampleTelegramId (world sampleSite) 1)).
Proof.
  split; [exact uploaded_reachable|].
  exact (uploadFile_adds_at_most_one sampleGenId 0 sampleAppUrl sampleTelegramId
           sampleBooksLimit sampleGenId_inj sampleSite (Some "KEY-A") None sampleFile 1
           uploaded_reachable).
Defined.

Lemma uploadFile_counts_before_chunks_witness :
  sampleReachable (world sampleSite)
  ∧ List.find (λ u, bool_decide (User.apiKey u = "KEY-A")) (users sampleSite) = Some alice
  ∧ Z.of_nat (countBooks sampleTelegramId (world sampleSite) (sampleTelegramId alice))
    < sampleBooksLimit alice
  ∧ (uploadFile sampleGenId 0 sampleAppUrl sampleTelegramId sampleBooksLimit
       (Some "KEY-A") None sampleFile sampleSite).1
    = Done "https://books.example/r/b1/1?k=KEY-A"
  ∧ countBooks sampleTelegramId
      (world (uploadFile sampleGenId 0 sampleAppUrl sampleTelegramId sampleBooksLimit
                (Some "KEY-A") None sampleFile sampleSite).2) (sampleTelegramId alice)
    = S (countBooks sampleTelegramId (world sampleSite) (sampleTelegramId alice)).
Proof.
  assert (Z.of_nat (countBooks sampleTelegramId (world sampleSite) (sampleTelegramId alice))
          < sampleBooksLimit alice) as Hlimit by (vm_compute; reflexivity).
  split; [exact uploaded_reachable|]. split; [reflexivity|]. split; [exact Hlimit|].
  destruct (uploadFile_counts_before_chunks sampleGenId 0 sampleAppUrl sampleTelegramId
              sampleBooksLimit sampleGenId_inj sampleSite "KEY-A" None sampleFile alice
              uploaded_reachable ltac:(discriminate) eq_refl eq_refl eq_refl eq_refl Hlimit
              ltac:(vm_compute; reflexivity) eq_refl) as (_ & Hcount & _).
  split; [vm_compute; reflexivity | exact Hcount].
Defined.

Lemma getBookPage_links_witness :
  reachable decimalGenId 0 sampleAppUrl (world decimalSite)
  ∧ (∃ view main back next,
       (getBookPage sampleAppUrl 0 1 (Some "KEY-A") decimalSite).1
       = Done (PageFound view main back next)
       ∧ bookId view = pretty 0
       ∧ currentPage view = 1
       ∧ back = "https://books.example/r/0/1?k=KEY-A"
       ∧ next = "https://books.example/r/0/2?k=KEY-A").
Proof.
  assert (reachable decimalGenId 0 sampleAppUrl (world decimalSite)) as Hr.
  { apply rtc_once.
    exact (step_createBook decimalGenId 0 sampleAppUrl samplePayload emptyWorld). }
  split; [exact Hr|].
  destruct (getBookPage_links decimalGenId 0 sampleAppUrl decimalGenId_inj
              decimalSite 0 1 (Some "KEY-A") Hr) as [_ Hkey].
  destruct (Hkey eq_refl) as (_ & Hfound & _).
  destruct (getBookPage sampleAppUrl 0 1 (Some "KEY-A") decimalSite).1
    as [[view main back next|main title text]|f] eqn:Hrun;
    [|vm_compute in Hrun; discriminate Hrun..].
  destruct (Hfound view main back next eq_refl) as (Hid & Hpage & _ & Hback & Hnext).
  exists view, main, back, next. repeat split; assumption.
Defined.

Lemma getBookById_strips_extension_witness :
  sampleReachable uploaded
  ∧ books uploaded !! "b0" = Some sampleBook
  ∧ Book.title sampleBook = "abc" +:+ ".txt"
  ∧ removeDotTxt "abc" = "abc"
  ∧ ∃ dto, (getBookById sampleAppUrl "b0" "KEY-A" uploaded).1 = Ok (Some dto)
           ∧ gb_title dto = "abc"
           ∧ fileName dto = Some "abc.txt".
Proof.
  split; [exact uploaded_reachable|]. split; [exact uploaded_book|].
  split; [reflexivity|]. split; [reflexivity|].
  destruct (getBookById_strips_extension sampleGenId 0 sampleAppUrl sampleGenId_inj
              uploaded "b0" "KEY-A" "abc" sampleBook
              uploaded_reachable uploaded_book eq_refl eq_refl eq_refl eq_refl)
    as ((dto & Hrun & _ & Htitle & Hfile & _) & _).
  exists dto. split; [exact Hrun|]. split; [exact Htitle | exact Hfile].
Defined.

Lemma deleteBookById_and_limit_witness :
  sampleReachable uploaded
  ∧ books uploaded !! "b0" = Some sampleBook
  ∧ (deleteBookById "b0" "KEY-A" uploaded).1 = Ok (Some sampleBook, true)
  ∧ countBooks sampleTelegramId uploaded 1
    = (countBooks sampleTelegramId deletedByOwner 1 + 1)%nat
  ∧ countBooks sampleTelegramId uploaded 2 = (countBooks sampleTelegramId deletedByOwner 2 + 0)%nat.
Proof.
  assert ((deleteBookById "b0" "KEY-A" uploaded).1 = Ok (Some sampleBook, true)) as Hrun
    by (vm_compute; reflexivity).
  split; [exact uploaded_reachable|]. split; [exact uploaded_book|]. split; [exact Hrun|].
  destruct (deleteBookById_and_limit sampleGenId 0 sampleAppUrl sampleTelegramId
              sampleGenId_inj uploaded "b0" "KEY-A" sampleBook
              uploaded_reachable uploaded_book eq_refl eq_refl) as (_ & Hdone & _).
  destruct (Hdone Hrun) as [Hcount _].
  split; [exact (Hcount 1) | exact (Hcount 2)].
Defined.

End SampleRuns.
